(** * The [search] system call of fs/read_write.c

    A shallow embedding of the pattern matcher ([ispattern],
    [__match_pathname], [match_pathname], [isrecursive]), of the result
    encoder ([copy_search_result]), of the directory walker
    ([search_directory]) and of the system call itself, followed by the
    properties established about them.

    Conventions.  A C string is represented by the [string] of the
    characters that precede its terminator; reading the character at the
    end of a string yields the terminator [NUL].  Integers of type [int]
    and [size_t] are values of [Z]. *)

From Stdlib Require Import ZArith List String Ascii Bool Lia DecimalString.
Import ListNotations.

Open Scope Z_scope.
Open Scope char_scope.

(** ** Characters and C strings *)

Definition NUL : ascii := "000".

(** [s[0]] *)
Definition peek (s : string) : ascii :=
  match s with
  | EmptyString => NUL
  | String c _ => c
  end.

(** [s + 1], for a string whose first character has just been examined. *)
Definition advance (s : string) : string :=
  match s with
  | EmptyString => EmptyString
  | String _ s' => s'
  end.

(** [strchr(s, c)] for [c] other than the terminator: the suffix of [s]
    that starts at the first [c], or [None] for the null pointer. *)
Fixpoint strchr (s : string) (c : ascii) : option string :=
  match s with
  | EmptyString => None
  | String d s' =>
      if (d =? NUL)%char then None
      else if (d =? c)%char then Some s
      else strchr s' c
  end.

(** [strchrskip]: one past the first [c]. *)
Definition strchrskip (s : string) (c : ascii) : option string :=
  match strchr s c with
  | Some s' => Some (advance s')
  | None => None
  end.

(** ** The pattern matcher *)

Inductive search_matched : Set :=
  | SEARCH_MATCH_FAILURE
  | SEARCH_MATCH_PARTIAL
  | SEARCH_MATCH_SUCCESS
  | SEARCH_MATCH_OVERFLOW.

Definition search_matched_eqb (a b : search_matched) : bool :=
  match a, b with
  | SEARCH_MATCH_FAILURE, SEARCH_MATCH_FAILURE
  | SEARCH_MATCH_PARTIAL, SEARCH_MATCH_PARTIAL
  | SEARCH_MATCH_SUCCESS, SEARCH_MATCH_SUCCESS
  | SEARCH_MATCH_OVERFLOW, SEARCH_MATCH_OVERFLOW => true
  | _, _ => false
  end.

Definition is_failure (r : search_matched) : bool :=
  search_matched_eqb r SEARCH_MATCH_FAILURE.

(** [ispattern]: a pattern that does not start with a slash, or that holds
    one of the characters * ? |, needs a tree search. *)
Fixpoint has_wildcard (pattern : string) : bool :=
  match pattern with
  | EmptyString => false
  | String c pattern' =>
      if (c =? NUL)%char then false
      else if (c =? "*") || (c =? "?") || (c =? "|") then true
      else has_wildcard pattern'
  end.

Definition ispattern (pattern : string) : Z :=
  if negb (peek pattern =? "/") then 1
  else if has_wildcard pattern then 1 else 0.

Definition is_filename (c : ascii) : bool :=
  negb (c =? "/") && negb (c =? NUL).

(** The recursion bound of the matcher, the literal 8 of the source. *)
Definition MATCH_DEPTH : Z := 8.

(** The [do ... while] of the star case: [attempt p] is the recursive
    call with the path at [p].  After a failed attempt the path pointer
    moves on by one, and the loop goes on while the character just passed
    is a file-name character. *)
Definition star_loop (attempt : string -> search_matched)
  : string -> search_matched :=
  fix star (p : string) : search_matched :=
    let result := attempt p in
    if negb (is_failure result) then result
    else match p with
         | EmptyString => SEARCH_MATCH_FAILURE
         | String d p1 =>
             if is_filename d then star p1 else SEARCH_MATCH_FAILURE
         end.

(** The body of [__match_pathname] past its entry test: the [while (1)]
    loop over the pattern.  Every recursive call of the source is made at
    [n+1] on [pattern+1]; it appears here as [call], which performs the
    entry test of the callee (see [call_is_match_pathname]). *)
Fixpoint match_loop (n : Z) (pathname pattern : string) (flags : Z)
  {struct pattern} : search_matched :=
  match pattern with
  | EmptyString =>
      if (peek pathname =? NUL)%char then SEARCH_MATCH_SUCCESS
      else SEARCH_MATCH_FAILURE
  | String c pattern1 =>
      let call (p : string) : search_matched :=
        if n + 1 >=? MATCH_DEPTH then SEARCH_MATCH_OVERFLOW
        else match_loop (n + 1) p pattern1 flags in
      if (c =? NUL)%char then
        if (peek pathname =? NUL)%char then SEARCH_MATCH_SUCCESS
        else SEARCH_MATCH_FAILURE
      else if (c =? "*")%char then star_loop call pathname
      else if (c =? "?")%char then
        if is_filename (peek pathname) then
          let result := call (advance pathname) in
          if negb (is_failure result) then result
          else match_loop n pathname pattern1 flags
        else match_loop n pathname pattern1 flags
      else if (c =? "[")%char then SEARCH_MATCH_FAILURE
      else if (c =? "|")%char && (peek pathname =? NUL)%char then
        SEARCH_MATCH_SUCCESS
      else if ((c =? "|")%char || (c =? "/")%char)
              && (peek pathname =? NUL)%char then
        SEARCH_MATCH_PARTIAL
      else if (peek pathname =? c)%char then
        match_loop n (advance pathname) pattern1 flags
      else SEARCH_MATCH_FAILURE
  end.

Definition __match_pathname (n : Z) (pathname pattern : string) (flags : Z)
  : search_matched :=
  if n >=? MATCH_DEPTH then SEARCH_MATCH_OVERFLOW
  else match_loop n pathname pattern flags.

(** The positions visited by [for (; p; p = strchrskip(p+1, '|'))]: the
    start of the pattern, then one past each bar found by a scan that
    resumes one character after the previous position.  [bars_from s] is
    the rest of the visit when the scan is at [s]. *)
Fixpoint bars_from (s : string) : list string :=
  match s with
  | EmptyString => []
  | String d s' =>
      if (d =? NUL)%char then []
      else if (d =? "|")%char then
        s' :: match s' with
              | EmptyString => []
              | String _ s'' => bars_from s''
              end
      else bars_from s'
  end.

Definition alternatives (pattern : string) : list string :=
  pattern :: bars_from (advance pattern).

(** The positions visited by [for (; path; path = strchr(path+1, '/'))]:
    the start of the path, then each later slash. *)
Fixpoint slashes_from (s : string) : list string :=
  match s with
  | EmptyString => []
  | String d s' =>
      if (d =? NUL)%char then []
      else if (d =? "/")%char then s :: slashes_from s'
      else slashes_from s'
  end.

Definition boundaries (pathname : string) : list string :=
  pathname :: slashes_from (advance pathname).

(** The inner loop of [match_pathname]; [Some r] when the function
    returns [r] from inside the loop. *)
Fixpoint match_alternatives (path : string) (patts : list string)
  (flags : Z) : option search_matched :=
  match patts with
  | [] => None
  | patt :: patts' =>
      let status :=
        if (peek patt =? "/")%char then __match_pathname 0 path patt flags
        else __match_pathname 0 (advance path) patt flags in
      if negb (is_failure status) then Some status
      else match_alternatives path patts' flags
  end.

Fixpoint match_boundaries (paths patts : list string) (flags : Z)
  : option search_matched :=
  match paths with
  | [] => None
  | path :: paths' =>
      match match_alternatives path patts flags with
      | Some r => Some r
      | None => match_boundaries paths' patts flags
      end
  end.

(** When both loops run to their end every attempt has left
    [SEARCH_MATCH_FAILURE] in [status], which is then returned. *)
Definition match_pathname (pathname pattern : string) (flags : Z)
  : search_matched :=
  match match_boundaries (boundaries pathname) (alternatives pattern) flags with
  | Some r => r
  | None => SEARCH_MATCH_FAILURE
  end.

Definition isrecursive (pattern : string) : Z :=
  if existsb (fun p => negb (peek p =? "/")%char) (alternatives pattern)
  then 1 else 0.

Close Scope char_scope.
Close Scope Z_scope.
Open Scope string_scope.
Open Scope Z_scope.

(** ** Kernel objects used by the search

    The collaborators of the search (directory open, listing, path
    resolution, attributes, the optional native search hook of a file
    system, user-memory access) are not part of the file; they are taken
    as data: a [kernel] describes what each of them answers. *)

(** A pointer-or-error value: [ERR_PTR e] is the encoded error [-e]. *)
Inductive ptr_result (A : Type) : Type :=
  | PTR_OK (p : A)
  | ERR_PTR (errno : positive).
Arguments PTR_OK {A} p.
Arguments ERR_PTR {A} errno.

Definition PTR_ERR (errno : positive) : Z := Z.neg errno.

(** The error numbers, the directory-entry type of a directory and the
    path limit, as the kernel headers that the file includes define
    them, and the width of [long] and [size_t] on a 64-bit kernel. *)
Definition EPERM : Z := 1.
Definition ENOENT : Z := 2.
Definition ENOMEM : Z := 12.
Definition EACCES : Z := 13.
Definition EFAULT : Z := 14.
Definition ENODEV : Z := 19.
Definition EINVAL : Z := 22.
Definition ERANGE : Z := 34.

Definition DT_DIR : Z := 4.
Definition PATH_MAX : Z := 4096.
Definition TREE_DEPTH : Z := 16.
Definition BITS_PER_LONG : Z := 64.
Definition SEARCH_BUF : Z := Z.shiftl PATH_MAX 4.

Definition SEARCH_STOPATFIRST : Z := Z.shiftl 1 0.
Definition SEARCH_METADATA : Z := Z.shiftl 1 1.
Definition SEARCH_INCLUDEROOT : Z := Z.shiftl 1 2.
Definition SEARCH_PERIOD : Z := Z.shiftl 1 3.
Definition SEARCH_R_OK : Z := Z.shiftl 1 4.
Definition SEARCH_W_OK : Z := Z.shiftl 1 5.
Definition SEARCH_X_OK : Z := Z.shiftl 1 6.

(** [flags & bit] as a condition *)
Definition flag_set (flags bit : Z) : bool := negb (Z.land flags bit =? 0).

Record kstat : Set := mk_kstat {
  st_dev : Z; st_ino : Z; st_mode : Z; st_nlink : Z; st_uid : Z; st_gid : Z;
  st_rdev : Z; st_size : Z; st_atime : Z; st_mtime : Z; st_ctime : Z;
  st_blksize : Z; st_blocks : Z
}.

Definition kstat_zero : kstat := mk_kstat 0 0 0 0 0 0 0 0 0 0 0 0 0.

(** A resolved [struct path]: what [vfs_path_lookup] answers for a name
    below it, and what [vfs_getattr] answers for the path so found. *)
Record vpath : Type := mk_vpath {
  vfs_path_lookup : string -> Z;
  vfs_getattr : string -> Z * kstat
}.

(** The native search hook [f_op->search]: from the mount point, the
    path below it, the pattern, the flags, the output cursor, the
    remaining capacity and user memory to its return value and the user
    memory it leaves. *)
Definition native_search : Type :=
  string -> string -> string -> Z -> Z -> Z -> (Z -> ascii) -> Z * (Z -> ascii).

(** An open directory, [struct file].  [f_readdir] lists what the
    successive calls of [vfs_readdir] do: the entries offered to the
    fill callback, as name and [d_type], and the value returned; once
    the list is used up a call offers nothing and returns 0. *)
Record file : Type := mk_file {
  f_path : vpath;
  f_abspath : ptr_result string;
  f_mountpoint : string;
  f_search : option native_search;
  f_readdir : list (list (string * Z) * Z)
}.

Record kernel : Type := mk_kernel {
  access_ok : Z -> Z -> bool;
  kmalloc_ds : bool;
  kmalloc_dirs : bool;
  getname : Z -> ptr_result string;
  filp_open : string -> ptr_result file;
  kern_path : string -> Z * vpath;
  user_writable : Z -> bool;
  huge_encode_dev : Z -> Z
}.

(** What a run does to its surroundings, in order: directories opened
    (with the handle obtained) or refused, handles closed, records copied
    out and records refused for lack of room.  The trace is only ever
    extended, and no decision of the search depends on it; its length
    serves to number the handles. *)
Inductive event : Type :=
  | Opened (path : string) (handle : nat)
  | OpenFailed (path : string) (errno : positive)
  | Closed (handle : nat)
  | Emitted (record : string)
  | Rejected (record : string).

Record world : Type := mk_world {
  umem : Z -> ascii;
  trace : list event
}.

Definition set_umem (w : world) (m : Z -> ascii) : world :=
  mk_world m (trace w).

Definition record_event (w : world) (e : event) : world :=
  mk_world (umem w) (trace w ++ [e])%list.

Definition store (m : Z -> ascii) (a : Z) (c : ascii) : Z -> ascii :=
  fun x => if x =? a then c else m x.

(** [copy_to_user]: bytes are stored until the first address that cannot
    be written; the value is the number of bytes left uncopied. *)
Fixpoint copy_to_user (K : kernel) (m : Z -> ascii) (to : Z)
  (from : list ascii) : Z * (Z -> ascii) :=
  match from with
  | [] => (0, m)
  | c :: from' =>
      if user_writable K to then copy_to_user K (store m to c) (to + 1) from'
      else (Z.of_nat (List.length from), m)
  end.

Definition strlen (s : string) : Z := Z.of_nat (String.length s).

(** [s + k] for an offset inside the string *)
Fixpoint string_skip (k : nat) (s : string) : string :=
  match k, s with
  | O, _ => s
  | S k', String _ s' => string_skip k' s'
  | S _, EmptyString => EmptyString
  end.

Definition offset (s : string) (k : Z) : string := string_skip (Z.to_nat k) s.

(** Storing the terminator at [s + k]: the string ends there, or where
    it already ended. *)
Definition terminate_at (s : string) (k : Z) : string :=
  substring 0 (Z.to_nat k) s.

(** ** The state of a search, [struct dir_search]

    The fields [isrecursive] and [ispattern] carry the prefix [ds_] here,
    their names being those of the two functions.  The list of roots
    [paths] is an argument of the loop that runs over it, the scratch
    text [result] is local to the encoder, and the two resolved paths of
    [psearch] are local to the literal branch.  The per-level frames
    [dirs[n]] are the local variables of the walker below: a nested call
    works on [dirs[n+1]] and leaves the frame of its caller alone. *)
Record dir_search : Type := mk_dir_search {
  status : Z;
  results : Z;
  pattern : string;
  flags : Z;
  buf : Z;
  next : Z;
  len : Z;
  ds_isrecursive : Z;
  ds_ispattern : Z;
  base : Z;
  path : string
}.

Definition set_status (ds : dir_search) (v : Z) : dir_search :=
  mk_dir_search v (results ds) (pattern ds) (flags ds) (buf ds) (next ds)
    (len ds) (ds_isrecursive ds) (ds_ispattern ds) (base ds) (path ds).
Definition set_results (ds : dir_search) (v : Z) : dir_search :=
  mk_dir_search (status ds) v (pattern ds) (flags ds) (buf ds) (next ds)
    (len ds) (ds_isrecursive ds) (ds_ispattern ds) (base ds) (path ds).
Definition set_pattern (ds : dir_search) (v : string) : dir_search :=
  mk_dir_search (status ds) (results ds) v (flags ds) (buf ds) (next ds)
    (len ds) (ds_isrecursive ds) (ds_ispattern ds) (base ds) (path ds).
Definition set_next (ds : dir_search) (v : Z) : dir_search :=
  mk_dir_search (status ds) (results ds) (pattern ds) (flags ds) (buf ds) v
    (len ds) (ds_isrecursive ds) (ds_ispattern ds) (base ds) (path ds).
Definition set_len (ds : dir_search) (v : Z) : dir_search :=
  mk_dir_search (status ds) (results ds) (pattern ds) (flags ds) (buf ds)
    (next ds) v (ds_isrecursive ds) (ds_ispattern ds) (base ds) (path ds).
Definition set_base (ds : dir_search) (v : Z) : dir_search :=
  mk_dir_search (status ds) (results ds) (pattern ds) (flags ds) (buf ds)
    (next ds) (len ds) (ds_isrecursive ds) (ds_ispattern ds) v (path ds).
Definition set_path (ds : dir_search) (v : string) : dir_search :=
  mk_dir_search (status ds) (results ds) (pattern ds) (flags ds) (buf ds)
    (next ds) (len ds) (ds_isrecursive ds) (ds_ispattern ds) (base ds) v.

(** ** The result encoder *)

(** [(ssize_t) x] and [(int) x]: the value reduced to a signed word. *)
Definition to_signed (bits : Z) (x : Z) : Z :=
  let m := x mod 2 ^ bits in
  if m <? 2 ^ (bits - 1) then m else m - 2 ^ bits.
Definition ssize_t (x : Z) : Z := to_signed BITS_PER_LONG x.
Definition int (x : Z) : Z := to_signed 32 x.

(** the conversions %zd and %d *)
Definition decimal (x : Z) : string :=
  DecimalString.NilZero.string_of_int (Z.to_int x).

Definition format_stat (K : kernel) (stat : kstat) : string :=
  decimal (ssize_t (huge_encode_dev K (st_dev stat))) ++ "," ++
  decimal (ssize_t (st_ino stat)) ++ "," ++
  decimal (int (st_mode stat)) ++ "," ++
  decimal (ssize_t (st_nlink stat)) ++ "," ++
  decimal (int (st_uid stat)) ++ "," ++
  decimal (int (st_gid stat)) ++ "," ++
  decimal (ssize_t (huge_encode_dev K (st_rdev stat))) ++ "," ++
  decimal (ssize_t (st_size stat)) ++ "," ++
  decimal (ssize_t (st_atime stat)) ++ "," ++
  decimal (ssize_t (st_mtime stat)) ++ "," ++
  decimal (ssize_t (st_ctime stat)) ++ "," ++
  decimal (ssize_t (st_blksize stat)) ++ "," ++
  decimal (ssize_t (st_blocks stat)).

(** the text left in [ds->result] by [sprintf] *)
Definition encode (K : kernel) (fl : Z) (p : string) (stat : kstat) : string :=
  if flag_set fl SEARCH_METADATA
  then "0|" ++ p ++ "|" ++ format_stat K stat ++ "|"
  else "0|" ++ p ++ "||".

(** [copy_search_result(ds, &ds->next, &ds->len, path, stat)] *)
Definition copy_search_result (K : kernel) (ds : dir_search) (w : world)
  (p : string) (stat : kstat) : Z * dir_search * world :=
  let result := encode K (flags ds) p stat in
  let result_len := strlen result in
  if result_len + 2 <=? len ds then
    let '(uncopied, m) :=
      copy_to_user K (umem w) (next ds)
        (list_ascii_of_string result ++ [NUL; NUL])%list in
    if negb (uncopied =? 0) then (- EFAULT, ds, set_umem w m)
    else (0,
          set_len (set_next ds (next ds + result_len)) (len ds - result_len),
          record_event (set_umem w m) (Emitted result))
  else (- ERANGE, ds, record_event w (Rejected result)).

(** ** The directory walker *)

(** [search_filldir]: the entries buffer of a frame is the list of the
    entries stored so far, each a type character and a name, and the
    number of bytes they take. *)
Definition search_filldir (fill : list (ascii * string) * Z) (name : string)
  (d_type : Z) : Z * (list (ascii * string) * Z) :=
  let '(entries, used) := fill in
  let namelen := strlen name in
  if int (SEARCH_BUF - used) <? namelen + 3 then (- EINVAL, fill)
  else
    let type := if d_type =? DT_DIR then "d"%char else "o"%char in
    (0, ((entries ++ [(type, name)])%list, used + (namelen + 2))).

(** One call of [vfs_readdir]: the entries on offer go to the callback
    until it refuses one. *)
Fixpoint vfs_readdir (offered : list (string * Z))
  (fill : list (ascii * string) * Z) : list (ascii * string) * Z :=
  match offered with
  | [] => fill
  | (name, d_type) :: offered' =>
      let '(r, fill') := search_filldir fill name d_type in
      if r <? 0 then fill' else vfs_readdir offered' fill'
  end.

(** Where control stands after a step of the entry loop: it goes on, or
    it has jumped to the label [exit]. *)
Inductive ctl : Set := Next | GotoExit.

(** The block run for an entry that matched with [SEARCH_MATCH_SUCCESS].
    The attributes passed to the encoder are read by it only under
    [SEARCH_METADATA], where [vfs_getattr] has just filled them in. *)
Definition report_entry (K : kernel) (f : file) (entry : string)
  (ds : dir_search) (w : world) : ctl * dir_search * world :=
  let ds := set_status ds (vfs_path_lookup (f_path f) entry) in
  if negb (status ds =? 0) then (GotoExit, ds, w) else
  let '(ds, stat) :=
    if flag_set (flags ds) SEARCH_METADATA
    then (set_status ds (fst (vfs_getattr (f_path f) entry)),
          snd (vfs_getattr (f_path f) entry))
    else (ds, kstat_zero) in
  if negb (status ds =? 0) then (GotoExit, ds, w) else
  let '(r, ds, w) :=
    if flag_set (flags ds) SEARCH_INCLUDEROOT
    then copy_search_result K ds w (path ds) stat
    else copy_search_result K ds w entry stat in
  let ds := set_status ds r in
  if negb (status ds =? 0) then (GotoExit, ds, w) else
  let ds := set_results ds (results ds + 1) in
  if flag_set (flags ds) SEARCH_STOPATFIRST then (GotoExit, ds, w)
  else (Next, ds, w).

(** The test that guards the nested call *)
Definition descends (type : ascii) (entry : string) (how : search_matched)
  (ds : dir_search) : bool :=
  (type =? "d")%char && negb (entry =? ".")%string
  && negb (entry =? "..")%string
  && (search_matched_eqb how SEARCH_MATCH_PARTIAL
      || negb (ds_isrecursive ds =? 0)).

(** The body of the loop over the entries of one listing.  [self] is
    [search_directory(ds, n+1)]; [dir] is the length of the path when the
    loop was entered. *)
Definition scan_entry (K : kernel)
  (self : dir_search -> world -> Z * dir_search * world)
  (f : file) (dir : Z) (de : ascii * string)
  (ds : dir_search) (w : world) : ctl * dir_search * world :=
  let '(type, entry) := de in
  let ds := set_path ds (path ds ++ "/" ++ entry) in
  let how := match_pathname (offset (path ds) (base ds)) (pattern ds) (flags ds) in
  let '(c, ds, w) :=
    match how with
    | SEARCH_MATCH_SUCCESS => report_entry K f entry ds w
    | _ => (Next, ds, w)
    end in
  match c with
  | GotoExit => (GotoExit, ds, w)
  | Next =>
      let '(c, ds, w) :=
        if descends type entry how ds then
          let '(r, ds, w) := self ds w in
          let ds := set_status ds r in
          if negb (status ds =? 0) then (GotoExit, ds, w)
          else if (results ds >? 0) && flag_set (flags ds) SEARCH_STOPATFIRST
          then (GotoExit, ds, w)
          else (Next, ds, w)
        else (Next, ds, w) in
      match c with
      | GotoExit => (GotoExit, ds, w)
      | Next => (Next, set_path ds (terminate_at (path ds) dir), w)
      end
  end.

Fixpoint scan_entries (K : kernel)
  (self : dir_search -> world -> Z * dir_search * world)
  (f : file) (dir : Z) (entries : list (ascii * string))
  (ds : dir_search) (w : world) : ctl * dir_search * world :=
  match entries with
  | [] => (Next, ds, w)
  | de :: entries' =>
      match scan_entry K self f dir de ds w with
      | (GotoExit, ds, w) => (GotoExit, ds, w)
      | (Next, ds, w) => scan_entries K self f dir entries' ds w
      end
  end.

(** The [do ... while] that lists the directory, batch after batch,
    until a call of [vfs_readdir] stores nothing. *)
Fixpoint readdir_loop (K : kernel)
  (self : dir_search -> world -> Z * dir_search * world)
  (f : file) (calls : list (list (string * Z) * Z))
  (ds : dir_search) (w : world) : dir_search * world :=
  match calls with
  | [] => (set_status ds 0, w)
  | (offered, r) :: calls' =>
      let entries := fst (vfs_readdir offered ([], 0)) in
      let ds := set_status ds r in
      if negb (status ds =? 0) then (ds, w) else
      match entries with
      | [] => (ds, w)
      | _ :: _ =>
          match scan_entries K self f (strlen (path ds)) entries ds w with
          | (GotoExit, ds, w) => (ds, w)
          | (Next, ds, w) => readdir_loop K self f calls' ds w
          end
      end
  end.

Definition recoverable (e : Z) : bool :=
  (e =? - ENOENT) || (e =? - EPERM) || (e =? - EACCES) || (e =? - ENODEV).

(** The label a run of the body of [search_directory] ends at: [exit],
    which closes the directory, or [out], which does not. *)
Inductive label : Set := L_exit | L_out.

(** What [search_directory] does once the directory is open *)
Definition search_opened (K : kernel)
  (self : dir_search -> world -> Z * dir_search * world)
  (f : file) (ds : dir_search) (w : world) : label * dir_search * world :=
  match f_abspath f with
  | ERR_PTR e => (L_exit, set_status ds (PTR_ERR e), w)
  | PTR_OK s =>
      let ds := set_status (set_path ds s) 0 in
      let ds := if base ds =? 0 then set_base ds (strlen (path ds)) else ds in
      match f_search f with
      | Some search =>
          let mount_real_path := f_mountpoint f in
          let rel_path := offset (path ds) (strlen mount_real_path) in
          let '(driver_code, m) :=
            search mount_real_path rel_path (pattern ds) (flags ds)
                   (next ds) (len ds) (umem w) in
          let w := set_umem w m in
          let ds := set_results ds (results ds + driver_code) in
          let ds := set_next ds (next ds + driver_code) in
          if driver_code <? 0 then (L_out, set_status ds driver_code, w)
          else (L_exit,
                set_len ds ((len ds - driver_code) mod 2 ^ BITS_PER_LONG), w)
      | None =>
          let '(ds, w) := readdir_loop K self f (f_readdir f) ds w in
          (L_exit, ds, w)
      end
  end.

(** The body of [search_directory] for a depth below [TREE_DEPTH];
    [self] is the call one level down.  The handle obtained from
    [filp_open] is numbered by the length of the trace at that time. *)
Definition search_directory_at (K : kernel)
  (self : dir_search -> world -> Z * dir_search * world)
  (ds : dir_search) (w : world) : Z * dir_search * world :=
  let ds := set_status ds 0 in
  match filp_open K (path ds) with
  | ERR_PTR e =>
      let ds := set_status ds (PTR_ERR e) in
      let w := record_event w (OpenFailed (path ds) e) in
      if recoverable (status ds) then (0, ds, w)
      else (status ds, ds, w)
  | PTR_OK f =>
      let fp := List.length (trace w) in
      let w := record_event w (Opened (path ds) fp) in
      match search_opened K self f ds w with
      | (L_exit, ds, w) => (status ds, ds, record_event w (Closed fp))
      | (L_out, ds, w) => (status ds, ds, w)
      end
  end.

(** [search_directory], by recursion on the number [rem] of levels left
    below [TREE_DEPTH]: the call at depth [n] is the one with
    [rem = TREE_DEPTH - n], and none is left when [n >= TREE_DEPTH]. *)
Fixpoint search_directory_rem (K : kernel) (rem : nat)
  (ds : dir_search) (w : world) : Z * dir_search * world :=
  match rem with
  | O => (0, ds, w)
  | S rem' => search_directory_at K (search_directory_rem K rem') ds w
  end.

Definition search_directory (K : kernel) (ds : dir_search) (w : world)
  (n : Z) : Z * dir_search * world :=
  search_directory_rem K (Z.to_nat (TREE_DEPTH - n)) ds w.

(** ** The system call *)

(** The tokens that the successive calls of [strsep(&n, "|")] return *)
Fixpoint strsep_all (s : string) : list string :=
  match s with
  | EmptyString => [EmptyString]
  | String c s' =>
      if (c =? NUL)%char then [EmptyString]
      else if (c =? "|")%char then EmptyString :: strsep_all s'
      else match strsep_all s' with
           | t :: ts => String c t :: ts
           | [] => [String c EmptyString]
           end
  end.

(** The leading slashes of a literal pattern are dropped. *)
Fixpoint skip_slashes (s : string) : string :=
  match s with
  | String c s' => if (c =? "/")%char then skip_slashes s' else s
  | EmptyString => s
  end.

(** How one turn of the loop over the roots ends *)
Inductive turn : Set :=
  | T_continue
  | T_break
  | T_exit (status : Z).

(** The branch taken for a pattern without wildcard: two lookups *)
Definition search_literal (K : kernel) (ds : dir_search) (w : world)
  : turn * dir_search * world :=
  let '(st, p0) := kern_path K (path ds) in
  if st =? - ENOENT then (T_continue, ds, w)
  else if negb (st =? 0) then (T_exit st, ds, w)
  else
    let ds := set_base ds (strlen (path ds)) in
    let ds := set_path ds (path ds ++ "/" ++ pattern ds) in
    let st := vfs_path_lookup p0 (pattern ds) in
    if st =? - ENOENT then (T_continue, ds, w)
    else if negb (st =? 0) then (T_exit st, ds, w)
    else
      let '(st, stat) :=
        if flag_set (flags ds) SEARCH_METADATA
        then vfs_getattr p0 (pattern ds)
        else (st, kstat_zero) in
      if negb (st =? 0) then (T_exit st, ds, w)
      else
        let '(st, ds, w) :=
          if flag_set (flags ds) SEARCH_INCLUDEROOT
          then copy_search_result K ds w (path ds) stat
          else copy_search_result K ds w (offset (path ds) (base ds)) stat in
        if negb (st =? 0) then (T_exit st, ds, w)
        else
          let ds := set_results ds (results ds + 1) in
          if flag_set (flags ds) SEARCH_STOPATFIRST then (T_break, ds, w)
          else (T_continue, ds, w).

(** One turn of the loop, for the root [c] *)
Definition search_root (K : kernel) (c : string) (ds : dir_search)
  (w : world) : turn * dir_search * world :=
  let ds := set_path ds c in
  if negb (ds_ispattern ds =? 0) then
    let ds := set_base ds 0 in
    let '(st, ds, w) := search_directory K ds w 0 in
    if negb (st =? 0) then (T_exit st, ds, w)
    else if (results ds >? 0) && flag_set (flags ds) SEARCH_STOPATFIRST
    then (T_break, ds, w)
    else (T_continue, ds, w)
  else search_literal K ds w.

(** The loop over the roots; [Some st] when it is left by [goto exit]
    with [status = st]. *)
Fixpoint search_roots (K : kernel) (roots : list string) (ds : dir_search)
  (w : world) : option Z * dir_search * world :=
  match roots with
  | [] => (None, ds, w)
  | c :: roots' =>
      match search_root K c ds w with
      | (T_exit st, ds, w) => (Some st, ds, w)
      | (T_break, ds, w) => (None, ds, w)
      | (T_continue, ds, w) => search_roots K roots' ds w
      end
  end.

(** [SYSCALL_DEFINE5(search, paths, pattern, flags, buf, len)]; the two
    user pointers are [u_paths] and [u_pattern]. *)
Definition sys_search (K : kernel) (w : world) (u_paths u_pattern : Z)
  (flags : Z) (buf : Z) (len : Z) : Z * world :=
  if negb (access_ok K buf len) then (- EFAULT, w)
  else if negb (kmalloc_ds K) then (- ENOMEM, w)
  else
    match getname K u_paths with
    | ERR_PTR e => (PTR_ERR e, w)
    | PTR_OK ds_paths =>
        match getname K u_pattern with
        | ERR_PTR e => (PTR_ERR e, w)
        | PTR_OK ds_pattern =>
            let ds :=
              mk_dir_search 0 0 ds_pattern flags buf buf len
                (isrecursive ds_pattern) (ispattern ds_pattern) 0
                EmptyString in
            if negb (ds_ispattern ds =? 0) && negb (kmalloc_dirs K)
            then (0, w)
            else
              let ds :=
                if negb (ds_ispattern ds =? 0) then ds
                else set_pattern ds (skip_slashes (pattern ds)) in
              match search_roots K (strsep_all ds_paths) ds w with
              | (Some st, _, w) => (st, w)
              | (None, ds, w) =>
                  if negb (buf =? next ds) then
                    let '(st, m) :=
                      copy_to_user K (umem w) (next ds - 1) [NUL; NUL] in
                    if negb (st =? 0) then (st, set_umem w m)
                    else (results ds, set_umem w m)
                  else (results ds, w)
              end
        end
    end.


(** ** Definitions used to state the properties of the matcher *)

(** The number of file-name characters at the head of a path: the most a
    star can consume. *)
Fixpoint segment_length (p : string) : nat :=
  match p with
  | EmptyString => O
  | String d p' => if is_filename d then S (segment_length p') else O
  end.

(** The first outcome of a list of attempts that is not a failure. *)
Fixpoint first_non_failure (l : list search_matched) : search_matched :=
  match l with
  | [] => SEARCH_MATCH_FAILURE
  | r :: l' => if is_failure r then first_non_failure l' else r
  end.

(** What the star is said to try: the rest of the pattern, one level
    down, with no character consumed, then one, then two, up to the end
    of the segment. *)
Definition star_attempts (n : Z) (pathname rest : string) (flags : Z)
  : list search_matched :=
  map (fun k => __match_pathname (n + 1) (string_skip k pathname) rest flags)
      (seq 0 (S (segment_length pathname))).

Fixpoint stars (k : nat) : string :=
  match k with
  | O => EmptyString
  | S k' => String "*" (stars k')
  end.

(** An opening bracket stands in the first alternative of the pattern:
    before any bar and before the end. *)
Fixpoint bracket_before_bar (pattern : string) : bool :=
  match pattern with
  | EmptyString => false
  | String c pattern' =>
      if (c =? NUL)%char then false
      else if (c =? "[")%char then true
      else if (c =? "|")%char then false
      else bracket_before_bar pattern'
  end.


(** ** Definitions used to state the properties of the search *)

(** The text of user memory from an address on *)
Definition read_mem (m : Z -> ascii) (a : Z) (n : nat) : list ascii :=
  map (fun i => m (a + Z.of_nat i)) (seq 0 n).

(** The records copied out in a stretch of the trace, in order *)
Fixpoint emitted (l : list event) : list string :=
  match l with
  | [] => []
  | Emitted r :: l' => r :: emitted l'
  | _ :: l' => emitted l'
  end.

(** The handles left open by a stretch of the trace *)
Fixpoint left_open (l : list event) (opened : list nat) : list nat :=
  match l with
  | [] => opened
  | Opened _ h :: l' => left_open l' (h :: opened)
  | Closed h :: l' => left_open l' (List.remove Nat.eq_dec h opened)
  | _ :: l' => left_open l' opened
  end.

(** The events that are said to end a call, with the status each one
    stands for: a record refused for lack of room, and a directory whose
    opening failed for a reason other than the four that are skipped. *)
Definition fatal (e : event) : option Z :=
  match e with
  | Rejected _ => Some (- ERANGE)
  | OpenFailed _ errno =>
      if recoverable (PTR_ERR errno) then None else Some (PTR_ERR errno)
  | _ => None
  end.



(** Collaborators that report a failure by a negative status and
    success by 0, as the kernel's do. *)
Definition vpath_statuses (p : vpath) : Prop :=
  forall name, vfs_path_lookup p name <= 0 /\ fst (vfs_getattr p name) <= 0.

Definition errno_convention (K : kernel) : Prop :=
  (forall p, fst (kern_path K p) <= 0 /\ vpath_statuses (snd (kern_path K p)))
  /\ (forall p f, filp_open K p = PTR_OK f ->
        vpath_statuses (f_path f)
        /\ Forall (fun call => snd call <= 0) (f_readdir f)).

(** No directory of the file system has a native search hook. *)
Definition no_native_search (K : kernel) : Prop :=
  forall p f, filp_open K p = PTR_OK f -> f_search f = None.

(** Every native search hook returns at most [bound]. *)
Definition native_search_bounded (K : kernel) (bound : Z) : Prop :=
  forall p f search mnt rel pat fl nxt ln m,
    filp_open K p = PTR_OK f -> f_search f = Some search ->
    fst (search mnt rel pat fl nxt ln m) <= bound.

(** ** Sample file systems *)

Definition DT_REG : Z := 8.

Definition vpath_any : vpath :=
  mk_vpath (fun _ => 0) (fun _ => (0, kstat_zero)).

Definition vpath_none : vpath :=
  mk_vpath (fun _ => - ENOENT) (fun _ => (- ENOENT, kstat_zero)).

(** A directory listed in one call, without native search *)
Definition plain_dir (abs : string) (entries : list (string * Z)) : file :=
  mk_file vpath_any (PTR_OK abs) "/" None [(entries, 0)].

(** A directory whose file system answers searches itself, by [code] *)
Definition native_dir (abs : string) (code : Z) : file :=
  mk_file vpath_any (PTR_OK abs) "/" (Some (fun _ _ _ _ _ _ m => (code, m))) [].

Fixpoint lookup_path {A : Type} (table : list (string * A)) (otherwise : A)
  (p : string) : A :=
  match table with
  | [] => otherwise
  | (q, v) :: table' =>
      if (p =? q)%string then v else lookup_path table' otherwise p
  end.

(** A kernel in which the user pointer 0 holds [paths] and every other
    one [pattern], every address is writable, and the directories that
    open are those of [dirs]. *)
Definition sample_kernel (paths pattern : string)
  (dirs : list (string * file)) (resolved : list (string * vpath)) : kernel :=
  mk_kernel (fun _ _ => true) true true
    (fun u => if u =? 0 then PTR_OK paths else PTR_OK pattern)
    (lookup_path (map (fun d => (fst d, PTR_OK (snd d))) dirs)
                 (ERR_PTR 2%positive))
    (fun p => match lookup_path (map (fun d => (fst d, Some (snd d))) resolved)
                      None p with
              | Some v => (0, v)
              | None => (- ENOENT, vpath_none)
              end)
    (fun _ => true) (fun dev => dev).

Definition blank : world := mk_world (fun _ => "#"%char) [].

(** /r holds the files a and b. *)
Definition two_files : list (string * file) :=
  [("/r", plain_dir "/r" [("a", DT_REG); ("b", DT_REG)])].

(** /r holds the directory sub, which holds the file c.txt. *)
Definition nested_tree : list (string * file) :=
  [("/r", plain_dir "/r" [("sub", DT_DIR)]);
   ("/r/sub", plain_dir "/r/sub" [("c.txt", DT_REG)])].

(** /r is on a file system with a native search that returns [code]. *)
Definition native_root (code : Z) : list (string * file) :=
  [("/r", native_dir "/r" code)].

(** A stretch of trace without fatal event, and a stretch whose fatal
    events all stand for the status [st]. *)
Definition quiet (l : list event) : Prop :=
  forall ev, In ev l -> fatal ev = None.

Definition blames (l : list event) (st : Z) : Prop :=
  forall ev c, In ev l -> fatal ev = Some c -> st = c.

(** A walker whose return value is the status of any fatal event of its
    run. *)
Definition reports_fatal
  (self : dir_search -> world -> Z * dir_search * world) : Prop :=
  forall ds w st ds' w',
    self ds w = (st, ds', w') ->
    exists l, trace w' = (trace w ++ l)%list /\ blames l st.

(** How the end of a turn of the loop over the roots stands to the
    trace of the turn *)
Definition turn_blames (t : turn) (l : list event) : Prop :=
  match t with
  | T_exit st => blames l st
  | _ => quiet l
  end.


(** Two states of a search that differ at most in the fields that steer
    the walk (status, path, base) and agree on what the call reports. *)
Definition same_output (ds ds' : dir_search) : Prop :=
  results ds = results ds' /\ flags ds = flags ds' /\ buf ds = buf ds'
  /\ next ds = next ds' /\ len ds = len ds'.

Definition is_emitted (e : event) : bool :=
  match e with
  | Emitted _ => true
  | _ => false
  end.

(** The state left by the native branch of the walker for the value
    [code] returned by the hook. *)
Definition after_native (ds : dir_search) (code : Z) : dir_search :=
  let ds := set_next (set_results ds (results ds + code)) (next ds + code) in
  if code <? 0 then ds
  else set_len ds ((len ds - code) mod 2 ^ BITS_PER_LONG).

Definition is_closed (e : event) : bool :=
  match e with
  | Closed _ => true
  | _ => false
  end.

(** A stretch of trace in which at most one record is emitted, and in
    which nothing happens after that record but the closing of
    directories. *)
Definition stops_after_first (l : list event) : Prop :=
  emitted l = []
  \/ exists l1 rec l2,
       l = (l1 ++ Emitted rec :: l2)%list
       /\ emitted l1 = [] /\ forallb is_closed l2 = true.

(** A search under SEARCH_STOPATFIRST that started in the world [w0]:
    while it goes on nothing has been counted or emitted; once it has
    stopped the count is at most 1. *)
Definition run_stop (w0 : world) (ds : dir_search) (w : world) : Prop :=
  flag_set (flags ds) SEARCH_STOPATFIRST = true
  /\ exists l, trace w = (trace w0 ++ l)%list
               /\ results ds = 0 /\ emitted l = [].

Definition halt_stop (w0 : world) (st : Z) (ds : dir_search) (w : world)
  : Prop :=
  flag_set (flags ds) SEARCH_STOPATFIRST = true
  /\ st <= 0
  /\ exists l, trace w = (trace w0 ++ l)%list
               /\ results ds <= 1
               /\ stops_after_first l
               /\ (st = 0 -> 0 <= results ds
                             /\ (results ds = 0 -> emitted l = [])).




(** What the rule for the walk asks of a walker, for a condition [Run]
    that holds while the search goes on and a condition [Halt st] that
    holds once it has stopped with status [st]. *)
Definition walks (Run : dir_search -> world -> Prop)
  (Halt : Z -> dir_search -> world -> Prop)
  (self : dir_search -> world -> Z * dir_search * world) : Prop :=
  forall ds w st ds' w',
    Run ds w -> self ds w = (st, ds', w') -> Halt st ds' w'.

(** The end of a turn of the loop over the roots, for the same
    conditions *)
Definition turn_ends (Run : dir_search -> world -> Prop)
  (Halt : Z -> dir_search -> world -> Prop)
  (t : turn) (ds : dir_search) (w : world) : Prop :=
  match t with
  | T_continue => Run ds w
  | T_break => Halt 0 ds w
  | T_exit st => st <> 0 /\ Halt st ds w
  end.

(** ** Definitions used to state further properties of the search *)

(** A C string: no character of it is the terminator. *)
Fixpoint cstring (s : string) : bool :=
  match s with
  | EmptyString => true
  | String c s' => negb (c =? NUL)%char && cstring s'
  end.

(** A pattern without any of the characters that the matcher treats
    specially: the star, the question mark, the bracket and the bar. *)
Fixpoint plain (s : string) : bool :=
  match s with
  | EmptyString => true
  | String c s' =>
      negb (c =? NUL)%char && negb (c =? "*")%char && negb (c =? "?")%char
      && negb (c =? "[")%char && negb (c =? "|")%char && plain s'
  end.

(** A name: a plain pattern without slash. *)
Fixpoint plain_name (s : string) : bool :=
  match s with
  | EmptyString => true
  | String c s' =>
      negb (c =? NUL)%char && negb (c =? "*")%char && negb (c =? "?")%char
      && negb (c =? "[")%char && negb (c =? "|")%char
      && negb (c =? "/")%char && plain_name s'
  end.

(** The state of a search with another value of the flags *)
Definition set_flags (ds : dir_search) (v : Z) : dir_search :=
  mk_dir_search (status ds) (results ds) (pattern ds) v (buf ds) (next ds)
    (len ds) (ds_isrecursive ds) (ds_ispattern ds) (base ds) (path ds).

(** Two values of the flags that agree on the three bits that the
    search consults *)
Definition same_consulted_flags (fl fl' : Z) : Prop :=
  flag_set fl SEARCH_STOPATFIRST = flag_set fl' SEARCH_STOPATFIRST
  /\ flag_set fl SEARCH_METADATA = flag_set fl' SEARCH_METADATA
  /\ flag_set fl SEARCH_INCLUDEROOT = flag_set fl' SEARCH_INCLUDEROOT.

(** The bytes that a list of stored entries takes in the entries
    buffer: the type character, the name and its terminator *)
Fixpoint entries_size (entries : list (ascii * string)) : Z :=
  match entries with
  | [] => 0
  | (_, name) :: entries' => strlen name + 2 + entries_size entries'
  end.

(** The entry stored for a name on offer *)
Definition stored_entry (de : string * Z) : ascii * string :=
  (if snd de =? DT_DIR then "d"%char else "o"%char, fst de).

(** A text without slash *)
Fixpoint slash_free (s : string) : bool :=
  match s with
  | EmptyString => true
  | String c s' => negb (c =? "/")%char && slash_free s'
  end.

(** Two states of a search that are the same but for the flags, which
    agree on the consulted bits; and two outcomes of a step that are the
    same but for the flags of the state. *)
Definition same_but_flags (ds ds' : dir_search) : Prop :=
  exists fl', ds' = set_flags ds fl' /\ same_consulted_flags (flags ds) fl'.

Definition same_run {A : Type} (x y : A * dir_search * world) : Prop :=
  fst (fst x) = fst (fst y) /\ snd x = snd y
  /\ same_but_flags (snd (fst x)) (snd (fst y)).

(** The two outcomes of a listing, which returns no value *)
Definition same_listing (x y : dir_search * world) : Prop :=
  snd x = snd y /\ same_but_flags (fst x) (fst y).

(** A walker that takes states that are the same but for the flags to
    outcomes that are. *)
Definition same_self
  (self : dir_search -> world -> Z * dir_search * world) : Prop :=
  forall ds ds' w, same_but_flags ds ds' -> same_run (self ds w) (self ds' w).

(** Two states that agree on the flags and on where the output stands *)
Definition same_cursor (ds ds' : dir_search) : Prop :=
  flags ds = flags ds' /\ buf ds = buf ds' /\ next ds = next ds'
  /\ len ds = len ds'.

(** A walker that keeps a condition on the state and the world *)
Definition keeps (I : dir_search -> world -> Prop)
  (self : dir_search -> world -> Z * dir_search * world) : Prop :=
  forall ds w st ds' w', I ds w -> self ds w = (st, ds', w') -> I ds' w'.

(** The writes of a search that started in the world [w0] with the
    buffer at [b] and the capacity [ln] have stayed inside the buffer:
    the cursor is in the buffer with the capacity that is left, at
    least two bytes of it once something has been written, and user
    memory outside of the buffer is as it was. *)
Definition inv_mem (w0 : world) (b ln : Z) (ds : dir_search) (w : world)
  : Prop :=
  b <= next ds /\ next ds + len ds = b + ln
  /\ (next ds = b \/ 2 <= len ds)
  /\ forall x, x < b \/ b + ln <= x -> umem w x = umem w0 x.

(** The events of the encoder: a record copied out or refused *)
Definition is_output (e : event) : bool :=
  match e with
  | Emitted _ | Rejected _ => true
  | _ => false
  end.

(** The path that the branch for a pattern without wildcard reports
    for the root [c] and the pattern [q] stripped of its leading
    slashes *)
Definition literal_report (fl : Z) (c q : string) : string :=
  if flag_set fl SEARCH_INCLUDEROOT then c ++ "/" ++ q else "/" ++ q.

(** The largest number of handles open at once in the course of a
    stretch of the trace that starts with the handles [opened] open *)
Fixpoint peak_open (l : list event) (opened : list nat) : nat :=
  match l with
  | [] => List.length opened
  | e :: l' =>
      Nat.max (List.length opened) (peak_open l' (left_open [e] opened))
  end.

(** A stretch of trace, produced from a trace of length [n0], that
    closes every handle it opens and has at most [depth] of its own
    handles open at once: whatever handles were open before, all older
    than the stretch, are the handles open after it. *)
Definition balanced (n0 depth : nat) (l : list event) : Prop :=
  forall opened,
    (forall h, In h opened -> (h < n0)%nat) ->
    left_open l opened = opened
    /\ (peak_open l opened <= List.length opened + depth)%nat.

(** The condition kept inside a directory opened at the world [w1]:
    what has happened since is balanced. *)
Definition inv_balanced (w1 : world) (depth : nat) (ds : dir_search)
  (w : world) : Prop :=
  exists l, trace w = (trace w1 ++ l)%list
            /\ balanced (List.length (trace w1)) depth l.


(** The fields set once for a call: the pattern, the flags and the
    kind of the pattern *)
Definition same_request (ds ds' : dir_search) : Prop :=
  pattern ds' = pattern ds /\ flags ds' = flags ds
  /\ ds_ispattern ds' = ds_ispattern ds.




(** A file system in which the canonical path of a directory that has
    been opened is the path it was opened by (no symbolic link or mount
    point on the way), when [abspath] gives one at all. *)
Definition canonical (K : kernel) : Prop :=
  forall p f s, filp_open K p = PTR_OK f -> f_abspath f = PTR_OK s -> s = p.

(** The search has not been stopped by a first match. *)
Definition going_on (ds : dir_search) : bool :=
  negb ((results ds >? 0) && flag_set (flags ds) SEARCH_STOPATFIRST).

(** The state after a step that started from [ds], as far as the path
    goes: the count is still not negative; where the loop goes on the
    path is the one of [ds]; where it is left, an error has been
    recorded or the search has been stopped. *)
Definition path_kept (ds : dir_search) (c : ctl) (ds' : dir_search) : Prop :=
  0 <= results ds'
  /\ match c with
     | Next => path ds' = path ds
     | GotoExit => status ds' <> 0 \/ going_on ds' = false
     end.

(** A walker that, when it returns 0 and the search goes on, has left
    the path as it found it. *)
Definition restores_path
  (self : dir_search -> world -> Z * dir_search * world) : Prop :=
  forall ds w st ds' w',
    0 <= results ds -> self ds w = (st, ds', w') ->
    0 <= results ds'
    /\ (st = 0 -> going_on ds' = true -> path ds' = path ds).

(** * The seek, read and write calls of fs/read_write.c

    The rest of the file: the implementations of [llseek], the checks
    made before a transfer ([rw_verify_area], [rw_copy_check_uvector]),
    the helpers on vectors of segments and the entry points built from
    them.  The drivers behind a file, the lock and security hooks and
    the file-descriptor table are collaborators and are taken as data.
    The loop of [do_sync_read], [do_sync_write] and
    [do_sync_readv_writev], which calls the asynchronous operation of
    the file again for as long as the scheduler has it retried, is not
    unrolled: the operation stands for the value and the position that
    the loop ends with. *)

(** ** Constants of the kernel headers

    The error numbers, the origins of a seek, the mode bits of an open
    file and the limits on a transfer, as the headers that the file
    includes define them; the page size is that of 4096 bytes. *)
Definition ENXIO : Z := 6.
Definition EBADF : Z := 9.
Definition ESPIPE : Z := 29.
Definition EOVERFLOW : Z := 75.

Definition SEEK_SET : Z := 0.
Definition SEEK_CUR : Z := 1.
Definition SEEK_END : Z := 2.
Definition SEEK_DATA : Z := 3.
Definition SEEK_HOLE : Z := 4.
Definition SEEK_MAX : Z := SEEK_HOLE.

Definition FMODE_READ : Z := 1.
Definition FMODE_WRITE : Z := 2.
Definition FMODE_LSEEK : Z := 4.
Definition FMODE_PREAD : Z := 8.
Definition FMODE_PWRITE : Z := 16.
Definition FMODE_UNSIGNED_OFFSET : Z := 8192.

Definition READ : Z := 0.
Definition WRITE : Z := 1.

Definition INT_MAX : Z := 2 ^ 31 - 1.
Definition PAGE_SHIFT : Z := 12.
Definition PAGE_CACHE_MASK : Z := Z.lnot (Z.shiftl 1 PAGE_SHIFT - 1).
Definition MAX_RW_COUNT : Z := Z.land INT_MAX PAGE_CACHE_MASK.
Definition UIO_FASTIOV : Z := 8.
Definition UIO_MAXIOV : Z := 1024.

(** [(loff_t) x]: the value reduced to a signed word of 64 bits, and
    [(size_t) x]: the value reduced to an unsigned [long]. *)
Definition loff_t (x : Z) : Z := to_signed 64 x.
Definition size_t (x : Z) : Z := x mod 2 ^ BITS_PER_LONG.
Definition LLONG_MAX : Z := 2 ^ 63 - 1.

(** ** Seeking *)

(** The fields of a [struct file] that the seek functions read and
    write, with the size of its inode ([i_size_read(inode)]) and the
    limit of its file system ([inode->i_sb->s_maxbytes]). *)
Record seek_file : Type := mk_seek_file {
  f_mode : Z;
  f_pos : Z;
  f_version : Z;
  i_size : Z;
  s_maxbytes : Z
}.

Definition flag_on (mode bit : Z) : bool := negb (Z.land mode bit =? 0).

Definition unsigned_offsets (file : seek_file) : bool :=
  flag_on (f_mode file) FMODE_UNSIGNED_OFFSET.

(** [file->f_pos = offset; file->f_version = 0] *)
Definition move_to (file : seek_file) (offset : Z) : seek_file :=
  mk_seek_file (f_mode file) offset 0 (i_size file) (s_maxbytes file).

(** A seek function returns its value and leaves the file in a state. *)
Definition lseek_execute (file : seek_file) (offset maxsize : Z)
  : Z * seek_file :=
  if (offset <? 0) && negb (unsigned_offsets file) then (- EINVAL, file)
  else if offset >? maxsize then (- EINVAL, file)
  else if negb (offset =? f_pos file) then (offset, move_to file offset)
  else (offset, file).

(** [generic_file_llseek_size]; the sums are those of [loff_t].  The
    spin lock taken around the relative seek matters to concurrent
    callers only. *)
Definition generic_file_llseek_size (file : seek_file)
  (offset origin maxsize : Z) : Z * seek_file :=
  if origin =? SEEK_END then
    lseek_execute file (loff_t (offset + i_size file)) maxsize
  else if origin =? SEEK_CUR then
    if offset =? 0 then (f_pos file, file)
    else lseek_execute file (loff_t (f_pos file + offset)) maxsize
  else if origin =? SEEK_DATA then
    if offset >=? i_size file then (- ENXIO, file)
    else lseek_execute file offset maxsize
  else if origin =? SEEK_HOLE then
    if offset >=? i_size file then (- ENXIO, file)
    else lseek_execute file (i_size file) maxsize
  else lseek_execute file offset maxsize.

Definition generic_file_llseek (file : seek_file) (offset origin : Z)
  : Z * seek_file :=
  generic_file_llseek_size file offset origin (s_maxbytes file).

Definition noop_llseek (file : seek_file) (offset origin : Z)
  : Z * seek_file :=
  (f_pos file, file).

Definition no_llseek (file : seek_file) (offset origin : Z)
  : Z * seek_file :=
  (- ESPIPE, file).

(** [default_llseek]: the part after the [switch], then the function.
    The mutex of the inode, held from entry to exit, matters to
    concurrent callers only. *)
Definition default_llseek_set (file : seek_file) (offset : Z)
  : Z * seek_file :=
  if (offset >=? 0) || unsigned_offsets file then
    if negb (offset =? f_pos file) then (offset, move_to file offset)
    else (offset, file)
  else (- EINVAL, file).

Definition default_llseek (file : seek_file) (offset origin : Z)
  : Z * seek_file :=
  if origin =? SEEK_END then
    default_llseek_set file (loff_t (offset + i_size file))
  else if origin =? SEEK_CUR then
    if offset =? 0 then (f_pos file, file)
    else default_llseek_set file (loff_t (offset + f_pos file))
  else if origin =? SEEK_DATA then
    if offset >=? i_size file then (- ENXIO, file)
    else default_llseek_set file offset
  else if origin =? SEEK_HOLE then
    if offset >=? i_size file then (- ENXIO, file)
    else default_llseek_set file (i_size file)
  else default_llseek_set file offset.

(** The operations of a file that this part of the code calls.  A null
    pointer is [None]. *)
Definition llseek_fn : Type := seek_file -> Z -> Z -> Z * seek_file.

(** [vfs_llseek]; [f_op_llseek] is [file->f_op->llseek], [None] when
    [f_op] or the pointer is null. *)
Definition vfs_llseek (f_op_llseek : option llseek_fn) (file : seek_file)
  (offset origin : Z) : Z * seek_file :=
  let fn :=
    if flag_on (f_mode file) FMODE_LSEEK then
      match f_op_llseek with
      | Some llseek => llseek
      | None => no_llseek
      end
    else no_llseek in
  fn file offset origin.

(** ** The checks made before a transfer *)

Definition VERIFY_READ : Z := 0.
Definition VERIFY_WRITE : Z := 1.
Definition FLOCK_VERIFY_READ : Z := 1.
Definition FLOCK_VERIFY_WRITE : Z := 2.
Definition MAY_WRITE : Z := 2.
Definition MAY_READ : Z := 4.

(** A segment of a vector, [struct iovec]: [iov_base] and [iov_len] *)
Definition iovec : Type := (Z * Z)%type.

(** What a driver is asked and what it answers: the file, the buffer,
    the count and the position; the value returned and the position
    left in [*ppos].  For a vector the segments and their total length
    are passed. *)
Definition io_fn : Type := seek_file -> Z -> Z -> Z -> Z * Z.
Definition iov_fn : Type := seek_file -> list iovec -> Z -> Z -> Z * Z.

(** [struct file_operations], for the operations called here.
    [aio_read] and [aio_write] stand for what the retry loop of
    [do_sync_readv_writev] returns when it drives the function of the
    file: the value and the position [kiocb.ki_pos] it ends with. *)
Record file_operations : Type := mk_file_operations {
  llseek : option llseek_fn;
  read : option io_fn;
  aio_read : option iov_fn;
  write : option io_fn;
  aio_write : option iov_fn
}.

(** An open file: its fields, its operations ([None] for a null
    [f_op]) and whether its inode carries locks under mandatory
    locking ([inode->i_flock && mandatory_lock(inode)]). *)
Record open_file : Type := mk_open_file {
  f_state : seek_file;
  f_op : option file_operations;
  mandatory : bool
}.

(** The services that the checks call: [access_ok] on user memory,
    [locks_mandatory_area] and [security_file_permission]. *)
Record rw_kernel : Type := mk_rw_kernel {
  rw_access_ok : Z -> Z -> Z -> bool;
  locks_mandatory_area : Z -> open_file -> Z -> Z -> Z;
  security_file_permission : open_file -> Z -> Z
}.

(** The first tests of [rw_verify_area]: [Some r] when it returns [r]
    from them.  The comparison [count >= -pos] is one of unsigned
    words, and the sum [pos + count] is cast to [loff_t]. *)
Definition area_overflows (file : open_file) (pos count : Z) : option Z :=
  if pos <? 0 then
    if negb (unsigned_offsets (f_state file)) then Some (- EINVAL)
    else if count >=? size_t (- pos) then Some (- EOVERFLOW)
    else None
  else if loff_t (pos + count) <? 0 then
    if negb (unsigned_offsets (f_state file)) then Some (- EINVAL)
    else None
  else None.

(** [rw_verify_area(read_write, file, ppos, count)], for [*ppos = pos] *)
Definition rw_verify_area (R : rw_kernel) (read_write : Z) (file : open_file)
  (pos count : Z) : Z :=
  if ssize_t count <? 0 then - EINVAL
  else
    match area_overflows file pos count with
    | Some r => r
    | None =>
        let locked :=
          if mandatory file then
            locks_mandatory_area R
              (if read_write =? READ then FLOCK_VERIFY_READ
               else FLOCK_VERIFY_WRITE) file pos count
          else 0 in
        if locked <? 0 then locked
        else
          let retval :=
            security_file_permission R file
              (if read_write =? READ then MAY_READ else MAY_WRITE) in
          if negb (retval =? 0) then retval
          else if count >? MAX_RW_COUNT then MAX_RW_COUNT else count
    end.

(** ** Vectors of segments *)

Fixpoint iov_total (iov : list iovec) : Z :=
  match iov with
  | [] => 0
  | (_, iov_len) :: iov' => iov_len + iov_total iov'
  end.

(** [iov_shorten(iov, nr_segs, to)] for a vector [iov] of [nr_segs]
    segments: the loop from the segment reached, with [seg] segments
    and [len] bytes behind it.  The value is the number of segments
    and the vector as it is left. *)
Fixpoint iov_shorten_from (iov : list iovec) (to seg len : Z)
  : Z * list iovec :=
  match iov with
  | [] => (seg, [])
  | (iov_base, iov_len) :: iov' =>
      if size_t (len + iov_len) >=? to
      then (seg + 1, (iov_base, size_t (to - len)) :: iov')
      else
        let '(r, rest) :=
          iov_shorten_from iov' to (seg + 1) (size_t (len + iov_len)) in
        (r, (iov_base, iov_len) :: rest)
  end.

Definition iov_shorten (iov : list iovec) (to : Z) : Z * list iovec :=
  iov_shorten_from iov to 0 0.

(** [do_loop_readv_writev]: the loop from the segment reached, with
    [ret] bytes transferred so far.  The driver [fn] acts on a state
    that holds what it may change, [*ppos] included. *)
Fixpoint do_loop_readv_writev {S : Type} (fn : S -> Z -> Z -> Z * S)
  (vector : list iovec) (s : S) (ret : Z) : Z * S :=
  match vector with
  | [] => (ret, s)
  | (base, len) :: vector' =>
      let '(nr, s) := fn s base len in
      if nr <? 0 then (if ret =? 0 then nr else ret, s)
      else
        let ret := ssize_t (ret + nr) in
        if negb (nr =? len) then (ret, s)
        else do_loop_readv_writev fn vector' s ret
  end.

(** [vrfy_dir(type)] *)
Definition vrfy_dir (type : Z) : Z :=
  if type =? READ then VERIFY_WRITE else VERIFY_READ.

(** The loop of [rw_copy_check_uvector] from the segment reached, with
    the total [ret] so far: the value it ends with and the vector as it
    is left, a segment cut down having its new length. *)
Fixpoint check_segments (R : rw_kernel) (type : Z) (check_access : bool)
  (iov : list iovec) (ret : Z) : Z * list iovec :=
  match iov with
  | [] => (ret, [])
  | (buf, iov_len) :: iov' =>
      let len := ssize_t iov_len in
      if len <? 0 then (- EINVAL, iov)
      else if check_access && negb (rw_access_ok R (vrfy_dir type) buf len)
      then (- EFAULT, iov)
      else if len >? MAX_RW_COUNT - ret then
        let '(r, rest) :=
          check_segments R type check_access iov'
            (ret + (MAX_RW_COUNT - ret)) in
        (r, (buf, MAX_RW_COUNT - ret) :: rest)
      else
        let '(r, rest) :=
          check_segments R type check_access iov' (ret + len) in
        (r, (buf, iov_len) :: rest)
  end.

(** [rw_copy_check_uvector]: [kmalloc_iov] tells whether the
    allocation of a vector longer than [fast_segs] succeeds, and
    [fetched] is what [copy_from_user] reads at [uvector], [None] when
    it faults.  The vector returned is [None] as long as nothing has
    been copied into it. *)
Definition rw_copy_check_uvector (R : rw_kernel) (kmalloc_iov : bool)
  (type : Z) (fetched : option (list iovec)) (nr_segs fast_segs : Z)
  (check_access : bool) : Z * option (list iovec) :=
  if nr_segs =? 0 then (0, None)
  else if nr_segs >? UIO_MAXIOV then (- EINVAL, None)
  else if (nr_segs >? fast_segs) && negb kmalloc_iov then (- ENOMEM, None)
  else
    match fetched with
    | None => (- EFAULT, None)
    | Some iov =>
        let '(ret, iov) := check_segments R type check_access iov 0 in
        (ret, Some iov)
    end.

(** [pos_from_hilo] for a [long] of [bits] bits: the shifts are those
    of [loff_t], and so is the value. *)
Definition pos_from_hilo_on (bits : Z) (high low : Z) : Z :=
  let HALF_LONG_BITS := bits / 2 in
  loff_t (Z.lor (loff_t (Z.shiftl (loff_t (Z.shiftl (loff_t high)
                                             HALF_LONG_BITS))
                           HALF_LONG_BITS))
                low).

Definition pos_from_hilo (high low : Z) : Z :=
  pos_from_hilo_on BITS_PER_LONG high low.

(** ** Sample files *)

(** A regular file of 100 bytes at position 10, on a file system that
    holds files of up to 4096 bytes, open for reading, writing and
    seeking. *)
Definition sample_file : seek_file :=
  mk_seek_file (Z.lor FMODE_READ (Z.lor FMODE_WRITE FMODE_LSEEK)) 10 7 100 4096.

(** Services that allow everything, and the sample file as an open
    file without operations *)
Definition permissive : rw_kernel :=
  mk_rw_kernel (fun _ _ _ => true) (fun _ _ _ _ => 0) (fun _ _ => 0).

Definition sample_open_file : open_file :=
  mk_open_file sample_file None false.

(** ** Definitions used to state the properties of the vectors *)

(** Every length of a vector is a value of [size_t]. *)
Definition iov_lengths_ok (iov : list iovec) : Prop :=
  Forall (fun seg : iovec => 0 <= snd seg < 2 ^ 64) iov.

(** A vector cut down from another: the same bases, and lengths that
    are not negative and not above those of the other. *)
Definition iov_cut_down (iov iov' : list iovec) : Prop :=
  Forall2 (fun seg seg' : iovec =>
             fst seg' = fst seg /\ 0 <= snd seg' <= snd seg) iov iov'.

(** A driver instrumented to count the bytes it transfers *)
Definition counting {S : Type} (fn : S -> Z -> Z -> Z * S)
  (s : S * Z) (base len : Z) : Z * (S * Z) :=
  let '(nr, s') := fn (fst s) base len in
  (nr, (s', if nr >? 0 then snd s + nr else snd s)).

(** Every length of a vector is non-negative. *)
Definition iov_lengths_nonneg (iov : list iovec) : Prop :=
  Forall (fun seg : iovec => 0 <= snd seg) iov.

(** ** Reading and writing *)

(** The accounting of the current task ([add_rchar], [add_wchar],
    [inc_syscr], [inc_syscw]) and the notifications sent
    ([fsnotify_access], [fsnotify_modify]), in order. *)
Inductive notification : Set := Access | Modify.

Record task_io : Type := mk_task_io {
  rchar : Z;
  wchar : Z;
  syscr : Z;
  syscw : Z;
  notified : list notification
}.

Definition add_rchar (t : task_io) (amt : Z) : task_io :=
  mk_task_io (rchar t + amt) (wchar t) (syscr t) (syscw t) (notified t).
Definition add_wchar (t : task_io) (amt : Z) : task_io :=
  mk_task_io (rchar t) (wchar t + amt) (syscr t) (syscw t) (notified t).
Definition inc_syscr (t : task_io) : task_io :=
  mk_task_io (rchar t) (wchar t) (syscr t + 1) (syscw t) (notified t).
Definition inc_syscw (t : task_io) : task_io :=
  mk_task_io (rchar t) (wchar t) (syscr t) (syscw t + 1) (notified t).
Definition fsnotify (t : task_io) (n : notification) : task_io :=
  mk_task_io (rchar t) (wchar t) (syscr t) (syscw t)
    (notified t ++ [n])%list.

(** [do_sync_read] and [do_sync_write]: one segment, handed to the
    asynchronous operation of the file.  The value is [None] when the
    operation called is a null pointer. *)
Definition do_sync_read (filp : open_file) (buf len pos : Z)
  : option (Z * Z) :=
  match f_op filp with
  | Some ops =>
      match aio_read ops with
      | Some fn => Some (fn (f_state filp) [(buf, len)] len pos)
      | None => None
      end
  | None => None
  end.

Definition do_sync_write (filp : open_file) (buf len pos : Z)
  : option (Z * Z) :=
  match f_op filp with
  | Some ops =>
      match aio_write ops with
      | Some fn => Some (fn (f_state filp) [(buf, len)] len pos)
      | None => None
      end
  | None => None
  end.

Definition do_sync_readv_writev (filp : open_file) (iov : list iovec)
  (len pos : Z) (fn : iov_fn) : Z * Z :=
  fn (f_state filp) iov len pos.

(** [vfs_read(file, buf, count, &pos)]: the value returned, the
    position left in [pos] and the accounting; [None] when a null
    operation is called. *)
Definition vfs_read (R : rw_kernel) (file : open_file) (buf count pos : Z)
  (t : task_io) : option (Z * Z * task_io) :=
  if negb (flag_on (f_mode (f_state file)) FMODE_READ)
  then Some (- EBADF, pos, t)
  else
    match f_op file with
    | None => Some (- EINVAL, pos, t)
    | Some ops =>
        match read ops, aio_read ops with
        | None, None => Some (- EINVAL, pos, t)
        | _, _ =>
            if negb (rw_access_ok R VERIFY_WRITE buf count)
            then Some (- EFAULT, pos, t)
            else
              let ret := rw_verify_area R READ file pos count in
              if ret >=? 0 then
                let count := ret in
                match
                  match read ops with
                  | Some fn => Some (fn (f_state file) buf count pos)
                  | None => do_sync_read file buf count pos
                  end
                with
                | None => None
                | Some (ret, pos) =>
                    let t :=
                      if ret >? 0 then add_rchar (fsnotify t Access) ret
                      else t in
                    Some (ret, pos, inc_syscr t)
                end
              else Some (ret, pos, t)
        end
    end.

Definition vfs_write (R : rw_kernel) (file : open_file) (buf count pos : Z)
  (t : task_io) : option (Z * Z * task_io) :=
  if negb (flag_on (f_mode (f_state file)) FMODE_WRITE)
  then Some (- EBADF, pos, t)
  else
    match f_op file with
    | None => Some (- EINVAL, pos, t)
    | Some ops =>
        match write ops, aio_write ops with
        | None, None => Some (- EINVAL, pos, t)
        | _, _ =>
            if negb (rw_access_ok R VERIFY_READ buf count)
            then Some (- EFAULT, pos, t)
            else
              let ret := rw_verify_area R WRITE file pos count in
              if ret >=? 0 then
                let count := ret in
                match
                  match write ops with
                  | Some fn => Some (fn (f_state file) buf count pos)
                  | None => do_sync_write file buf count pos
                  end
                with
                | None => None
                | Some (ret, pos) =>
                    let t :=
                      if ret >? 0 then add_wchar (fsnotify t Modify) ret
                      else t in
                    Some (ret, pos, inc_syscw t)
                end
              else Some (ret, pos, t)
        end
    end.

(** [do_readv_writev], called by [vfs_readv] and [vfs_writev].  The
    vector that the driver gets is the one that
    [rw_copy_check_uvector] hands back, and the position is threaded
    through the calls of the loop. *)
Definition do_readv_writev (R : rw_kernel) (kmalloc_iov : bool) (type : Z)
  (file : open_file) (fetched : option (list iovec)) (nr_segs pos : Z)
  (t : task_io) : option (Z * Z * task_io) :=
  let out (ret pos : Z) : option (Z * Z * task_io) :=
    Some (ret, pos,
          if ret + (if type =? READ then 1 else 0) >? 0
          then fsnotify t (if type =? READ then Access else Modify)
          else t) in
  match f_op file with
  | None => out (- EINVAL) pos
  | Some ops =>
      let '(ret, iov) :=
        rw_copy_check_uvector R kmalloc_iov type fetched nr_segs
          UIO_FASTIOV true in
      if ret <=? 0 then out ret pos
      else
        let tot_len := ret in
        let ret := rw_verify_area R type file pos tot_len in
        if ret <? 0 then out ret pos
        else
          let iov := match iov with Some iov => iov | None => [] end in
          let fn := if type =? READ then read ops else write ops in
          let fnv := if type =? READ then aio_read ops else aio_write ops in
          match fnv with
          | Some fnv =>
              let '(ret, pos) :=
                do_sync_readv_writev file iov tot_len pos fnv in
              out ret pos
          | None =>
              match fn with
              | Some fn =>
                  let '(ret, pos) :=
                    do_loop_readv_writev
                      (fun pos base len =>
                         fn (f_state file) base len pos) iov pos 0 in
                  out ret pos
              | None => None
              end
          end
  end.

Definition vfs_readv (R : rw_kernel) (kmalloc_iov : bool) (file : open_file)
  (vec : option (list iovec)) (vlen pos : Z) (t : task_io)
  : option (Z * Z * task_io) :=
  if negb (flag_on (f_mode (f_state file)) FMODE_READ)
  then Some (- EBADF, pos, t)
  else
    match f_op file with
    | None => Some (- EINVAL, pos, t)
    | Some ops =>
        match aio_read ops, read ops with
        | None, None => Some (- EINVAL, pos, t)
        | _, _ => do_readv_writev R kmalloc_iov READ file vec vlen pos t
        end
    end.

Definition vfs_writev (R : rw_kernel) (kmalloc_iov : bool) (file : open_file)
  (vec : option (list iovec)) (vlen pos : Z) (t : task_io)
  : option (Z * Z * task_io) :=
  if negb (flag_on (f_mode (f_state file)) FMODE_WRITE)
  then Some (- EBADF, pos, t)
  else
    match f_op file with
    | None => Some (- EINVAL, pos, t)
    | Some ops =>
        match aio_write ops, write ops with
        | None, None => Some (- EINVAL, pos, t)
        | _, _ => do_readv_writev R kmalloc_iov WRITE file vec vlen pos t
        end
    end.

(** Drivers that never report more than they were asked for: an
    operation on one buffer at most its count, an operation on a vector
    at most the total length passed. *)
Definition driver_bounded (fn : io_fn) : Prop :=
  forall file buf count pos, fst (fn file buf count pos) <= count.

Definition vector_driver_bounded (fn : iov_fn) : Prop :=
  forall file iov len pos, fst (fn file iov len pos) <= len.

Definition drivers_bounded (file : open_file) : Prop :=
  forall ops, f_op file = Some ops ->
    (forall fn, read ops = Some fn \/ write ops = Some fn ->
                driver_bounded fn)
    /\ (forall fn, aio_read ops = Some fn \/ aio_write ops = Some fn ->
                   vector_driver_bounded fn).

(** A file of a driver that reads everything it is asked for and has no
    other operation *)
Definition greedy_read : io_fn := fun _ _ count pos => (count, pos + count).

Definition sample_readable : open_file :=
  mk_open_file sample_file
    (Some (mk_file_operations None (Some greedy_read) None None None)) false.

Definition idle : task_io := mk_task_io 0 0 0 0 [].

(** ** Copying from a file to a file *)

(** The files of the task by descriptor: [fget_light(fd)] is the file
    at [fd], [None] when there is none.  The reference that
    [fget_light] takes and [fput_light] drops is not represented. *)
Definition fdtable : Type := Z -> option open_file.

(** [do_splice_direct(in_file, ppos, out_file, count, fl)], where
    [ppos] is the position cell given by the caller or, for [None], the
    position of the input file: the value returned, the cell of the
    caller afterwards and the files afterwards. *)
Definition splice_fn : Type :=
  fdtable -> Z -> option Z -> Z -> Z -> Z -> Z * option Z * fdtable.

(** [min(a, b)] *)
Definition min_loff (a b : Z) : Z := if a <? b then a else b.

(** [*ppos] *)
Definition position_at (files : fdtable) (in_fd : Z) (ppos : option Z) : Z :=
  match ppos with
  | Some pos => pos
  | None =>
      match files in_fd with
      | Some in_file => f_pos (f_state in_file)
      | None => 0
      end
  end.

(** [do_sendfile(out_fd, in_fd, ppos, count, max)]: the value
    returned, the cell at [ppos], the files and the accounting.  The
    sum [pos + count] is one of unsigned words, and so is its
    comparison with [max]. *)
Definition do_sendfile (R : rw_kernel) (do_splice_direct : splice_fn)
  (files : fdtable) (out_fd in_fd : Z) (ppos : option Z) (count max : Z)
  (t : task_io) : Z * option Z * fdtable * task_io :=
  match files in_fd with
  | None => (- EBADF, ppos, files, t)
  | Some in_file =>
      if negb (flag_on (f_mode (f_state in_file)) FMODE_READ)
      then (- EBADF, ppos, files, t)
      else if match ppos with
              | None => false
              | Some _ => negb (flag_on (f_mode (f_state in_file)) FMODE_PREAD)
              end
      then (- ESPIPE, ppos, files, t)
      else
        let retval :=
          rw_verify_area R READ in_file (position_at files in_fd ppos) count in
        if retval <? 0 then (retval, ppos, files, t)
        else
          let count := retval in
          match files out_fd with
          | None => (- EBADF, ppos, files, t)
          | Some out_file =>
              if negb (flag_on (f_mode (f_state out_file)) FMODE_WRITE)
              then (- EBADF, ppos, files, t)
              else
                let retval :=
                  rw_verify_area R WRITE out_file (f_pos (f_state out_file))
                    count in
                if retval <? 0 then (retval, ppos, files, t)
                else
                  let count := retval in
                  let max :=
                    if max =? 0
                    then min_loff (s_maxbytes (f_state in_file))
                                  (s_maxbytes (f_state out_file))
                    else max in
                  let pos := position_at files in_fd ppos in
                  let splice (count : Z) :=
                    let '(retval, ppos, files) :=
                      do_splice_direct files in_fd ppos out_fd count 0 in
                    let t :=
                      if retval >? 0
                      then add_wchar (add_rchar t retval) retval
                      else t in
                    let t := inc_syscw (inc_syscr t) in
                    (if position_at files in_fd ppos >? max
                     then - EOVERFLOW else retval,
                     ppos, files, t) in
                  if size_t (pos + count) >? size_t max then
                    if pos >=? max then (- EOVERFLOW, ppos, files, t)
                    else splice (size_t (max - pos))
                  else splice count
          end
  end.

(** A table with the sample file open at the descriptors 3 and 4, and a
    splice that copies everything it is asked for. *)
Definition sample_files : fdtable :=
  fun fd => if (fd =? 3) || (fd =? 4) then Some sample_open_file else None.

Definition greedy_splice : splice_fn :=
  fun files _ ppos _ count _ =>
    (count, option_map (fun pos => pos + count) ppos, files).
(** * Properties of the matcher *)

Lemma call_is_match_pathname (n : Z) (p pattern1 : string) (flags : Z) :
  (if n + 1 >=? MATCH_DEPTH then SEARCH_MATCH_OVERFLOW
   else match_loop (n + 1) p pattern1 flags)
  = __match_pathname (n + 1) p pattern1 flags.
Proof. reflexivity. Qed.

Lemma match_loop_star (n : Z) (pathname rest : string) (flags : Z) :
  match_loop n pathname (String "*" rest) flags
  = star_loop (fun p => __match_pathname (n + 1) p rest flags) pathname.
Proof. reflexivity. Qed.

Lemma bars_from_strchrskip (s : string) :
  bars_from s = match strchrskip s "|" with
                | None => []
                | Some p => p :: bars_from (advance p)
                end.
Proof.
  unfold strchrskip.
  induction s as [|d s IH]; simpl; [reflexivity|].
  destruct (d =? NUL)%char; [reflexivity|].
  destruct (d =? "|")%char.
  - simpl. destruct s; reflexivity.
  - rewrite IH. destruct (strchr s "|"); reflexivity.
Qed.

Lemma slashes_from_strchr (s : string) :
  slashes_from s = match strchr s "/" with
                   | None => []
                   | Some p => p :: slashes_from (advance p)
                   end.
Proof.
  induction s as [|d s IH]; simpl; [reflexivity|].
  destruct (d =? NUL)%char; [reflexivity|].
  destruct (d =? "/")%char; [reflexivity|].
  exact IH.
Qed.

Lemma star_loop_unfold (attempt : string -> search_matched) (p : string) :
  star_loop attempt p =
  if negb (is_failure (attempt p)) then attempt p
  else match p with
       | EmptyString => SEARCH_MATCH_FAILURE
       | String d p1 =>
           if is_filename d then star_loop attempt p1
           else SEARCH_MATCH_FAILURE
       end.
Proof. destruct p; reflexivity. Qed.

Lemma star_loop_first_non_failure (attempt : string -> search_matched)
  (p : string) :
  star_loop attempt p =
  first_non_failure
    (map (fun k => attempt (string_skip k p)) (seq 0 (S (segment_length p)))).
Proof.
  induction p as [|d p IH]; rewrite star_loop_unfold.
  - simpl. destruct (is_failure (attempt EmptyString)); reflexivity.
  - cbn [segment_length].
    destruct (is_filename d).
    + change (seq 0 (S (S (segment_length p))))
        with (0%nat :: seq 1 (S (segment_length p))).
      rewrite <- seq_shift, map_cons, map_map.
      cbn [first_non_failure string_skip].
      destruct (is_failure (attempt (String d p))); simpl; [exact IH|reflexivity].
    + simpl. destruct (is_failure (attempt (String d p))); reflexivity.
Qed.

Lemma segment_is_filename (p : string) (i : nat) :
  (i < segment_length p)%nat -> is_filename (peek (string_skip i p)) = true.
Proof.
  revert i; induction p as [|d p IH]; intros i Hi; simpl in Hi; [lia|].
  destruct (is_filename d) eqn:Hd; [|lia].
  destruct i as [|i]; simpl; [exact Hd|].
  apply IH; lia.
Qed.

Lemma segment_ends (p : string) :
  is_filename (peek (string_skip (segment_length p) p)) = false.
Proof.
  induction p as [|d p IH]; [reflexivity|].
  cbn [segment_length]. destruct (is_filename d) eqn:Hd; [exact IH|exact Hd].
Qed.

(** C1: below the recursion bound, a star makes the attempts of
    [star_attempts] in order (nothing consumed first, then one more
    character of the path each time, the rest of the pattern matched one
    level down after each) and yields the first outcome that is not a
    failure; every character it consumes is a file-name character, and
    the attempts end at the first slash or at the end of the path, so no
    slash is crossed.  The pattern that is a lone star matches the empty
    path at the top call, and /a*b matches /axxb but not /axx/b. *)
Theorem star_stays_in_segment (n : Z) (pathname rest : string) (flags : Z)
  (Hn : n < MATCH_DEPTH) :
  __match_pathname n pathname (String "*" rest) flags
  = first_non_failure (star_attempts n pathname rest flags)
  /\ (forall i, (i < segment_length pathname)%nat ->
        peek (string_skip i pathname) <> "/"%char
        /\ peek (string_skip i pathname) <> NUL)
  /\ (peek (string_skip (segment_length pathname) pathname) = "/"%char
      \/ peek (string_skip (segment_length pathname) pathname) = NUL)
  /\ __match_pathname 0 "" "*" flags = SEARCH_MATCH_SUCCESS
  /\ __match_pathname 0 "/axxb" "/a*b" flags = SEARCH_MATCH_SUCCESS
  /\ __match_pathname 0 "/axx/b" "/a*b" flags = SEARCH_MATCH_FAILURE
  /\ match_pathname "/axxb" "/a*b" flags = SEARCH_MATCH_SUCCESS
  /\ match_pathname "/axx/b" "/a*b" flags = SEARCH_MATCH_FAILURE.
Proof.
  split; [|split; [|split]].
  - unfold __match_pathname at 1.
    destruct (n >=? MATCH_DEPTH) eqn:E; [apply Z.geb_le in E; lia|].
    rewrite match_loop_star.
    apply star_loop_first_non_failure.
  - intros i Hi. apply segment_is_filename in Hi.
    unfold is_filename in Hi. apply andb_prop in Hi. destruct Hi as [H1 H2].
    split; intro E; rewrite E in *; discriminate.
  - pose proof (segment_ends pathname) as He. unfold is_filename in He.
    apply andb_false_iff in He. rewrite !negb_false_iff, !Ascii.eqb_eq in He.
    exact He.
  - repeat split; reflexivity.
Qed.

Lemma star_stays_in_segment_witness :
  __match_pathname 3 "ab/c" (String "*" "b") 0
  = first_non_failure (star_attempts 3 "ab/c" "b" 0)
  /\ (forall i, (i < segment_length "ab/c")%nat ->
        peek (string_skip i "ab/c") <> "/"%char
        /\ peek (string_skip i "ab/c") <> NUL)
  /\ (peek (string_skip (segment_length "ab/c") "ab/c") = "/"%char
      \/ peek (string_skip (segment_length "ab/c") "ab/c") = NUL)
  /\ __match_pathname 0 "" "*" 0 = SEARCH_MATCH_SUCCESS
  /\ __match_pathname 0 "/axxb" "/a*b" 0 = SEARCH_MATCH_SUCCESS
  /\ __match_pathname 0 "/axx/b" "/a*b" 0 = SEARCH_MATCH_FAILURE
  /\ match_pathname "/axxb" "/a*b" 0 = SEARCH_MATCH_SUCCESS
  /\ match_pathname "/axx/b" "/a*b" 0 = SEARCH_MATCH_FAILURE.
Proof.
  apply (star_stays_in_segment 3 "ab/c" "b" 0).
  unfold MATCH_DEPTH. lia.
Defined.

Lemma match_pathname_at_bound (n : Z) (pathname pattern : string) (flags : Z) :
  MATCH_DEPTH <= n ->
  __match_pathname n pathname pattern flags = SEARCH_MATCH_OVERFLOW.
Proof.
  intro H. unfold __match_pathname.
  destruct (n >=? MATCH_DEPTH) eqn:E; [reflexivity|].
  rewrite Z.geb_leb in E. apply Z.leb_gt in E. lia.
Qed.

Lemma star_loop_first_attempt (attempt : string -> search_matched) (p : string) :
  is_failure (attempt p) = false -> star_loop attempt p = attempt p.
Proof. intro H. rewrite star_loop_unfold, H. reflexivity. Qed.

(** A run of stars long enough to reach the bound overflows, whatever
    the path and whatever follows the stars. *)
Lemma stars_overflow (k : nat) :
  forall (n : Z) (pathname rest : string) (flags : Z),
    MATCH_DEPTH <= n + Z.of_nat k ->
    __match_pathname n pathname (stars k ++ rest) flags = SEARCH_MATCH_OVERFLOW.
Proof.
  induction k as [|k IH]; intros n pathname rest flags H.
  - apply match_pathname_at_bound. lia.
  - destruct (Z_lt_le_dec n MATCH_DEPTH) as [Hlt|Hge];
      [|apply match_pathname_at_bound; exact Hge].
    unfold __match_pathname.
    destruct (n >=? MATCH_DEPTH) eqn:E; [reflexivity|].
    cbn [stars append]. rewrite match_loop_star.
    rewrite star_loop_first_attempt; rewrite IH by lia; reflexivity.
Qed.

(** C5: the matcher is a function defined on every recursion count, path
    and pattern, with one of four outcomes; a count that has reached the
    bound gives the overflow outcome at once; and twenty stars in a row
    resolve to the overflow outcome on every path, from the segment
    matcher and from the path matcher alike. *)
Theorem matcher_total_and_bounded (n : Z) (pathname pattern : string)
  (flags : Z) :
  (exists r, __match_pathname n pathname pattern flags = r
             /\ (r = SEARCH_MATCH_FAILURE \/ r = SEARCH_MATCH_PARTIAL
                 \/ r = SEARCH_MATCH_SUCCESS \/ r = SEARCH_MATCH_OVERFLOW))
  /\ (MATCH_DEPTH <= n ->
      __match_pathname n pathname pattern flags = SEARCH_MATCH_OVERFLOW)
  /\ __match_pathname 0 pathname "********************" flags
     = SEARCH_MATCH_OVERFLOW
  /\ match_pathname pathname "********************" flags
     = SEARCH_MATCH_OVERFLOW.
Proof.
  split; [|split; [|split]].
  - exists (__match_pathname n pathname pattern flags). split; [reflexivity|].
    destruct (__match_pathname n pathname pattern flags); tauto.
  - apply match_pathname_at_bound.
  - apply (stars_overflow 20 0 pathname EmptyString flags).
    unfold MATCH_DEPTH. lia.
  - unfold match_pathname, boundaries, alternatives.
    cbn [match_boundaries match_alternatives peek].
    change (("*" =? "/")%char) with false. cbv iota.
    change "********************" with (stars 20 ++ "").
    rewrite (stars_overflow 20 0 (advance pathname) EmptyString flags)
      by (unfold MATCH_DEPTH; lia).
    reflexivity.
Qed.

Lemma star_loop_never (attempt : string -> search_matched)
  (r : search_matched) :
  r <> SEARCH_MATCH_FAILURE ->
  (forall p, attempt p <> r) -> forall p, star_loop attempt p <> r.
Proof.
  intros Hr H p. induction p as [|d p IH]; rewrite star_loop_unfold.
  - destruct (is_failure (attempt EmptyString)); simpl; [congruence|apply H].
  - destruct (is_failure (attempt (String d p))); simpl; [|apply H].
    destruct (is_filename d); [exact IH|congruence].
Qed.

(** Once a bracket stands in the first alternative, no run of the loop
    ends in success: the loop cannot get past the bracket. *)
Lemma match_loop_bracket (pattern : string) :
  bracket_before_bar pattern = true ->
  forall (n : Z) (pathname : string) (flags : Z),
    match_loop n pathname pattern flags <> SEARCH_MATCH_SUCCESS.
Proof.
  induction pattern as [|c pattern IH]; intros Hb n pathname flags;
    simpl in Hb; [discriminate|].
  cbn [match_loop].
  destruct (c =? NUL)%char; [discriminate|].
  destruct (c =? "*")%char eqn:Estar.
  { apply Ascii.eqb_eq in Estar; subst c. simpl in Hb.
    apply star_loop_never; [discriminate|].
    intro p. destruct (n + 1 >=? MATCH_DEPTH); [discriminate|].
    apply IH; exact Hb. }
  destruct (c =? "?")%char eqn:Eq.
  { apply Ascii.eqb_eq in Eq; subst c. simpl in Hb.
    destruct (is_filename (peek pathname)); [|apply IH; exact Hb].
    destruct (n + 1 >=? MATCH_DEPTH); simpl; [discriminate|].
    destruct (is_failure (match_loop (n + 1) (advance pathname) pattern flags));
      simpl; apply IH; exact Hb. }
  destruct (c =? "[")%char; [discriminate|].
  destruct (c =? "|")%char; [discriminate|].
  simpl.
  destruct ((c =? "/")%char && (peek pathname =? NUL)%char); [discriminate|].
  destruct (peek pathname =? c)%char; [|discriminate].
  apply IH; exact Hb.
Qed.

Lemma match_pathname_rec_bracket (pattern : string) (n : Z)
  (pathname : string) (flags : Z) :
  bracket_before_bar pattern = true ->
  __match_pathname n pathname pattern flags <> SEARCH_MATCH_SUCCESS.
Proof.
  intro Hb. unfold __match_pathname.
  destruct (n >=? MATCH_DEPTH); [discriminate|].
  apply match_loop_bracket; exact Hb.
Qed.

Lemma match_alternatives_bracket (patts : list string) (path : string)
  (flags : Z) :
  forallb bracket_before_bar patts = true ->
  match_alternatives path patts flags <> Some SEARCH_MATCH_SUCCESS.
Proof.
  induction patts as [|patt patts IH]; intro H; simpl in *; [discriminate|].
  apply andb_prop in H. destruct H as [H1 H2].
  match goal with |- (if negb (is_failure ?s) then _ else _) <> _ =>
    assert (Hs : s <> SEARCH_MATCH_SUCCESS)
      by (destruct (peek patt =? "/")%char;
          apply match_pathname_rec_bracket; exact H1);
    destruct (is_failure s) end; simpl.
  - apply IH; exact H2.
  - congruence.
Qed.

Lemma match_boundaries_bracket (paths patts : list string) (flags : Z) :
  forallb bracket_before_bar patts = true ->
  match_boundaries paths patts flags <> Some SEARCH_MATCH_SUCCESS.
Proof.
  intro H. induction paths as [|path paths IH]; simpl; [discriminate|].
  destruct (match_alternatives path patts flags) eqn:E; [|exact IH].
  rewrite <- E. apply match_alternatives_bracket; exact H.
Qed.

(** C8, as amended: the segment matcher returns failure as soon as its
    scan reaches a bracket, so it never reports success for a pattern
    whose first alternative holds a bracket, and the path matcher never
    reports success for a pattern each of whose alternatives holds one. *)
Theorem bracket_alternatives_never_succeed (pathname pattern : string)
  (flags : Z) :
  (forall n p rest,
      n < MATCH_DEPTH ->
      __match_pathname n p (String "[" rest) flags = SEARCH_MATCH_FAILURE)
  /\ (forall n,
      bracket_before_bar pattern = true ->
      __match_pathname n pathname pattern flags <> SEARCH_MATCH_SUCCESS)
  /\ (forallb bracket_before_bar (alternatives pattern) = true ->
      match_pathname pathname pattern flags <> SEARCH_MATCH_SUCCESS).
Proof.
  split; [|split].
  - intros n p rest Hn. unfold __match_pathname.
    destruct (n >=? MATCH_DEPTH) eqn:E; [|reflexivity].
    apply Z.geb_le in E. lia.
  - intros n Hb. apply match_pathname_rec_bracket; exact Hb.
  - intros Hb Hs. unfold match_pathname in Hs.
    destruct (match_boundaries (boundaries pathname) (alternatives pattern) flags)
      eqn:E; [|discriminate].
    subst. revert E. apply match_boundaries_bracket; exact Hb.
Qed.

Lemma bracket_alternatives_never_succeed_witness :
  __match_pathname 0 "x" (String "[" "x]") 0 = SEARCH_MATCH_FAILURE
  /\ __match_pathname 0 "ab" "a[b]" 0 <> SEARCH_MATCH_SUCCESS
  /\ match_pathname "/ab" "a[b]|*[" 0 <> SEARCH_MATCH_SUCCESS.
Proof.
  destruct (bracket_alternatives_never_succeed "ab" "a[b]" 0) as [H1 [H2 _]].
  destruct (bracket_alternatives_never_succeed "/ab" "a[b]|*[" 0) as [_ [_ H3]].
  split; [|split].
  - apply H1. unfold MATCH_DEPTH. lia.
  - apply H2. reflexivity.
  - apply H3. reflexivity.
Defined.

(** * Properties of the walker and of the system call *)

Lemma search_directory_unfold (K : kernel) (ds : dir_search) (w : world)
  (n : Z) :
  n < TREE_DEPTH ->
  search_directory K ds w n
  = search_directory_at K (fun d v => search_directory K d v (n + 1)) ds w.
Proof.
  intro H. unfold search_directory.
  replace (Z.to_nat (TREE_DEPTH - n))
    with (S (Z.to_nat (TREE_DEPTH - (n + 1)))) by lia.
  reflexivity.
Qed.

(** At the depth limit the walker returns 0 and does nothing: no
    directory is opened and the state of the search is unchanged. *)
Lemma search_directory_at_limit (K : kernel) (ds : dir_search) (w : world)
  (n : Z) :
  TREE_DEPTH <= n -> search_directory K ds w n = (0, ds, w).
Proof.
  intro H. unfold search_directory.
  replace (Z.to_nat (TREE_DEPTH - n)) with O by lia.
  reflexivity.
Qed.

Lemma search_directory_at_limit_witness :
  search_directory (sample_kernel "/r" "*" two_files [])
    (mk_dir_search 0 0 "*" 0 1000 1000 100 1 1 0 "/r") blank 16
  = (0, mk_dir_search 0 0 "*" 0 1000 1000 100 1 1 0 "/r", blank).
Proof.
  apply (search_directory_at_limit (sample_kernel "/r" "*" two_files [])
           (mk_dir_search 0 0 "*" 0 1000 1000 100 1 1 0 "/r") blank 16).
  unfold TREE_DEPTH. lia.
Defined.

(** ** Fatal events end the call with their status *)

Lemma fatal_nonzero (ev : event) (c : Z) : fatal ev = Some c -> c <> 0.
Proof.
  destruct ev; simpl; try discriminate.
  - destruct (recoverable (PTR_ERR errno)); [discriminate|].
    intro H; inversion H. unfold PTR_ERR. lia.
  - intro H; inversion H. unfold ERANGE. lia.
Qed.

Lemma quiet_nil : quiet [].
Proof. intros ev []. Qed.

Lemma quiet_app (l1 l2 : list event) : quiet l1 -> quiet l2 -> quiet (l1 ++ l2).
Proof.
  intros H1 H2 ev Hin. apply in_app_or in Hin. destruct Hin; auto.
Qed.

Lemma quiet_blames (l : list event) (st : Z) : quiet l -> blames l st.
Proof. intros H ev c Hin Hf. rewrite (H ev Hin) in Hf. discriminate. Qed.

Lemma blames_zero (l : list event) : blames l 0 -> quiet l.
Proof.
  intros H ev Hin. destruct (fatal ev) as [c|] eqn:E; [|reflexivity].
  exfalso. apply (fatal_nonzero ev c E). symmetry. exact (H ev c Hin E).
Qed.

Lemma blames_app (l1 l2 : list event) (st : Z) :
  quiet l1 -> blames l2 st -> blames (l1 ++ l2) st.
Proof.
  intros H1 H2 ev c Hin Hf. apply in_app_or in Hin. destruct Hin as [Hin|Hin].
  - rewrite (H1 ev Hin) in Hf. discriminate.
  - exact (H2 ev c Hin Hf).
Qed.

Lemma quiet_one (ev : event) : fatal ev = None -> quiet [ev].
Proof. intros H e [<-|[]]. exact H. Qed.

Lemma trace_step (w w1 w2 : world) (l1 l2 : list event) :
  trace w1 = (trace w ++ l1)%list -> trace w2 = (trace w1 ++ l2)%list ->
  trace w2 = (trace w ++ (l1 ++ l2))%list.
Proof. intros H1 H2. rewrite H2, H1, app_assoc. reflexivity. Qed.

(** Case analysis on the condition of the first conditional of the goal *)
Ltac case_if :=
  match goal with
  | |- context [if ?b then _ else _] => destruct b eqn:?
  end.

Create HintDb walk.
#[local] Hint Resolve quiet_nil quiet_app quiet_blames blames_app quiet_one
  : walk.

Lemma copy_search_result_fatal (K : kernel) (ds : dir_search) (w : world)
  (p : string) (stat : kstat) (r : Z) (ds' : dir_search) (w' : world) :
  copy_search_result K ds w p stat = (r, ds', w') ->
  exists l, trace w' = (trace w ++ l)%list /\ blames l r
            /\ (r = 0 -> quiet l).
Proof.
  unfold copy_search_result.
  destruct (strlen (encode K (flags ds) p stat) + 2 <=? len ds).
  - destruct (copy_to_user K (umem w) (next ds) _) as [uncopied m].
    destruct (uncopied =? 0); simpl; intros [= <- <- <-].
    + exists [Emitted (encode K (flags ds) p stat)]. simpl.
      repeat split; auto with walk.
    + exists []. simpl. rewrite app_nil_r. repeat split; auto with walk.
  - intros [= <- <- <-].
    exists [Rejected (encode K (flags ds) p stat)]. simpl. repeat split.
    + intros ev c [<-|[]] Hf. simpl in Hf. inversion Hf. reflexivity.
    + unfold ERANGE. lia.
Qed.

Lemma report_entry_fatal (K : kernel) (f : file) (entry : string)
  (ds : dir_search) (w : world) (c : ctl) (ds' : dir_search) (w' : world) :
  report_entry K f entry ds w = (c, ds', w') ->
  exists l, trace w' = (trace w ++ l)%list
            /\ (c = Next -> quiet l)
            /\ (c = GotoExit -> blames l (status ds')).
Proof.
  unfold report_entry.
  set (ds1 := set_status ds (vfs_path_lookup (f_path f) entry)).
  destruct (negb (status ds1 =? 0)).
  { intros [= <- <- <-]. exists []. rewrite app_nil_r.
    repeat split; auto with walk; discriminate. }
  destruct (if flag_set (flags ds1) SEARCH_METADATA
            then (set_status ds1 (fst (vfs_getattr (f_path f) entry)),
                  snd (vfs_getattr (f_path f) entry))
            else (ds1, kstat_zero)) as [ds2 stat].
  destruct (negb (status ds2 =? 0)).
  { intros [= <- <- <-]. exists []. rewrite app_nil_r.
    repeat split; auto with walk; discriminate. }
  destruct (if flag_set (flags ds2) SEARCH_INCLUDEROOT
            then copy_search_result K ds2 w (path ds2) stat
            else copy_search_result K ds2 w entry stat)
    as [[r ds3] w3] eqn:E.
  assert (Hc : exists l, trace w3 = (trace w ++ l)%list /\ blames l r
                         /\ (r = 0 -> quiet l)).
  { destruct (flag_set (flags ds2) SEARCH_INCLUDEROOT);
      eapply copy_search_result_fatal; exact E. }
  destruct Hc as [l [Ht [Hb Hq]]].
  cbn [status set_status].
  destruct (r =? 0) eqn:Er; simpl.
  - apply Z.eqb_eq in Er. specialize (Hq Er).
    destruct (flag_set _ SEARCH_STOPATFIRST); intros [= <- <- <-];
      exists l; repeat split; auto with walk.
  - intros [= <- <- <-]. exists l. repeat split; auto; discriminate.
Qed.

Lemma scan_entry_fatal (K : kernel)
  (self : dir_search -> world -> Z * dir_search * world)
  (f : file) (dir : Z) (de : ascii * string)
  (ds : dir_search) (w : world) (c : ctl) (ds' : dir_search) (w' : world) :
  reports_fatal self ->
  scan_entry K self f dir de ds w = (c, ds', w') ->
  exists l, trace w' = (trace w ++ l)%list
            /\ (c = Next -> quiet l)
            /\ (c = GotoExit -> blames l (status ds')).
Proof.
  intros Hself. unfold scan_entry. destruct de as [type entry].
  set (ds1 := set_path ds (path ds ++ "/" ++ entry)).
  set (how := match_pathname (offset (path ds1) (base ds1)) (pattern ds1)
                (flags ds1)).
  destruct (match how with
            | SEARCH_MATCH_SUCCESS => report_entry K f entry ds1 w
            | _ => (Next, ds1, w)
            end) as [[c1 ds2] w2] eqn:E1.
  assert (H1 : exists l, trace w2 = (trace w ++ l)%list
                         /\ (c1 = Next -> quiet l)
                         /\ (c1 = GotoExit -> blames l (status ds2))).
  { destruct how; try (injection E1 as <- <- <-; exists [];
      rewrite app_nil_r; repeat split; auto with walk; discriminate).
    eapply report_entry_fatal; exact E1. }
  destruct H1 as [l1 [Ht1 [Hq1 Hb1]]].
  destruct c1.
  2:{ intros [= <- <- <-]. exists l1. auto. }
  specialize (Hq1 eq_refl).
  destruct (descends type entry how ds2).
  2:{ intros [= <- <- <-]. exists l1. repeat split; auto; discriminate. }
  destruct (self ds2 w2) as [[r ds3] w3] eqn:E2.
  destruct (Hself _ _ _ _ _ E2) as [l2 [Ht2 Hb2]].
  pose proof (trace_step _ _ _ _ _ Ht1 Ht2) as Ht.
  cbn [status set_status].
  destruct (r =? 0) eqn:Er; simpl.
  - apply Z.eqb_eq in Er. subst r. apply blames_zero in Hb2.
    case_if; intros [= <- <- <-]; exists (l1 ++ l2)%list;
      repeat split; auto with walk.
  - intros [= <- <- <-]. exists (l1 ++ l2)%list.
    repeat split; auto with walk; discriminate.
Qed.

Lemma scan_entries_fatal (K : kernel)
  (self : dir_search -> world -> Z * dir_search * world)
  (f : file) (dir : Z) (entries : list (ascii * string)) :
  reports_fatal self ->
  forall (ds : dir_search) (w : world) (c : ctl) (ds' : dir_search)
         (w' : world),
    scan_entries K self f dir entries ds w = (c, ds', w') ->
    exists l, trace w' = (trace w ++ l)%list
              /\ (c = Next -> quiet l)
              /\ (c = GotoExit -> blames l (status ds')).
Proof.
  intro Hself. induction entries as [|de entries IH]; intros ds w c ds' w'.
  - intros [= <- <- <-]. exists []. rewrite app_nil_r.
    repeat split; auto with walk; discriminate.
  - cbn [scan_entries].
    destruct (scan_entry K self f dir de ds w) as [[c1 ds1] w1] eqn:E1.
    destruct (scan_entry_fatal _ _ _ _ _ _ _ _ _ _ Hself E1)
      as [l1 [Ht1 [Hq1 Hb1]]].
    destruct c1.
    + intro E2. destruct (IH _ _ _ _ _ E2) as [l2 [Ht2 [Hq2 Hb2]]].
      exists (l1 ++ l2)%list. split; [eapply trace_step; eauto|].
      split; intro; auto with walk.
    + intros [= <- <- <-]. exists l1. auto.
Qed.

Lemma readdir_loop_fatal (K : kernel)
  (self : dir_search -> world -> Z * dir_search * world)
  (f : file) (calls : list (list (string * Z) * Z)) :
  reports_fatal self ->
  forall (ds : dir_search) (w : world) (ds' : dir_search) (w' : world),
    readdir_loop K self f calls ds w = (ds', w') ->
    exists l, trace w' = (trace w ++ l)%list /\ blames l (status ds').
Proof.
  intro Hself. induction calls as [|[offered r] calls IH]; intros ds w ds' w'.
  - intros [= <- <-]. exists []. rewrite app_nil_r. auto with walk.
  - cbn [readdir_loop].
    destruct (negb (status (set_status ds r) =? 0)).
    { intros [= <- <-]. exists []. rewrite app_nil_r. auto with walk. }
    destruct (fst (vfs_readdir offered ([], 0))) as [|de entries].
    { intros [= <- <-]. exists []. rewrite app_nil_r. auto with walk. }
    destruct (scan_entries K self f _ (de :: entries) (set_status ds r) w)
      as [[c1 ds1] w1] eqn:E1.
    destruct (scan_entries_fatal _ _ _ _ _ Hself _ _ _ _ _ E1)
      as [l1 [Ht1 [Hq1 Hb1]]].
    destruct c1.
    + intro E2. destruct (IH _ _ _ _ E2) as [l2 [Ht2 Hb2]].
      exists (l1 ++ l2)%list. split; [eapply trace_step; eauto|].
      auto with walk.
    + intros [= <- <-]. exists l1. auto.
Qed.

Lemma search_opened_fatal (K : kernel)
  (self : dir_search -> world -> Z * dir_search * world)
  (f : file) (ds : dir_search) (w : world) (lbl : label)
  (ds' : dir_search) (w' : world) :
  reports_fatal self ->
  search_opened K self f ds w = (lbl, ds', w') ->
  exists l, trace w' = (trace w ++ l)%list /\ blames l (status ds').
Proof.
  intro Hself. unfold search_opened.
  destruct (f_abspath f) as [s|e].
  2:{ intros [= <- <- <-]. exists []. rewrite app_nil_r. auto with walk. }
  set (ds1 := if base (set_status (set_path ds s) 0) =? 0 then _ else _).
  destruct (f_search f) as [search|].
  - destruct (search _ _ _ _ _ _ _) as [driver_code m].
    destruct (driver_code <? 0); intros [= <- <- <-];
      exists []; rewrite app_nil_r; simpl; auto with walk.
  - destruct (readdir_loop K self f (f_readdir f) ds1 w) as [ds2 w2] eqn:E.
    intros [= <- <- <-]. eapply readdir_loop_fatal; eauto.
Qed.

Lemma search_directory_at_fatal (K : kernel)
  (self : dir_search -> world -> Z * dir_search * world) :
  reports_fatal self -> reports_fatal (search_directory_at K self).
Proof.
  intros Hself ds w st ds' w'. unfold search_directory_at.
  destruct (filp_open K (path (set_status ds 0))) as [f|e] eqn:Eo.
  - destruct (search_opened K self f _ _) as [[lbl ds1] w1] eqn:E.
    destruct (search_opened_fatal _ _ _ _ _ _ _ _ Hself E) as [l [Ht Hb]].
    simpl in Ht.
    destruct lbl; intros [= <- <- <-].
    + exists ((Opened (path (set_status ds 0)) (List.length (trace w)) :: l)
              ++ [Closed (List.length (trace w))])%list.
      split; [simpl; rewrite Ht, <- !app_assoc; reflexivity|].
      intros ev c Hin Hf. apply in_app_or in Hin.
      destruct Hin as [[<-|Hin]|[<-|[]]]; try discriminate.
      exact (Hb ev c Hin Hf).
    + exists (Opened (path (set_status ds 0)) (List.length (trace w)) :: l).
      split; [rewrite Ht, <- app_assoc; reflexivity|].
      intros ev c [<-|Hin] Hf; [discriminate|].
      exact (Hb ev c Hin Hf).
  - cbn [status set_status].
    destruct (recoverable (PTR_ERR e)) eqn:Er; intros [= <- <- <-];
      eexists; (split; [simpl; reflexivity|]).
    + apply quiet_blames, quiet_one. simpl. rewrite Er. reflexivity.
    + intros ev c [<-|[]] Hf. simpl in Hf. rewrite Er in Hf.
      inversion Hf. reflexivity.
Qed.

Lemma search_directory_rem_fatal (K : kernel) (rem : nat) :
  reports_fatal (search_directory_rem K rem).
Proof.
  induction rem as [|rem IH].
  - intros ds w st ds' w' [= <- <- <-]. exists []. rewrite app_nil_r.
    auto with walk.
  - apply search_directory_at_fatal. exact IH.
Qed.

Lemma search_directory_fatal (K : kernel) (n : Z) :
  reports_fatal (fun ds w => search_directory K ds w n).
Proof. apply search_directory_rem_fatal. Qed.

Lemma search_literal_fatal (K : kernel) (ds : dir_search) (w : world)
  (t : turn) (ds' : dir_search) (w' : world) :
  search_literal K ds w = (t, ds', w') ->
  exists l, trace w' = (trace w ++ l)%list /\ turn_blames t l.
Proof.
  unfold search_literal.
  destruct (kern_path K (path ds)) as [st p0].
  case_if; [intros [= <- <- <-]; exists []; rewrite app_nil_r;
            simpl; auto with walk|].
  case_if; [intros [= <- <- <-]; exists []; rewrite app_nil_r;
            simpl; auto with walk|].
  set (ds1 := set_path _ _).
  case_if; [intros [= <- <- <-]; exists []; rewrite app_nil_r;
            simpl; auto with walk|].
  case_if; [intros [= <- <- <-]; exists []; rewrite app_nil_r;
            simpl; auto with walk|].
  destruct (if flag_set (flags ds1) SEARCH_METADATA then _ else _)
    as [st1 stat].
  case_if; [intros [= <- <- <-]; exists []; rewrite app_nil_r;
            simpl; auto with walk|].
  destruct (if flag_set (flags ds1) SEARCH_INCLUDEROOT
            then copy_search_result K ds1 w (path ds1) stat
            else copy_search_result K ds1 w (offset (path ds1) (base ds1)) stat)
    as [[r ds2] w2] eqn:E.
  assert (Hc : exists l, trace w2 = (trace w ++ l)%list /\ blames l r
                         /\ (r = 0 -> quiet l)).
  { destruct (flag_set (flags ds1) SEARCH_INCLUDEROOT);
      eapply copy_search_result_fatal; exact E. }
  destruct Hc as [l [Ht [Hb Hq]]].
  destruct (r =? 0) eqn:Er; simpl.
  - apply Z.eqb_eq in Er. specialize (Hq Er).
    case_if; intros [= <- <- <-]; exists l; auto.
  - intros [= <- <- <-]. exists l. auto.
Qed.

Lemma search_root_fatal (K : kernel) (c : string) (ds : dir_search)
  (w : world) (t : turn) (ds' : dir_search) (w' : world) :
  search_root K c ds w = (t, ds', w') ->
  exists l, trace w' = (trace w ++ l)%list /\ turn_blames t l.
Proof.
  unfold search_root.
  case_if; [|apply search_literal_fatal].
  destruct (search_directory K _ w 0) as [[st ds1] w1] eqn:E.
  destruct (search_directory_fatal K 0 _ _ _ _ _ E) as [l [Ht Hb]].
  destruct (st =? 0) eqn:Es; simpl.
  - apply Z.eqb_eq in Es. subst st. apply blames_zero in Hb.
    case_if; intros [= <- <- <-]; exists l; auto.
  - intros [= <- <- <-]. exists l. auto.
Qed.

Lemma search_roots_fatal (K : kernel) (roots : list string) :
  forall (ds : dir_search) (w : world) (o : option Z) (ds' : dir_search)
         (w' : world),
    search_roots K roots ds w = (o, ds', w') ->
    exists l, trace w' = (trace w ++ l)%list
              /\ match o with
                 | Some st => blames l st
                 | None => quiet l
                 end.
Proof.
  induction roots as [|c roots IH]; intros ds w o ds' w'.
  - intros [= <- <- <-]. exists []. rewrite app_nil_r. auto with walk.
  - cbn [search_roots].
    destruct (search_root K c ds w) as [[t ds1] w1] eqn:E1.
    destruct (search_root_fatal _ _ _ _ _ _ _ E1) as [l1 [Ht1 Hb1]].
    destruct t; simpl in Hb1.
    + intro E2. destruct (IH _ _ _ _ _ E2) as [l2 [Ht2 Hb2]].
      exists (l1 ++ l2)%list. split; [eapply trace_step; eauto|].
      destruct o; auto with walk.
    + intros [= <- <- <-]. exists l1. auto.
    + intros [= <- <- <-]. exists l1. auto.
Qed.

(** The value returned by the system call is the status of any fatal
    event of its run. *)
Lemma sys_search_fatal (K : kernel) (w : world) (u_paths u_pattern : Z)
  (fl b ln : Z) (r : Z) (w' : world) :
  sys_search K w u_paths u_pattern fl b ln = (r, w') ->
  exists l, trace w' = (trace w ++ l)%list /\ blames l r.
Proof.
  unfold sys_search.
  case_if; [intros [= <- <-]; exists []; rewrite app_nil_r; auto with walk|].
  case_if; [intros [= <- <-]; exists []; rewrite app_nil_r; auto with walk|].
  destruct (getname K u_paths) as [ds_paths|e];
    [|intros [= <- <-]; exists []; rewrite app_nil_r; auto with walk].
  destruct (getname K u_pattern) as [ds_pattern|e];
    [|intros [= <- <-]; exists []; rewrite app_nil_r; auto with walk].
  case_if; [intros [= <- <-]; exists []; rewrite app_nil_r; auto with walk|].
  destruct (search_roots K _ _ w) as [[o ds1] w1] eqn:E.
  destruct (search_roots_fatal _ _ _ _ _ _ _ E) as [l [Ht Hb]].
  destruct o as [st|].
  - intros [= <- <-]. exists l. auto.
  - case_if.
    + destruct (copy_to_user K (umem w1) (next ds1 - 1) [NUL; NUL])
        as [st m].
      case_if; intros [= <- <-]; exists l; auto with walk.
    + intros [= <- <-]. exists l. auto with walk.
Qed.

(** ** The encoder and a record that does not fit *)

Lemma copy_search_result_no_room (K : kernel) (ds : dir_search) (w : world)
  (p : string) (stat : kstat) :
  len ds < strlen (encode K (flags ds) p stat) + 2 ->
  copy_search_result K ds w p stat
  = (- ERANGE, ds, record_event w (Rejected (encode K (flags ds) p stat))).
Proof.
  intro H. unfold copy_search_result.
  destruct (strlen (encode K (flags ds) p stat) + 2 <=? len ds) eqn:E;
    [apply Z.leb_le in E; lia|reflexivity].
Qed.

(** C3: a record that does not fit with its two terminators leaves user
    memory, the cursor and the capacity as they were and makes the
    encoder return -ERANGE; and in every run of the system call in which
    a record was refused in this way, that value, which is negative, is
    what the call returns in place of a count. *)
Theorem record_without_room_is_fatal (K : kernel) (ds : dir_search)
  (w : world) (p : string) (stat : kstat)
  (Hroom : len ds < strlen (encode K (flags ds) p stat) + 2) :
  (exists w',
      copy_search_result K ds w p stat = (- ERANGE, ds, w')
      /\ umem w' = umem w
      /\ trace w' = (trace w ++ [Rejected (encode K (flags ds) p stat)])%list)
  /\ (forall w0 u_paths u_pattern fl b ln r w1,
        sys_search K w0 u_paths u_pattern fl b ln = (r, w1) ->
        exists l, trace w1 = (trace w0 ++ l)%list
                  /\ forall rec, In (Rejected rec) l ->
                                 r = - ERANGE /\ r < 0).
Proof.
  split.
  - eexists. split; [apply copy_search_result_no_room; exact Hroom|].
    split; reflexivity.
  - intros w0 u_paths u_pattern fl b ln r w1 E.
    destruct (sys_search_fatal _ _ _ _ _ _ _ _ _ E) as [l [Ht Hb]].
    exists l. split; [exact Ht|].
    intros rec Hin. rewrite (Hb _ _ Hin eq_refl). unfold ERANGE. lia.
Qed.

Lemma record_without_room_is_fatal_witness :
  let K := sample_kernel "/r" "*" two_files [] in
  let ds := mk_dir_search 0 0 "*" 0 1000 1000 6 1 1 2 "/r/a" in
  (exists w',
      copy_search_result K ds blank "a" kstat_zero = (- ERANGE, ds, w')
      /\ umem w' = umem blank
      /\ trace w' = (trace blank ++ [Rejected (encode K 0 "a" kstat_zero)])%list)
  /\ (forall w0 u_paths u_pattern fl b ln r w1,
        sys_search K w0 u_paths u_pattern fl b ln = (r, w1) ->
        exists l, trace w1 = (trace w0 ++ l)%list
                  /\ forall rec, In (Rejected rec) l ->
                                 r = - ERANGE /\ r < 0).
Proof.
  apply (record_without_room_is_fatal
           (sample_kernel "/r" "*" two_files [])
           (mk_dir_search 0 0 "*" 0 1000 1000 6 1 1 2 "/r/a")
           blank "a" kstat_zero).
  vm_compute. reflexivity.
Defined.

(** The same on a run: with room for six bytes the first record of
    /r, seven bytes with its terminators, is refused, nothing is
    written, and the call returns -ERANGE. *)
Example no_room_run :
  let '(r, w') :=
    sys_search (sample_kernel "/r" "*" two_files []) blank 0 1 0 1000 6 in
  r = - ERANGE
  /\ trace w' = [Opened "/r" 0; Rejected "0|a||"; Closed 0]
  /\ read_mem (umem w') 1000 7 = read_mem (umem blank) 1000 7.
Proof. vm_compute. repeat split; reflexivity. Qed.

(** ** Failure to open a directory *)





(** ** A root that cannot be opened *)





(** A run with two roots of which the first does not exist: the second
    is searched and its two files are counted. *)
Example missing_root_run :
  let '(r, w') :=
    sys_search (sample_kernel "/gone|/r" "*" two_files []) blank 0 1 0 1000 100
  in r = 2
     /\ trace w' = [OpenFailed "/gone" 2%positive; Opened "/r" 1;
                    Emitted "0|a||"; Emitted "0|b||"; Closed 1].
Proof. vm_compute. split; reflexivity. Qed.

(** ** When the walker goes down into an entry *)

Lemma descends_iff (type : ascii) (entry : string) (how : search_matched)
  (ds : dir_search) :
  descends type entry how ds = true
  <-> type = "d"%char /\ entry <> "." /\ entry <> ".."
      /\ (how = SEARCH_MATCH_PARTIAL \/ ds_isrecursive ds <> 0).
Proof.
  unfold descends.
  rewrite !andb_true_iff, orb_true_iff, !negb_true_iff.
  rewrite Ascii.eqb_eq, !String.eqb_neq, Z.eqb_neq.
  assert (Hp : search_matched_eqb how SEARCH_MATCH_PARTIAL = true
               <-> how = SEARCH_MATCH_PARTIAL)
    by (destruct how; simpl; split; congruence).
  rewrite Hp. tauto.
Qed.

(** C4, as amended: for an entry whose report block did not end the
    walk, the walker calls itself, one level down and on the path of the
    entry, exactly when the entry is a directory other than the two dot
    entries and either its outcome is partial or the search is
    unanchored; when that test fails the walker is not called at all.
    The outcome need not be success or partial: under an unanchored
    pattern a directory whose outcome is failure is entered, under an
    anchored pattern only a partial one is. *)
Theorem descent_condition (K : kernel)
  (self : dir_search -> world -> Z * dir_search * world)
  (f : file) (dir : Z) (type : ascii) (entry : string)
  (ds : dir_search) (w : world) (n : Z) :
  let ds1 := set_path ds (path ds ++ "/" ++ entry) in
  let how :=
    match_pathname (offset (path ds1) (base ds1)) (pattern ds1) (flags ds1) in
  let reported :=
    match how with
    | SEARCH_MATCH_SUCCESS => report_entry K f entry ds1 w
    | _ => (Next, ds1, w)
    end in
  (forall d, descends type entry how d = true
             <-> type = "d"%char /\ entry <> "." /\ entry <> ".."
                 /\ (how = SEARCH_MATCH_PARTIAL \/ ds_isrecursive d <> 0))
  /\ (forall ds2 w2,
        reported = (Next, ds2, w2) ->
        descends type entry how ds2 = true ->
        scan_entry K self f dir (type, entry) ds w
        = let '(r, ds3, w3) := self ds2 w2 in
          if negb (r =? 0) then (GotoExit, set_status ds3 r, w3)
          else if (results ds3 >? 0) && flag_set (flags ds3) SEARCH_STOPATFIRST
          then (GotoExit, set_status ds3 r, w3)
          else (Next,
                set_path (set_status ds3 r) (terminate_at (path ds3) dir),
                w3))
  /\ (forall ds2 w2,
        reported = (Next, ds2, w2) ->
        descends type entry how ds2 = false ->
        scan_entry K self f dir (type, entry) ds w
        = (Next, set_path ds2 (terminate_at (path ds2) dir), w2))
  /\ (forall ds2 w2,
        reported = (GotoExit, ds2, w2) ->
        scan_entry K self f dir (type, entry) ds w = (GotoExit, ds2, w2))
  /\ (n < TREE_DEPTH ->
      search_directory K ds w n
      = search_directory_at K (fun d v => search_directory K d v (n + 1)) ds w)
  /\ (forall d, ds_isrecursive d <> 0 -> type = "d"%char ->
                entry <> "." -> entry <> ".." ->
                descends type entry SEARCH_MATCH_FAILURE d = true)
  /\ (forall d, ds_isrecursive d = 0 ->
                descends type entry SEARCH_MATCH_FAILURE d = false
                /\ descends type entry SEARCH_MATCH_SUCCESS d = false
                /\ descends type entry SEARCH_MATCH_OVERFLOW d = false).
Proof.
  intros ds1 how reported.
  split; [intro d; apply descends_iff|].
  split; [|split; [|split; [|split; [|split]]]].
  - intros ds2 w2 Hrep Hd. unfold scan_entry.
    fold ds1. fold how. fold reported. rewrite Hrep, Hd.
    destruct (self ds2 w2) as [[r ds3] w3].
    cbn [status set_status results flags].
    destruct (negb (r =? 0)); [reflexivity|].
    destruct ((results ds3 >? 0) && flag_set (flags ds3) SEARCH_STOPATFIRST);
      reflexivity.
  - intros ds2 w2 Hrep Hd. unfold scan_entry.
    fold ds1. fold how. fold reported. rewrite Hrep, Hd. reflexivity.
  - intros ds2 w2 Hrep. unfold scan_entry.
    fold ds1. fold how. fold reported. rewrite Hrep. reflexivity.
  - apply search_directory_unfold.
  - intros d Hr Ht H1 H2. apply descends_iff. tauto.
  - intros d Hr. unfold descends. rewrite Hr. simpl.
    rewrite !andb_false_r. auto.
Qed.

(** ** Runs on the sample file systems *)

(** C4: the directory sub does not match the pattern (its outcome is
    failure), yet the walker goes down into it, as the pattern is
    unanchored: it is opened, and the one match of the run is found
    inside it. *)
Lemma failure_entry_is_entered :
  match_pathname "/sub" "*.txt" 0 = SEARCH_MATCH_FAILURE
  /\ isrecursive "*.txt" = 1
  /\ (let '(r, w') :=
        sys_search (sample_kernel "/r" "*.txt" nested_tree []) blank
          0 1 0 1000 100 in
      r = 1
      /\ trace w' = [Opened "/r" 0; Opened "/r/sub" 1; Emitted "0|c.txt||";
                     Closed 1; Closed 0])
  /\ ~ (forall (K : kernel) self f dir type entry ds w,
          match_pathname
            (offset (path ds ++ "/" ++ entry) (base ds)) (pattern ds) (flags ds)
          = SEARCH_MATCH_FAILURE ->
          scan_entry K self f dir (type, entry) ds w
          = (Next, set_path (set_path ds (path ds ++ "/" ++ entry))
                     (terminate_at (path ds ++ "/" ++ entry) dir), w)).
Proof.
  split; [reflexivity|]. split; [reflexivity|]. split.
  - vm_compute. split; reflexivity.
  - intro H.
    specialize (H (sample_kernel "/r" "*.txt" nested_tree [])
                  (fun d v => (7, d, v))
                  (plain_dir "/r" [("sub", DT_DIR)]) 2 "d"%char "sub"
                  (mk_dir_search 0 0 "*.txt" 0 1000 1000 100 1 1 2 "/r") blank
                  eq_refl).
    vm_compute in H. discriminate H.
Qed.

(** C9: what the walker does with the directory it has opened when
    the file system searches natively.  When the hook returns a value
    that is not negative the directory is closed before the walker
    returns; when it returns an error the walker returns that error and
    the directory is left open: the trace of the walk ends with the
    opening. *)
Theorem provider_error_skips_close (K : kernel) (ds : dir_search) (w : world)
  (n : Z) (f : file) (s : string) (search : native_search) (code : Z)
  (m : Z -> ascii)
  (Hn : n < TREE_DEPTH)
  (Hopen : filp_open K (path ds) = PTR_OK f)
  (Habs : f_abspath f = PTR_OK s)
  (Hhook : f_search f = Some search)
  (Hcode : search (f_mountpoint f) (offset s (strlen (f_mountpoint f)))
             (pattern ds) (flags ds) (next ds) (len ds) (umem w) = (code, m)) :
  let '(st, _, w') := search_directory K ds w n in
  let fp := List.length (trace w) in
  st = (if code <? 0 then code else 0)
  /\ trace w'
     = (trace w ++ Opened (path ds) fp
                   :: (if code <? 0 then [] else [Closed fp]))%list
  /\ left_open (Opened (path ds) fp
                :: (if code <? 0 then [] else [Closed fp])) []
     = (if code <? 0 then [fp] else []).
Proof.
  rewrite search_directory_unfold by exact Hn.
  unfold search_directory_at. cbn [path set_status]. rewrite Hopen.
  unfold search_opened. rewrite Habs, Hhook.
  assert (Hp : forall d : dir_search,
             path (if base d =? 0 then set_base d (strlen (path d)) else d)
             = path d) by (intro d; destruct (base d =? 0); reflexivity).
  assert (Hq : forall d : dir_search,
             same_output d
               (if base d =? 0 then set_base d (strlen (path d)) else d))
    by (intro d; destruct (base d =? 0); repeat split; reflexivity).
  assert (Hr : forall d : dir_search,
             pattern (if base d =? 0 then set_base d (strlen (path d)) else d)
             = pattern d) by (intro d; destruct (base d =? 0); reflexivity).
  destruct (Hq (set_status (set_path (set_status ds 0) s) 0))
    as [_ [Q2 [_ [Q4 Q5]]]].
  rewrite Hp, Hr, <- Q2, <- Q4, <- Q5.
  cbn [path pattern flags next len set_status set_path umem record_event].
  rewrite Hcode.
  destruct (code <? 0); cbn [status set_status set_len set_next set_results].
  - repeat split.
  - split; [destruct (base _ =? 0); reflexivity|].
    split; [simpl; rewrite <- app_assoc; reflexivity|].
    simpl.
    destruct (Nat.eq_dec (List.length (trace w)) (List.length (trace w)));
      [reflexivity|contradiction].
Qed.

Lemma provider_error_skips_close_witness :
  let '(st, _, w') :=
    search_directory (sample_kernel "/r" "*" (native_root (-5)) [])
      (mk_dir_search 0 0 "*" 0 1000 1000 100 1 1 0 "/r") blank 0 in
  let fp := List.length (trace blank) in
  st = (if -5 <? 0 then -5 else 0)
  /\ trace w'
     = (trace blank ++ Opened "/r" fp
                       :: (if -5 <? 0 then [] else [Closed fp]))%list
  /\ left_open (Opened "/r" fp :: (if -5 <? 0 then [] else [Closed fp])) []
     = (if -5 <? 0 then [fp] else []).
Proof.
  apply (provider_error_skips_close
           (sample_kernel "/r" "*" (native_root (-5)) [])
           (mk_dir_search 0 0 "*" 0 1000 1000 100 1 1 0 "/r") blank 0
           (native_dir "/r" (-5)) "/r"
           (fun _ _ _ _ _ _ m => (-5, m)) (-5) (umem blank)).
  - unfold TREE_DEPTH. lia.
  - reflexivity.
  - reflexivity.
  - reflexivity.
  - reflexivity.
Defined.

Lemma search_opened_out (K : kernel)
  (self : dir_search -> world -> Z * dir_search * world)
  (f : file) (ds : dir_search) (w : world) (ds' : dir_search) (w' : world) :
  search_opened K self f ds w = (L_out, ds', w') ->
  exists s search,
    f_abspath f = PTR_OK s /\ f_search f = Some search
    /\ fst (search (f_mountpoint f) (offset s (strlen (f_mountpoint f)))
              (pattern ds) (flags ds) (next ds) (len ds) (umem w)) < 0.
Proof.
  unfold search_opened.
  destruct (f_abspath f) as [s|e]; [|discriminate].
  destruct (f_search f) as [search|].
  - intro H. exists s, search. split; [reflexivity|]. split; [reflexivity|].
    assert (Hq : forall d : dir_search,
               let d' := if base d =? 0 then set_base d (strlen (path d))
                         else d in
               path d' = path d /\ pattern d' = pattern d
               /\ flags d' = flags d /\ next d' = next d /\ len d' = len d)
      by (intro d; destruct (base d =? 0); repeat split; reflexivity).
    destruct (Hq (set_status (set_path ds s) 0)) as [Q1 [Q2 [Q3 [Q4 Q5]]]].
    rewrite Q1, Q2, Q3, Q4, Q5 in H.
    cbn [path pattern flags next len set_status set_path] in H.
    destruct (search _ _ _ _ _ _ _) as [code m]. cbn [fst].
    destruct (code <? 0) eqn:E; [apply Z.ltb_lt in E; exact E|discriminate H].
  - destruct (readdir_loop _ _ _ _ _ _); discriminate.
Qed.

(** The directory opened by a call of the walker is closed before the
    call returns, on every path out, unless the file system searches
    natively and its hook returns an error. *)
Lemma directory_closed_unless_provider_error (K : kernel) (ds : dir_search)
  (w : world) (n : Z) (f : file) (st : Z) (ds' : dir_search) (w' : world) :
  n < TREE_DEPTH ->
  filp_open K (path ds) = PTR_OK f ->
  (forall s search,
      f_abspath f = PTR_OK s -> f_search f = Some search ->
      0 <= fst (search (f_mountpoint f) (offset s (strlen (f_mountpoint f)))
                  (pattern ds) (flags ds) (next ds) (len ds) (umem w))) ->
  search_directory K ds w n = (st, ds', w') ->
  exists l,
    trace w'
    = (trace w ++ Opened (path ds) (List.length (trace w))
                  :: l ++ [Closed (List.length (trace w))])%list.
Proof.
  intros Hn Ho Hhook. rewrite search_directory_unfold by exact Hn.
  unfold search_directory_at. cbn [path set_status]. rewrite Ho.
  destruct (search_opened K _ f _ _) as [[lbl ds1] w1] eqn:E.
  destruct (search_opened_fatal _ _ _ _ _ _ _ _
              (search_directory_fatal K (n + 1)) E) as [l [Ht _]].
  destruct lbl; intros [= <- <- <-].
  - exists l. simpl in *. rewrite Ht, <- !app_assoc. reflexivity.
  - exfalso. destruct (search_opened_out _ _ _ _ _ _ _ E)
      as [s [search [Ha [Hs Hc]]]].
    specialize (Hhook s search Ha Hs).
    cbn [pattern flags next len set_status umem record_event] in Hc. lia.
Qed.

Lemma directory_closed_unless_provider_error_witness :
  exists l,
    trace (snd (search_directory (sample_kernel "/r" "*.txt" nested_tree [])
                  (mk_dir_search 0 0 "*.txt" 0 1000 1000 100 1 1 0 "/r")
                  blank 0))
    = (trace blank ++ Opened "/r" 0 :: l ++ [Closed 0%nat])%list.
Proof.
  apply (directory_closed_unless_provider_error
           (sample_kernel "/r" "*.txt" nested_tree [])
           (mk_dir_search 0 0 "*.txt" 0 1000 1000 100 1 1 0 "/r")
           blank 0 (plain_dir "/r" [("sub", DT_DIR)])
           (fst (fst (search_directory
                        (sample_kernel "/r" "*.txt" nested_tree [])
                        (mk_dir_search 0 0 "*.txt" 0 1000 1000 100 1 1 0 "/r")
                        blank 0)))
           (snd (fst (search_directory
                        (sample_kernel "/r" "*.txt" nested_tree [])
                        (mk_dir_search 0 0 "*.txt" 0 1000 1000 100 1 1 0 "/r")
                        blank 0)))).
  - unfold TREE_DEPTH. lia.
  - reflexivity.
  - intros s search _ Hs. discriminate Hs.
  - vm_compute. reflexivity.
Defined.

(** The same on a call: the root is on a file system whose native
    search fails with -5; the call returns -5 and the directory opened
    by the walker is never closed. *)
Example provider_error_run :
  let '(r, w') :=
    sys_search (sample_kernel "/r" "*" (native_root (-5)) []) blank
      0 1 0 1000 100 in
  r = -5 /\ trace w' = [Opened "/r" 0] /\ left_open (trace w') [] = [0%nat].
Proof. vm_compute. repeat split; reflexivity. Qed.

(** C6: with SEARCH_STOPATFIRST set, a root whose file system searches
    natively and returns 2 makes the call return the count 2. *)
Lemma native_count_exceeds_one :
  flag_set 1 SEARCH_STOPATFIRST = true
  /\ fst (sys_search (sample_kernel "/r" "*" (native_root 2) []) blank
            0 1 1 1000 100) = 2.
Proof. vm_compute. split; reflexivity. Qed.

(** C8: the pattern /a[b holds none of the characters that call for a
    tree search, so the name is resolved directly and, when a file of
    that name exists, reported as a match; and the pattern a|[b matches
    the path /a through its first alternative. *)
Lemma bracket_pattern_matches :
  ispattern "/a[b" = 0
  /\ (let '(r, w') :=
        sys_search (sample_kernel "/r" "/a[b" [] [("/r", vpath_any)]) blank
          0 1 0 1000 100 in
      r = 1 /\ trace w' = [Emitted "0|/a[b||"]
      /\ read_mem (umem w') 1000 9
         = (list_ascii_of_string "0|/a[b|" ++ [NUL; NUL])%list)
  /\ match_pathname "/a" "a|[b" 0 = SEARCH_MATCH_SUCCESS.
Proof. vm_compute. repeat split; reflexivity. Qed.


(** * A rule for the walk

    Many properties of a run have the same shape: a condition [Run] that
    holds wherever the search is still going on, and a condition
    [Halt st] that holds wherever it has stopped with status [st].  The
    section derives, from what the single steps do to the two
    conditions, that a walk started under [Run] ends under [Halt] of the
    value it returns, and likewise for the loop over the roots.
    Collaborators are taken to follow the convention on statuses. *)
(** Two states that differ in steering fields only *)
Ltac same := repeat split; reflexivity.

Section WalkRule.

Variable K : kernel.
Variable Run : dir_search -> world -> Prop.
Variable Halt : Z -> dir_search -> world -> Prop.

Hypothesis Hconv : errno_convention K.

Hypothesis Run_same : forall ds ds' w,
  Run ds w -> same_output ds ds' -> Run ds' w.
Hypothesis Halt_same : forall st ds ds' w,
  Halt st ds w -> same_output ds ds' -> Halt st ds' w.
Hypothesis Run_event : forall ds w e,
  Run ds w -> is_emitted e = false -> Run ds (record_event w e).
Hypothesis Halt_closed : forall st ds w h,
  Halt st ds w -> Halt st ds (record_event w (Closed h)).
Hypothesis Run_done : forall ds w, Run ds w -> Halt 0 ds w.
Hypothesis Run_fail : forall ds w st, Run ds w -> st < 0 -> Halt st ds w.
Hypothesis Halt_resume : forall ds w,
  Halt 0 ds w ->
  (results ds >? 0) && flag_set (flags ds) SEARCH_STOPATFIRST = false ->
  Run ds w.
Hypothesis Run_emit : forall ds w p stat r ds1 w1,
  Run ds w -> copy_search_result K ds w p stat = (r, ds1, w1) ->
  if r =? 0
  then if flag_set (flags ds1) SEARCH_STOPATFIRST
       then Halt 0 (set_results ds1 (results ds1 + 1)) w1
       else Run (set_results ds1 (results ds1 + 1)) w1
  else Halt r ds1 w1.
Hypothesis Run_native : forall ds w p f search code m,
  Run ds w -> filp_open K p = PTR_OK f -> f_search f = Some search ->
  search (f_mountpoint f) (offset (path ds) (strlen (f_mountpoint f)))
         (pattern ds) (flags ds) (next ds) (len ds) (umem w) = (code, m) ->
  Halt (if code <? 0 then code else 0) (after_native ds code) (set_umem w m).


Lemma rule_report_entry (f : file) (entry : string) (ds : dir_search)
  (w : world) (c : ctl) (ds' : dir_search) (w' : world) :
  vpath_statuses (f_path f) -> Run ds w ->
  report_entry K f entry ds w = (c, ds', w') ->
  (c = Next -> Run ds' w') /\ (c = GotoExit -> Halt (status ds') ds' w').
Proof.
  intros Hf Hrun. unfold report_entry.
  destruct (Hf entry) as [Hl Hg].
  set (ds1 := set_status ds (vfs_path_lookup (f_path f) entry)).
  assert (Hrun1 : Run ds1 w) by (apply (Run_same ds); [exact Hrun|same]).
  destruct (status ds1 =? 0) eqn:E1; cbn [negb].
  2:{ intros [= <- <- <-]. split; [discriminate|intros _].
      apply Run_fail; [exact Hrun1|].
      apply Z.eqb_neq in E1. simpl in *. lia. }
  destruct (flag_set (flags ds1) SEARCH_METADATA).
  - set (ds2 := set_status ds1 (fst (vfs_getattr (f_path f) entry))).
    assert (Hrun2 : Run ds2 w) by (apply (Run_same ds); [exact Hrun|same]).
    destruct (status ds2 =? 0) eqn:E2; cbn [negb].
    2:{ intros [= <- <- <-]. split; [discriminate|intros _].
        apply Run_fail; [exact Hrun2|].
        apply Z.eqb_neq in E2. simpl in *. lia. }
    destruct (if flag_set (flags ds2) SEARCH_INCLUDEROOT
              then copy_search_result K ds2 w (path ds2)
                     (snd (vfs_getattr (f_path f) entry))
              else copy_search_result K ds2 w entry
                     (snd (vfs_getattr (f_path f) entry)))
      as [[r ds3] w3] eqn:E.
    assert (He : if r =? 0
                 then if flag_set (flags ds3) SEARCH_STOPATFIRST
                      then Halt 0 (set_results ds3 (results ds3 + 1)) w3
                      else Run (set_results ds3 (results ds3 + 1)) w3
                 else Halt r ds3 w3)
      by (destruct (flag_set (flags ds2) SEARCH_INCLUDEROOT);
          eapply Run_emit; eauto).
    cbn [status set_status flags set_results].
    destruct (r =? 0) eqn:Er; cbn [negb].
    + apply Z.eqb_eq in Er. subst r.
      destruct (flag_set (flags ds3) SEARCH_STOPATFIRST);
        intros [= <- <- <-]; (split; intro Hc; try discriminate Hc);
        first [eapply Halt_same; [exact He|same]
              |eapply Run_same; [exact He|same]].
    + intros [= <- <- <-]. split; [discriminate|intros _].
      eapply Halt_same; [exact He|same].
  - destruct (status ds1 =? 0) eqn:E2; [|discriminate]. cbn [negb].
    destruct (if flag_set (flags ds1) SEARCH_INCLUDEROOT
              then copy_search_result K ds1 w (path ds1) kstat_zero
              else copy_search_result K ds1 w entry kstat_zero)
      as [[r ds3] w3] eqn:E.
    assert (He : if r =? 0
                 then if flag_set (flags ds3) SEARCH_STOPATFIRST
                      then Halt 0 (set_results ds3 (results ds3 + 1)) w3
                      else Run (set_results ds3 (results ds3 + 1)) w3
                 else Halt r ds3 w3)
      by (destruct (flag_set (flags ds1) SEARCH_INCLUDEROOT);
          eapply Run_emit; eauto).
    cbn [status set_status flags set_results].
    destruct (r =? 0) eqn:Er; cbn [negb].
    + apply Z.eqb_eq in Er. subst r.
      destruct (flag_set (flags ds3) SEARCH_STOPATFIRST);
        intros [= <- <- <-]; (split; intro Hc; try discriminate Hc);
        first [eapply Halt_same; [exact He|same]
              |eapply Run_same; [exact He|same]].
    + intros [= <- <- <-]. split; [discriminate|intros _].
      eapply Halt_same; [exact He|same].
Qed.

Lemma rule_scan_entry
  (self : dir_search -> world -> Z * dir_search * world)
  (f : file) (dir : Z) (de : ascii * string)
  (ds : dir_search) (w : world) (c : ctl) (ds' : dir_search) (w' : world) :
  walks Run Halt self -> vpath_statuses (f_path f) -> Run ds w ->
  scan_entry K self f dir de ds w = (c, ds', w') ->
  (c = Next -> Run ds' w') /\ (c = GotoExit -> Halt (status ds') ds' w').
Proof.
  intros Hself Hf Hrun. unfold scan_entry. destruct de as [type entry].
  set (ds1 := set_path ds (path ds ++ "/" ++ entry)).
  assert (Hrun1 : Run ds1 w) by (apply (Run_same ds); [exact Hrun|same]).
  set (how := match_pathname (offset (path ds1) (base ds1)) (pattern ds1)
                (flags ds1)).
  destruct (match how with
            | SEARCH_MATCH_SUCCESS => report_entry K f entry ds1 w
            | _ => (Next, ds1, w)
            end) as [[c1 ds2] w2] eqn:E1.
  assert (H1 : (c1 = Next -> Run ds2 w2)
               /\ (c1 = GotoExit -> Halt (status ds2) ds2 w2)).
  { destruct how;
      try (injection E1 as <- <- <-; split; [auto|discriminate]).
    eapply rule_report_entry; eauto. }
  destruct H1 as [Hn1 Hx1].
  destruct c1.
  2:{ intros [= <- <- <-]. split; [discriminate|auto]. }
  specialize (Hn1 eq_refl).
  destruct (descends type entry how ds2).
  2:{ intros [= <- <- <-]. split; [intros _|discriminate].
      apply (Run_same ds2); [exact Hn1|same]. }
  destruct (self ds2 w2) as [[r ds3] w3] eqn:E2.
  pose proof (Hself _ _ _ _ _ Hn1 E2) as Hh.
  cbn [status set_status results flags].
  destruct (r =? 0) eqn:Er; cbn [negb].
  - apply Z.eqb_eq in Er. subst r.
    destruct ((results ds3 >? 0) && flag_set (flags ds3) SEARCH_STOPATFIRST)
      eqn:Es; intros [= <- <- <-]; (split; intro Hc; try discriminate Hc).
    + apply (Halt_same 0 ds3); [exact Hh|same].
    + apply (Run_same ds3); [|same]. apply Halt_resume; assumption.
  - intros [= <- <- <-]. split; [discriminate|intros _].
    apply (Halt_same r ds3); [exact Hh|same].
Qed.

Lemma rule_scan_entries
  (self : dir_search -> world -> Z * dir_search * world)
  (f : file) (dir : Z) (entries : list (ascii * string)) :
  walks Run Halt self -> vpath_statuses (f_path f) ->
  forall (ds : dir_search) (w : world) (c : ctl) (ds' : dir_search)
         (w' : world),
    Run ds w ->
    scan_entries K self f dir entries ds w = (c, ds', w') ->
    (c = Next -> Run ds' w') /\ (c = GotoExit -> Halt (status ds') ds' w').
Proof.
  intros Hself Hf.
  induction entries as [|de entries IH]; intros ds w c ds' w' Hrun.
  - intros [= <- <- <-]. split; [auto|discriminate].
  - cbn [scan_entries].
    destruct (scan_entry K self f dir de ds w) as [[c1 ds1] w1] eqn:E1.
    destruct (rule_scan_entry _ _ _ _ _ _ _ _ _ Hself Hf Hrun E1)
      as [Hn1 Hx1].
    destruct c1.
    + apply IH. auto.
    + intros [= <- <- <-]. split; [discriminate|auto].
Qed.

Lemma rule_readdir_loop
  (self : dir_search -> world -> Z * dir_search * world)
  (f : file) (calls : list (list (string * Z) * Z)) :
  walks Run Halt self -> vpath_statuses (f_path f) ->
  Forall (fun call => snd call <= 0) calls ->
  forall (ds : dir_search) (w : world) (ds' : dir_search) (w' : world),
    Run ds w ->
    readdir_loop K self f calls ds w = (ds', w') ->
    Halt (status ds') ds' w'.
Proof.
  intros Hself Hf Hcalls.
  induction calls as [|[offered r] calls IH]; intros ds w ds' w' Hrun.
  - intros [= <- <-]. apply (Halt_same 0 ds); [auto|same].
  - inversion Hcalls as [|? ? Hr Hcalls']; subst. simpl in Hr.
    cbn [readdir_loop].
    assert (Hrun1 : Run (set_status ds r) w)
      by (apply (Run_same ds); [exact Hrun|same]).
    cbn [status set_status].
    destruct (r =? 0) eqn:Er; cbn [negb].
    2:{ intros [= <- <-]. apply Z.eqb_neq in Er.
        apply Run_fail; [exact Hrun1|simpl; lia]. }
    apply Z.eqb_eq in Er. subst r.
    destruct (fst (vfs_readdir offered ([], 0))) as [|de entries].
    { intros [= <- <-]. apply Run_done. exact Hrun1. }
    destruct (scan_entries K self f _ (de :: entries) (set_status ds 0) w)
      as [[c1 ds1] w1] eqn:E1.
    destruct (rule_scan_entries _ _ _ _ Hself Hf _ _ _ _ _ Hrun1 E1)
      as [Hn1 Hx1].
    destruct c1.
    + apply IH; auto.
    + intros [= <- <-]. auto.
Qed.

Lemma rule_search_opened
  (self : dir_search -> world -> Z * dir_search * world)
  (p : string) (f : file) (ds : dir_search) (w : world) (lbl : label)
  (ds' : dir_search) (w' : world) :
  walks Run Halt self -> filp_open K p = PTR_OK f -> Run ds w ->
  search_opened K self f ds w = (lbl, ds', w') ->
  Halt (status ds') ds' w'.
Proof.
  intros Hself Ho Hrun. unfold search_opened.
  destruct Hconv as [_ Hfiles]. destruct (Hfiles p f Ho) as [Hf Hcalls].
  destruct (f_abspath f) as [s|e].
  2:{ intros [= <- <- <-]. apply (Halt_same (PTR_ERR e) ds); [|same].
      apply Run_fail; [exact Hrun|unfold PTR_ERR; lia]. }
  set (ds1 := if base (set_status (set_path ds s) 0) =? 0 then _ else _).
  assert (Hs1 : same_output ds ds1)
    by (unfold ds1; destruct (base _ =? 0); same).
  assert (Hrun1 : Run ds1 w) by (apply (Run_same ds); assumption).
  destruct (f_search f) as [search|] eqn:Es.
  - destruct (search _ _ _ _ _ _ _) as [driver_code m] eqn:Ed.
    pose proof (Run_native _ _ _ _ _ _ _ Hrun1 Ho Es Ed) as Hh.
    unfold after_native in Hh.
    assert (Hst1 : status ds1 = 0)
      by (unfold ds1; destruct (base _ =? 0); reflexivity).
    destruct (driver_code <? 0); intros [= <- <- <-].
    + eapply Halt_same; [exact Hh|same].
    + cbn [status set_len set_next set_results]. rewrite Hst1.
      eapply Halt_same; [exact Hh|same].
  - destruct (readdir_loop K self f (f_readdir f) ds1 w) as [ds2 w2] eqn:E.
    intros [= <- <- <-]. eapply rule_readdir_loop; eauto.
Qed.

Lemma rule_search_directory_at
  (self : dir_search -> world -> Z * dir_search * world) :
  walks Run Halt self -> walks Run Halt (search_directory_at K self).
Proof.
  intros Hself ds w st ds' w' Hrun. unfold search_directory_at.
  assert (Hrun0 : Run (set_status ds 0) w)
    by (apply (Run_same ds); [exact Hrun|same]).
  destruct (filp_open K (path (set_status ds 0))) as [f|e] eqn:Eo.
  - destruct (search_opened K self f _ _) as [[lbl ds1] w1] eqn:E.
    assert (Hh : Halt (status ds1) ds1 w1).
    { eapply rule_search_opened; [exact Hself|exact Eo| |exact E].
      apply Run_event; [exact Hrun0|reflexivity]. }
    destruct lbl; intros [= <- <- <-]; [|exact Hh].
    apply Halt_closed. exact Hh.
  - cbn [status set_status].
    destruct (recoverable (PTR_ERR e)); intros [= <- <- <-].
    + apply (Halt_same 0 ds); [|same]. apply Run_done.
      apply Run_event; [exact Hrun|reflexivity].
    + apply (Halt_same (PTR_ERR e) ds); [|same].
      apply Run_fail; [|unfold PTR_ERR; lia].
      apply Run_event; [exact Hrun|reflexivity].
Qed.

Lemma rule_search_directory_rem (rem : nat) :
  walks Run Halt (search_directory_rem K rem).
Proof.
  induction rem as [|rem IH].
  - intros ds w st ds' w' Hrun [= <- <- <-]. auto.
  - apply rule_search_directory_at. exact IH.
Qed.

Lemma rule_search_literal (ds : dir_search) (w : world) (t : turn)
  (ds' : dir_search) (w' : world) :
  Run ds w -> search_literal K ds w = (t, ds', w') -> turn_ends Run Halt t ds' w'.
Proof.
  intro Hrun. unfold search_literal.
  destruct Hconv as [Hkp _]. specialize (Hkp (path ds)).
  destruct (kern_path K (path ds)) as [st p0]. simpl in Hkp.
  destruct Hkp as [Hst Hp0].
  destruct (st =? - ENOENT); [intros [= <- <- <-]; exact Hrun|].
  destruct (st =? 0) eqn:E0; cbn [negb].
  2:{ apply Z.eqb_neq in E0. intros [= <- <- <-].
      split; [exact E0|]. apply Run_fail; [exact Hrun|lia]. }
  set (ds1 := set_path _ _).
  assert (Hrun1 : Run ds1 w) by (apply (Run_same ds); [exact Hrun|same]).
  destruct (Hp0 (pattern ds1)) as [Hl Hg].
  destruct (vfs_path_lookup p0 (pattern ds1) =? - ENOENT);
    [intros [= <- <- <-]; exact Hrun1|].
  destruct (vfs_path_lookup p0 (pattern ds1) =? 0) eqn:E1; cbn [negb].
  2:{ apply Z.eqb_neq in E1. intros [= <- <- <-].
      split; [exact E1|]. apply Run_fail; [exact Hrun1|].
      subst ds1; simpl in *; lia. }
  destruct (if flag_set (flags ds1) SEARCH_METADATA
            then vfs_getattr p0 (pattern ds1)
            else (vfs_path_lookup p0 (pattern ds1), kstat_zero))
    as [st1 stat] eqn:Eg.
  assert (Hst1 : st1 <= 0).
  { destruct (flag_set (flags ds1) SEARCH_METADATA).
    - rewrite Eg in Hg. exact Hg.
    - injection Eg as <- <-. exact Hl. }
  destruct (st1 =? 0) eqn:E2; cbn [negb].
  2:{ apply Z.eqb_neq in E2. intros [= <- <- <-].
      split; [exact E2|]. apply Run_fail; [exact Hrun1|lia]. }
  destruct (if flag_set (flags ds1) SEARCH_INCLUDEROOT
            then copy_search_result K ds1 w (path ds1) stat
            else copy_search_result K ds1 w (offset (path ds1) (base ds1))
                   stat)
    as [[r ds2] w2] eqn:E.
  assert (He : if r =? 0
               then if flag_set (flags ds2) SEARCH_STOPATFIRST
                    then Halt 0 (set_results ds2 (results ds2 + 1)) w2
                    else Run (set_results ds2 (results ds2 + 1)) w2
               else Halt r ds2 w2)
    by (destruct (flag_set (flags ds1) SEARCH_INCLUDEROOT);
        eapply Run_emit; eauto).
  destruct (r =? 0) eqn:Er; cbn [negb].
  - cbn [flags set_results].
    destruct (flag_set (flags ds2) SEARCH_STOPATFIRST);
      intros [= <- <- <-]; exact He.
  - apply Z.eqb_neq in Er. intros [= <- <- <-]. split; assumption.
Qed.

Lemma rule_search_root (c : string) (ds : dir_search) (w : world)
  (t : turn) (ds' : dir_search) (w' : world) :
  Run ds w -> search_root K c ds w = (t, ds', w') -> turn_ends Run Halt t ds' w'.
Proof.
  intro Hrun. unfold search_root.
  assert (Hrun1 : Run (set_path ds c) w)
    by (apply (Run_same ds); [exact Hrun|same]).
  destruct (negb (ds_ispattern (set_path ds c) =? 0));
    [|apply rule_search_literal; exact Hrun1].
  destruct (search_directory K _ w 0) as [[st ds1] w1] eqn:E.
  assert (Hh : Halt st ds1 w1).
  { eapply (rule_search_directory_rem _ _ _ _ _ _ _ E). }
  destruct (st =? 0) eqn:Es; cbn [negb].
  - apply Z.eqb_eq in Es. subst st.
    destruct ((results ds1 >? 0) && flag_set (flags ds1) SEARCH_STOPATFIRST)
      eqn:Eb; intros [= <- <- <-]; simpl; auto.
  - apply Z.eqb_neq in Es. intros [= <- <- <-]. split; assumption.
  Unshelve.
  apply (Run_same ds); [exact Hrun|same].
Qed.

Lemma rule_search_roots (roots : list string) :
  forall (ds : dir_search) (w : world) (o : option Z) (ds' : dir_search)
         (w' : world),
    Run ds w ->
    search_roots K roots ds w = (o, ds', w') ->
    match o with
    | Some st => st <> 0 /\ Halt st ds' w'
    | None => Halt 0 ds' w'
    end.
Proof.
  induction roots as [|c roots IH]; intros ds w o ds' w' Hrun.
  - intros [= <- <- <-]. auto.
  - cbn [search_roots].
    destruct (search_root K c ds w) as [[t ds1] w1] eqn:E1.
    pose proof (rule_search_root _ _ _ _ _ _ Hrun E1) as Ht.
    destruct t; simpl in Ht.
    + apply IH. exact Ht.
    + intros [= <- <- <-]. exact Ht.
    + intros [= <- <- <-]. exact Ht.
Qed.

End WalkRule.

(** * The shape of a run of the encoder and of the system call *)

Lemma emitted_app (l1 l2 : list event) :
  emitted (l1 ++ l2) = (emitted l1 ++ emitted l2)%list.
Proof.
  induction l1 as [|e l1 IH]; [reflexivity|].
  destruct e; simpl; rewrite IH; reflexivity.
Qed.

Lemma emitted_quiet_event (e : event) : is_emitted e = false -> emitted [e] = [].
Proof. destruct e; simpl; intro H; try discriminate H; reflexivity. Qed.

Lemma copy_search_result_cases (K : kernel) (ds : dir_search) (w : world)
  (p : string) (stat : kstat) (r : Z) (ds1 : dir_search) (w1 : world) :
  copy_search_result K ds w p stat = (r, ds1, w1) ->
  let result := encode K (flags ds) p stat in
  (r = 0 /\ strlen result + 2 <= len ds
   /\ ds1 = set_len (set_next ds (next ds + strlen result))
                    (len ds - strlen result)
   /\ exists m,
        copy_to_user K (umem w) (next ds)
          (list_ascii_of_string result ++ [NUL; NUL])%list = (0, m)
        /\ w1 = record_event (set_umem w m) (Emitted result))
  \/ (r = - EFAULT /\ strlen result + 2 <= len ds /\ ds1 = ds
      /\ exists u m,
           u <> 0
           /\ copy_to_user K (umem w) (next ds)
                (list_ascii_of_string result ++ [NUL; NUL])%list = (u, m)
           /\ w1 = set_umem w m)
  \/ (r = - ERANGE /\ len ds < strlen result + 2 /\ ds1 = ds
      /\ w1 = record_event w (Rejected result)).
Proof.
  intros H result. unfold copy_search_result in H. fold result in H.
  destruct (strlen result + 2 <=? len ds) eqn:E.
  - apply Z.leb_le in E.
    destruct (copy_to_user K (umem w) (next ds) _) as [u m] eqn:Ec.
    destruct (u =? 0) eqn:Eu; simpl in H; injection H as <- <- <-.
    + apply Z.eqb_eq in Eu. subst u. left. repeat split; auto.
      exists m. split; reflexivity.
    + apply Z.eqb_neq in Eu. right. left. repeat split; auto.
      exists u, m. repeat split; auto.
  - apply Z.leb_gt in E. injection H as <- <- <-.
    right. right. repeat split; auto.
Qed.

(** The initial state of a search and the three ways a call ends: an
    error before the search, the loop over the roots left by an error,
    or the count, after the closing terminators have been written. *)
Lemma sys_search_cases (K : kernel) (w : world) (u_paths u_pattern : Z)
  (fl b ln : Z) (r : Z) (w' : world) :
  sys_search K w u_paths u_pattern fl b ln = (r, w') ->
  (r <= 0 /\ w' = w)
  \/ exists roots ds0 o ds1 w1,
       results ds0 = 0 /\ flags ds0 = fl /\ buf ds0 = b /\ next ds0 = b
       /\ len ds0 = ln
       /\ search_roots K roots ds0 w = (o, ds1, w1)
       /\ match o with
          | Some st => r = st /\ w' = w1
          | None =>
              if b =? next ds1 then r = results ds1 /\ w' = w1
              else
                r = (if fst (copy_to_user K (umem w1) (next ds1 - 1)
                               [NUL; NUL]) =? 0
                     then results ds1
                     else fst (copy_to_user K (umem w1) (next ds1 - 1)
                                 [NUL; NUL]))
                /\ w' = set_umem w1
                          (snd (copy_to_user K (umem w1) (next ds1 - 1)
                                  [NUL; NUL]))
          end.
Proof.
  unfold sys_search.
  case_if; [intros [= <- <-]; left; split; [unfold EFAULT; lia|reflexivity]|].
  case_if; [intros [= <- <-]; left; split; [unfold ENOMEM; lia|reflexivity]|].
  destruct (getname K u_paths) as [ds_paths|e];
    [|intros [= <- <-]; left; split; [unfold PTR_ERR; lia|reflexivity]].
  destruct (getname K u_pattern) as [ds_pattern|e];
    [|intros [= <- <-]; left; split; [unfold PTR_ERR; lia|reflexivity]].
  case_if; [intros [= <- <-]; left; split; [lia|reflexivity]|].
  match goal with
  | |- context [search_roots K ?rs ?d w] =>
      destruct (search_roots K rs d w) as [[o ds1] w1] eqn:E;
      intro H; right; exists rs, d, o, ds1, w1
  end.
  repeat split; try (cbn [ds_ispattern]; case_if; reflexivity);
    try exact E.
  destruct o as [st|].
  - injection H as <- <-. split; reflexivity.
  - destruct (b =? next ds1); cbn [negb] in H.
    + injection H as <- <-. split; reflexivity.
    + destruct (copy_to_user K (umem w1) (next ds1 - 1) [NUL; NUL])
        as [st m].
      cbn [fst snd]. destruct (st =? 0); cbn [negb] in H;
        injection H as <- <-; split; reflexivity.
Qed.

(** * Stopping at the first match *)

Lemma stops_after_first_closed (l : list event) (h : nat) :
  stops_after_first l -> stops_after_first (l ++ [Closed h]).
Proof.
  intros [H|[l1 [rec [l2 [H1 [H2 H3]]]]]].
  - left. rewrite emitted_app, H. reflexivity.
  - right. exists l1, rec, (l2 ++ [Closed h])%list. subst l.
    rewrite <- app_assoc. repeat split; auto.
    rewrite forallb_app, H3. reflexivity.
Qed.

Section StopAtFirst.

Variable K : kernel.
Variable w0 : world.
Hypothesis Hbound : native_search_bounded K 1.

Lemma run_stop_same (ds ds' : dir_search) (w : world) :
  run_stop w0 ds w -> same_output ds ds' -> run_stop w0 ds' w.
Proof.
  intros [Hf [l [Ht [Hr He]]]] [S1 [S2 _]]. split; [congruence|].
  exists l. repeat split; congruence.
Qed.

Lemma halt_stop_same (st : Z) (ds ds' : dir_search) (w : world) :
  halt_stop w0 st ds w -> same_output ds ds' -> halt_stop w0 st ds' w.
Proof.
  intros [Hf [Hst [l [Ht [Hr [Hs Hz]]]]]] [S1 [S2 _]].
  split; [congruence|]. split; [exact Hst|].
  exists l. rewrite <- S1. repeat split; auto; apply Hz; auto.
Qed.

Lemma run_stop_event (ds : dir_search) (w : world) (e : event) :
  run_stop w0 ds w -> is_emitted e = false ->
  run_stop w0 ds (record_event w e).
Proof.
  intros [Hf [l [Ht [Hr He]]]] Hq. split; [exact Hf|].
  exists (l ++ [e])%list. simpl. rewrite Ht, app_assoc.
  repeat split; auto.
  rewrite emitted_app, He, (emitted_quiet_event e Hq). reflexivity.
Qed.

Lemma halt_stop_closed (st : Z) (ds : dir_search) (w : world) (h : nat) :
  halt_stop w0 st ds w -> halt_stop w0 st ds (record_event w (Closed h)).
Proof.
  intros [Hf [Hst [l [Ht [Hr [Hs Hz]]]]]].
  split; [exact Hf|]. split; [exact Hst|].
  exists (l ++ [Closed h])%list. simpl. rewrite Ht, app_assoc.
  split; [reflexivity|]. split; [exact Hr|].
  split; [apply stops_after_first_closed; exact Hs|].
  intro H0. destruct (Hz H0) as [H1 H2]. split; [exact H1|].
  intro H3. rewrite emitted_app, (H2 H3). reflexivity.
Qed.

Lemma run_stop_done (ds : dir_search) (w : world) :
  run_stop w0 ds w -> halt_stop w0 0 ds w.
Proof.
  intros [Hf [l [Ht [Hr He]]]]. split; [exact Hf|]. split; [lia|].
  exists l. split; [exact Ht|]. split; [lia|]. split; [left; exact He|].
  intros _. split; [lia|auto].
Qed.

Lemma run_stop_fail (ds : dir_search) (w : world) (st : Z) :
  run_stop w0 ds w -> st < 0 -> halt_stop w0 st ds w.
Proof.
  intros [Hf [l [Ht [Hr He]]]] Hst. split; [exact Hf|]. split; [lia|].
  exists l. split; [exact Ht|]. split; [lia|]. split; [left; exact He|].
  intro H0. lia.
Qed.

Lemma halt_stop_resume (ds : dir_search) (w : world) :
  halt_stop w0 0 ds w ->
  (results ds >? 0) && flag_set (flags ds) SEARCH_STOPATFIRST = false ->
  run_stop w0 ds w.
Proof.
  intros [Hf [Hst [l [Ht [Hr [Hs Hz]]]]]] Hc.
  rewrite Hf, andb_true_r in Hc.
  rewrite Z.gtb_ltb in Hc. apply Z.ltb_ge in Hc.
  destruct (Hz eq_refl) as [H1 H2].
  assert (H0 : results ds = 0) by lia.
  split; [exact Hf|]. exists l. auto.
Qed.

Lemma run_stop_emit (ds : dir_search) (w : world) (p : string)
  (stat : kstat) (r : Z) (ds1 : dir_search) (w1 : world) :
  run_stop w0 ds w -> copy_search_result K ds w p stat = (r, ds1, w1) ->
  if r =? 0
  then if flag_set (flags ds1) SEARCH_STOPATFIRST
       then halt_stop w0 0 (set_results ds1 (results ds1 + 1)) w1
       else run_stop w0 (set_results ds1 (results ds1 + 1)) w1
  else halt_stop w0 r ds1 w1.
Proof.
  intros [Hf [l [Ht [Hr He]]]] Hc.
  destruct (copy_search_result_cases _ _ _ _ _ _ _ _ Hc)
    as [[-> [Hfit [-> [m [Hm ->]]]]]
       |[[-> [Hfit [-> [u [m [Hu [Hm ->]]]]]]]
        |[-> [Hfit [-> ->]]]]].
  - cbn [Z.eqb flags set_len set_next results]. rewrite Hf.
    split; [exact Hf|]. split; [lia|].
    exists (l ++ [Emitted (encode K (flags ds) p stat)])%list.
    simpl. rewrite Ht, app_assoc. split; [reflexivity|].
    split; [lia|]. split.
    + right. exists l, (encode K (flags ds) p stat), []. auto.
    + intros _. split; lia.
  - change (- EFAULT =? 0) with false. cbv iota.
    split; [exact Hf|]. split; [unfold EFAULT; lia|].
    exists l. simpl. split; [exact Ht|]. split; [lia|].
    split; [left; exact He|]. unfold EFAULT. intro; lia.
  - change (- ERANGE =? 0) with false. cbv iota.
    split; [exact Hf|]. split; [unfold ERANGE; lia|].
    exists (l ++ [Rejected (encode K (flags ds) p stat)])%list.
    simpl. rewrite Ht, app_assoc. split; [reflexivity|]. split; [lia|].
    split; [left; rewrite emitted_app, He; reflexivity|].
    unfold ERANGE. intro; lia.
Qed.

Lemma run_stop_native (ds : dir_search) (w : world) (p : string) (f : file)
  (search : native_search) (code : Z) (m : Z -> ascii) :
  run_stop w0 ds w -> filp_open K p = PTR_OK f -> f_search f = Some search ->
  search (f_mountpoint f) (offset (path ds) (strlen (f_mountpoint f)))
         (pattern ds) (flags ds) (next ds) (len ds) (umem w) = (code, m) ->
  halt_stop w0 (if code <? 0 then code else 0) (after_native ds code)
    (set_umem w m).
Proof.
  intros [Hf [l [Ht [Hr He]]]] Ho Hs Hd.
  pose proof (Hbound p f search (f_mountpoint f)
                (offset (path ds) (strlen (f_mountpoint f)))
                (pattern ds) (flags ds) (next ds) (len ds) (umem w) Ho Hs)
    as Hb.
  rewrite Hd in Hb. simpl in Hb.
  unfold after_native.
  destruct (code <? 0) eqn:Ec;
    [apply Z.ltb_lt in Ec|apply Z.ltb_ge in Ec];
    (split; [exact Hf|]); (split; [lia|]);
    exists l; simpl; rewrite Hr;
    (split; [exact Ht|]); (split; [lia|]);
    (split; [left; exact He|]); intro H0; split; auto; lia.
Qed.

End StopAtFirst.

Lemma copy_to_user_writable (K : kernel) (l : list ascii) :
  forall (m : Z -> ascii) (a : Z),
    (forall i, a <= i < a + Z.of_nat (List.length l) ->
               user_writable K i = true) ->
    fst (copy_to_user K m a l) = 0.
Proof.
  induction l as [|c l IH]; intros m a H; [reflexivity|].
  cbn [copy_to_user]. rewrite H by (simpl List.length; lia).
  apply IH. intros i Hi. apply H. simpl List.length. lia.
Qed.

(** C6, as amended: with SEARCH_STOPATFIRST set, when every native
    search hook returns at most 1, collaborators report failures by
    negative statuses and user memory can be written, the call returns
    an error, 0 or 1; the walker and the literal shortcut emit at most
    one record, and after that record nothing happens but the closing
    of the directories that are open. *)
Theorem stop_at_first_count (K : kernel) (w0 : world)
  (u_paths u_pattern fl b ln : Z) (r : Z) (w' : world)
  (Hstop : flag_set fl SEARCH_STOPATFIRST = true)
  (Hbound : native_search_bounded K 1)
  (Hconv : errno_convention K)
  (Hmem : forall a, user_writable K a = true)
  (Hrun : sys_search K w0 u_paths u_pattern fl b ln = (r, w')) :
  r <= 1
  /\ exists l, trace w' = (trace w0 ++ l)%list
               /\ stops_after_first l
               /\ (List.length (emitted l) <= 1)%nat.
Proof.
  assert (Hlen : forall l, stops_after_first l -> (List.length (emitted l) <= 1)%nat).
  { intros l [H|[l1 [rec [l2 [-> [H1 H2]]]]]]; [rewrite H; simpl; lia|].
    rewrite emitted_app, H1. simpl.
    assert (H3 : emitted l2 = []).
    { clear - H2. induction l2 as [|e l2 IH]; [reflexivity|].
      simpl in H2. apply andb_prop in H2. destruct H2 as [Ha Hb].
      destruct e; try discriminate Ha. simpl. auto. }
    rewrite H3. simpl. lia. }
  destruct (sys_search_cases _ _ _ _ _ _ _ _ _ Hrun)
    as [[Hr ->]|[roots [ds0 [o [ds1 [w1 [R0 [F0 [B0 [N0 [L0 [Er Ho]]]]]]]]]]]].
  { split; [lia|]. exists []. rewrite app_nil_r.
    repeat split; [left; reflexivity|simpl; lia]. }
  assert (Hinit : run_stop w0 ds0 w0).
  { split; [rewrite F0; exact Hstop|]. exists []. rewrite app_nil_r. auto. }
  pose proof (rule_search_roots K (run_stop w0) (halt_stop w0) Hconv
                (run_stop_same w0) (halt_stop_same w0) (run_stop_event w0)
                (halt_stop_closed w0) (run_stop_done w0) (run_stop_fail w0)
                (halt_stop_resume w0) (run_stop_emit K w0)
                (run_stop_native K w0 Hbound)
                roots ds0 w0 o ds1 w1 Hinit Er) as Hend.
  destruct o as [st|].
  - destruct Ho as [-> ->].
    destruct Hend as [_ [_ [Hst [l [Ht [_ [Hs _]]]]]]].
    split; [lia|]. exists l. auto.
  - destruct Hend as [_ [_ [l [Ht [Hres [Hs _]]]]]].
    destruct (b =? next ds1).
    + destruct Ho as [-> ->]. split; [exact Hres|]. exists l. auto.
    + destruct Ho as [-> ->].
      rewrite copy_to_user_writable by (intros; apply Hmem).
      cbn [Z.eqb]. split; [exact Hres|]. exists l. simpl. auto.
Qed.

(** The sample file system with the two files follows the convention
    on statuses and has no native search. *)
Lemma two_files_no_native (paths patt : string) :
  no_native_search (sample_kernel paths patt two_files []).
Proof.
  intros p f Ho.
  unfold sample_kernel, filp_open, two_files in Ho. simpl in Ho.
  destruct (p =? "/r")%string; [|discriminate Ho].
  injection Ho as <-. reflexivity.
Qed.

Lemma two_files_convention (paths patt : string) :
  errno_convention (sample_kernel paths patt two_files []).
Proof.
  split.
  - intro p. simpl. split; [unfold ENOENT; lia|].
    intro name. simpl. unfold ENOENT. split; lia.
  - intros p f Ho.
    unfold sample_kernel, filp_open, two_files in Ho. simpl in Ho.
    destruct (p =? "/r")%string; [|discriminate Ho].
    injection Ho as <-. simpl. split.
    + intro name. simpl. split; lia.
    + repeat constructor. simpl. lia.
Qed.

Lemma no_native_bounded (K : kernel) (bound : Z) :
  no_native_search K -> native_search_bounded K bound.
Proof.
  intros H p f search mnt rel pat fl nxt ln m Ho Hs.
  rewrite (H p f Ho) in Hs. discriminate Hs.
Qed.

Lemma stop_at_first_count_witness :
  let run :=
    sys_search (sample_kernel "/r" "*" two_files []) blank 0 1 1 1000 100 in
  fst run <= 1
  /\ exists l, trace (snd run) = (trace blank ++ l)%list
               /\ stops_after_first l
               /\ (List.length (emitted l) <= 1)%nat.
Proof.
  intro run.
  apply (stop_at_first_count
           (sample_kernel "/r" "*" two_files []) blank 0 1 1 1000 100
           (fst run) (snd run)).
  - reflexivity.
  - apply no_native_bounded, two_files_no_native.
  - apply two_files_convention.
  - intro a. reflexivity.
  - vm_compute. reflexivity.
Defined.

(** * The text left in the output buffer *)




Lemma chars_length (s : string) :
  List.length (list_ascii_of_string s) = String.length s.
Proof. induction s as [|c s IH]; simpl; [reflexivity|rewrite IH; reflexivity]. Qed.







(** ** User memory *)









(** ** The buffer while records are emitted *)



Section OutputFraming.

Variable K : kernel.
Variable w0 : world.
Variables b ln : Z.
Hypothesis Hnative : no_native_search K.
Hypothesis Hmem : forall a, b <= a < b + ln -> user_writable K a = true.










End OutputFraming.




(** * Further properties of the matcher *)

Lemma cstring_peek (p : string) :
  cstring p = true -> (peek p =? NUL)%char = true -> p = EmptyString.
Proof.
  destruct p as [|c p]; [reflexivity|]. simpl. intros H E.
  rewrite E in H. discriminate H.
Qed.

(** What the loop does on a plain pattern: it compares character by
    character, and a slash of the pattern met at the end of the path
    gives the partial outcome. *)
Lemma match_loop_plain (s : string) :
  plain s = true ->
  forall (n : Z) (p : string) (flags : Z),
    cstring p = true ->
    (match_loop n p s flags = SEARCH_MATCH_SUCCESS <-> p = s)
    /\ (match_loop n p s flags = SEARCH_MATCH_PARTIAL
        <-> exists rest, s = p ++ String "/" rest)
    /\ match_loop n p s flags <> SEARCH_MATCH_OVERFLOW.
Proof.
  induction s as [|c s IH]; intros Hs n p flags Hp.
  - cbn [match_loop]. destruct (peek p =? NUL)%char eqn:E.
    + rewrite (cstring_peek p Hp E). split; [tauto|]. split; [|discriminate].
      split; [discriminate|]. intros [rest H]. discriminate H.
    + split; [|split; [|discriminate]].
      * split; [discriminate|]. intros ->. discriminate E.
      * split; [discriminate|]. intros [rest H].
        destruct p; discriminate H.
  - simpl in Hs.
    apply andb_prop in Hs as [Hs Hpl]. apply andb_prop in Hs as [Hs Hbar].
    apply andb_prop in Hs as [Hs Hbra]. apply andb_prop in Hs as [Hs Hq].
    apply andb_prop in Hs as [Hnul Hstar].
    apply negb_true_iff in Hnul, Hstar, Hq, Hbra, Hbar.
    cbn [match_loop]. rewrite Hnul, Hstar, Hq, Hbra, Hbar. cbn [andb orb].
    destruct p as [|d p].
    + cbn [peek]. change (NUL =? NUL)%char with true.
      destruct (c =? "/")%char eqn:Ec; cbn [andb].
      * apply Ascii.eqb_eq in Ec. subst c.
        split; [split; discriminate|]. split; [|discriminate].
        split; [intros _; exists s; reflexivity|reflexivity].
      * replace (NUL =? c)%char with false
          by (rewrite Ascii.eqb_sym; symmetry; exact Hnul).
        split; [split; discriminate|].
        split; [|discriminate]. split; [discriminate|].
        intros [rest E]. simpl in E. injection E as E _. subst c.
        discriminate Ec.
    + cbn [peek advance]. simpl in Hp. apply andb_prop in Hp.
      destruct Hp as [Hd Hp]. apply negb_true_iff in Hd. rewrite Hd.
      rewrite andb_false_r.
      destruct (d =? c)%char eqn:Edc.
      * apply Ascii.eqb_eq in Edc. subst d.
        destruct (IH Hpl n p flags Hp) as [I1 [I2 I3]].
        split; [|split; [|exact I3]].
        -- rewrite I1. split; [intros ->; reflexivity|].
           intros E; injection E as E; exact E.
        -- rewrite I2. split; intros [rest E]; exists rest.
           ++ simpl. rewrite E. reflexivity.
           ++ simpl in E. injection E as E. exact E.
      * split; [|split; [|discriminate]].
        -- split; [discriminate|]. intros E. injection E as E _. subst d.
           rewrite Ascii.eqb_refl in Edc. discriminate Edc.
        -- split; [discriminate|]. intros [rest E]. simpl in E.
           injection E as E _. subst d.
           rewrite Ascii.eqb_refl in Edc. discriminate Edc.
Qed.

Lemma match_pathname_rec_plain (n : Z) (p s : string) (flags : Z) :
  n < MATCH_DEPTH -> plain s = true -> cstring p = true ->
  (__match_pathname n p s flags = SEARCH_MATCH_SUCCESS <-> p = s)
  /\ (__match_pathname n p s flags = SEARCH_MATCH_PARTIAL
      <-> exists rest, s = p ++ String "/" rest)
  /\ __match_pathname n p s flags <> SEARCH_MATCH_OVERFLOW.
Proof.
  intros Hn Hs Hp. unfold __match_pathname.
  destruct (n >=? MATCH_DEPTH) eqn:E; [apply Z.geb_le in E; lia|].
  apply match_loop_plain; assumption.
Qed.

(** A pattern without special character matches a path exactly when
    the two are the same text, and gives the partial outcome exactly
    when the path followed by a slash begins the pattern; it never
    overflows. *)
Theorem plain_pattern_matches_itself (n : Z) (p s : string) (flags : Z)
  (Hn : n < MATCH_DEPTH) (Hs : plain s = true) (Hp : cstring p = true) :
  (__match_pathname n p s flags = SEARCH_MATCH_SUCCESS <-> p = s)
  /\ (__match_pathname n p s flags = SEARCH_MATCH_PARTIAL
      <-> exists rest, s = p ++ String "/" rest)
  /\ __match_pathname n p s flags <> SEARCH_MATCH_OVERFLOW.
Proof.
  unfold __match_pathname.
  destruct (n >=? MATCH_DEPTH) eqn:E; [apply Z.geb_le in E; lia|].
  apply match_loop_plain; assumption.
Qed.

Lemma plain_pattern_matches_itself_witness :
  (__match_pathname 0 "/usr/lib" "/usr/lib" 0 = SEARCH_MATCH_SUCCESS
   <-> "/usr/lib" = "/usr/lib")
  /\ (__match_pathname 0 "/usr" "/usr/lib" 0 = SEARCH_MATCH_PARTIAL
      <-> exists rest, "/usr/lib" = "/usr" ++ String "/" rest).
Proof.
  split.
  - apply (plain_pattern_matches_itself 0 "/usr/lib" "/usr/lib" 0);
      [unfold MATCH_DEPTH; lia|reflexivity|reflexivity].
  - apply (plain_pattern_matches_itself 0 "/usr" "/usr/lib" 0);
      [unfold MATCH_DEPTH; lia|reflexivity|reflexivity].
Defined.

Lemma plain_name_plain (s : string) : plain_name s = true -> plain s = true.
Proof.
  induction s as [|c s IH]; [reflexivity|]. simpl. intro H.
  apply andb_prop in H as [H Hs]. apply andb_prop in H as [H _].
  rewrite H, (IH Hs). reflexivity.
Qed.

Lemma plain_name_cstring (s : string) : plain_name s = true -> cstring s = true.
Proof.
  induction s as [|c s IH]; [reflexivity|]. simpl. intro H.
  apply andb_prop in H as [H Hs].
  repeat (apply andb_prop in H as [H _]).
  rewrite H, (IH Hs). reflexivity.
Qed.

Lemma plain_name_no_slash (p rest : string) :
  plain_name (p ++ String "/" rest) = false.
Proof.
  induction p as [|c p IH]; [reflexivity|].
  simpl. rewrite IH. apply andb_false_r.
Qed.

(** The outcome for a name is a success or a failure, and a success
    exactly for the name itself. *)
Lemma match_pathname_rec_name (n : Z) (p q : string) (flags : Z) :
  n < MATCH_DEPTH -> plain_name q = true -> cstring p = true ->
  (__match_pathname n p q flags = SEARCH_MATCH_SUCCESS /\ p = q)
  \/ (__match_pathname n p q flags = SEARCH_MATCH_FAILURE /\ p <> q).
Proof.
  intros Hn Hq Hp.
  destruct (match_pathname_rec_plain n p q flags Hn
              (plain_name_plain q Hq) Hp) as [H1 [H2 H3]].
  destruct (__match_pathname n p q flags) eqn:E.
  - right. split; [reflexivity|]. intro Heq. apply H1 in Heq. discriminate Heq.
  - exfalso. destruct (proj1 H2 eq_refl) as [rest Hrest]. subst q.
    rewrite plain_name_no_slash in Hq. discriminate Hq.
  - left. split; [reflexivity|]. apply H1. reflexivity.
  - exfalso. apply H3. reflexivity.
Qed.

Lemma star_loop_name (n : Z) (q : string) (flags : Z) :
  n + 1 < MATCH_DEPTH -> plain_name q = true ->
  forall p, cstring p = true ->
    (star_loop (fun p => __match_pathname (n + 1) p q flags) p
     = SEARCH_MATCH_SUCCESS
     /\ exists pre, p = pre ++ q /\ slash_free pre = true)
    \/ (star_loop (fun p => __match_pathname (n + 1) p q flags) p
        = SEARCH_MATCH_FAILURE
        /\ forall pre, p = pre ++ q -> slash_free pre = false).
Proof.
  intros Hn Hq p. induction p as [|d p IH]; intro Hp; rewrite star_loop_unfold.
  - destruct (match_pathname_rec_name (n + 1) "" q flags Hn Hq Hp)
      as [[E Heq]|[E Hne]]; rewrite E; cbn [is_failure search_matched_eqb negb].
    + left. split; [reflexivity|]. exists "". split; [exact Heq|reflexivity].
    + right. split; [reflexivity|]. intros pre Hpre. exfalso. apply Hne.
      destruct pre; [exact Hpre|discriminate Hpre].
  - destruct (match_pathname_rec_name (n + 1) (String d p) q flags Hn Hq Hp)
      as [[E Heq]|[E Hne]]; rewrite E; cbn [is_failure search_matched_eqb negb].
    + left. split; [reflexivity|]. exists "". split; [exact Heq|reflexivity].
    + simpl in Hp. apply andb_prop in Hp as [Hd Hp].
      unfold is_filename. rewrite Hd, andb_true_r.
      destruct (d =? "/")%char eqn:Ed; cbn [negb].
      * right. split; [reflexivity|]. intros pre Hpre.
        destruct pre as [|c pre]; [exfalso; apply Hne; exact Hpre|].
        simpl in Hpre. injection Hpre as Hc _. subst c. simpl.
        rewrite Ed. reflexivity.
      * destruct (IH Hp) as [[R [pre [Hpre Hfree]]]|[R Hnone]].
        -- left. split; [exact R|]. exists (String d pre). simpl.
           rewrite Ed, Hfree, Hpre. split; reflexivity.
        -- right. split; [exact R|]. intros pre Hpre.
           destruct pre as [|c pre]; [exfalso; apply Hne; exact Hpre|].
           simpl in Hpre. injection Hpre as Hc Hpre. subst c. simpl.
           rewrite (Hnone pre Hpre). apply andb_false_r.
Qed.

(** A star followed by a name matches exactly the paths that end in the
    name and hold no slash before it; every other path is a failure. *)
Theorem star_then_name (n : Z) (p q : string) (flags : Z)
  (Hn : n + 1 < MATCH_DEPTH) (Hq : plain_name q = true)
  (Hp : cstring p = true) :
  (__match_pathname n p (String "*" q) flags = SEARCH_MATCH_SUCCESS
   <-> exists pre, p = pre ++ q /\ slash_free pre = true)
  /\ (__match_pathname n p (String "*" q) flags = SEARCH_MATCH_SUCCESS
      \/ __match_pathname n p (String "*" q) flags = SEARCH_MATCH_FAILURE).
Proof.
  unfold __match_pathname.
  destruct (n >=? MATCH_DEPTH) eqn:E; [apply Z.geb_le in E; lia|].
  rewrite match_loop_star.
  destruct (star_loop_name n q flags Hn Hq p Hp) as [[R Hex]|[R Hnone]];
    rewrite R.
  - split; [tauto|left; reflexivity].
  - split; [|right; reflexivity]. split; [discriminate|].
    intros [pre [Hpre Hfree]]. rewrite (Hnone pre Hpre) in Hfree.
    discriminate Hfree.
Qed.

Lemma star_then_name_witness :
  __match_pathname 0 "main.c" "*.c" 0 = SEARCH_MATCH_SUCCESS
  <-> exists pre, "main.c" = pre ++ ".c" /\ slash_free pre = true.
Proof.
  apply (star_then_name 0 "main.c" ".c" 0);
    [unfold MATCH_DEPTH; lia|reflexivity|reflexivity].
Defined.

Lemma cstring_append (a b : string) :
  cstring (a ++ b) = cstring a && cstring b.
Proof.
  induction a as [|c a IH]; [reflexivity|].
  simpl. rewrite IH. apply andb_assoc.
Qed.

(** The positions at a slash are the suffixes that begin with one. *)
Lemma slashes_from_suffix (s b : string) :
  In b (slashes_from s) -> exists pre, s = pre ++ b /\ peek b = "/"%char.
Proof.
  induction s as [|d s IH]; simpl; [tauto|].
  destruct (d =? NUL)%char; [simpl; tauto|].
  destruct (d =? "/")%char eqn:Ed.
  - intros [<-|H].
    + exists "". apply Ascii.eqb_eq in Ed. subst d. split; reflexivity.
    + destruct (IH H) as [pre [-> Hb]]. exists (String d pre). split;
        [reflexivity|exact Hb].
  - intro H. destruct (IH H) as [pre [-> Hb]]. exists (String d pre). split;
      [reflexivity|exact Hb].
Qed.

Lemma slashes_from_found (pre b : string) :
  cstring pre = true -> In (String "/" b) (slashes_from (pre ++ String "/" b)).
Proof.
  induction pre as [|d pre IH]; intro H.
  - left. reflexivity.
  - simpl in H. apply andb_prop in H as [Hd H]. apply negb_true_iff in Hd.
    simpl. rewrite Hd. destruct (d =? "/")%char; [right|]; apply IH; exact H.
Qed.

Lemma bars_from_plain (s : string) : plain s = true -> bars_from s = [].
Proof.
  induction s as [|c s IH]; [reflexivity|]. simpl. intro H.
  apply andb_prop in H as [H Hs]. apply andb_prop in H as [H Hbar].
  apply negb_true_iff in Hbar. rewrite Hbar.
  destruct (c =? NUL)%char; [reflexivity|]. apply IH. exact Hs.
Qed.

Lemma alternatives_plain (s : string) :
  plain s = true -> alternatives s = [s].
Proof.
  intro H. unfold alternatives. destruct s as [|c s]; [reflexivity|].
  simpl in H. apply andb_prop in H as [_ H]. cbn [advance].
  rewrite (bars_from_plain s H). reflexivity.
Qed.

(** For a name that does not start at the root, the loop over the
    positions of a path succeeds when the name follows one of them. *)
Lemma match_boundaries_name (q : string) (flags : Z) (bs : list string) :
  plain_name q = true -> (peek q =? "/")%char = false ->
  (forall b, In b bs -> cstring (advance b) = true) ->
  (match_boundaries bs [q] flags = Some SEARCH_MATCH_SUCCESS
   /\ exists b, In b bs /\ advance b = q)
  \/ (match_boundaries bs [q] flags = None
      /\ forall b, In b bs -> advance b <> q).
Proof.
  intros Hq Hrel. induction bs as [|b bs IH]; intro Hbs.
  - right. split; [reflexivity|]. intros b [].
  - cbn [match_boundaries match_alternatives]. rewrite Hrel.
    destruct (match_pathname_rec_name 0 (advance b) q flags) as [[E Heq]|[E Hne]];
      [unfold MATCH_DEPTH; lia|exact Hq|apply Hbs; left; reflexivity| |];
      rewrite E; cbn [is_failure search_matched_eqb negb].
    + left. split; [reflexivity|]. exists b. split; [left; reflexivity|exact Heq].
    + destruct IH as [[R [b' [Hin Hb']]]|[R Hnone]];
        [intros b' Hb'; apply Hbs; right; exact Hb'| |]; rewrite R.
      * left. split; [reflexivity|]. exists b'. split; [right; exact Hin|exact Hb'].
      * right. split; [reflexivity|]. intros b' [<-|Hin];
          [exact Hne|apply Hnone; exact Hin].
Qed.

Lemma cstring_suffix (pre b : string) :
  cstring (pre ++ b) = true -> cstring b = true.
Proof.
  rewrite cstring_append. intro H. apply andb_prop in H as [_ H]. exact H.
Qed.

(** A pattern that is a bare name (no special character, no slash)
    matches an absolute path exactly when the name is the last
    component of the path, at whatever depth; any other path is a
    failure. *)
Theorem bare_name_matches_last_component (path q : string) (flags : Z)
  (Hq : plain_name q = true) (Hpath : cstring path = true)
  (Habs : peek path = "/"%char) :
  (match_pathname path q flags = SEARCH_MATCH_SUCCESS
   <-> exists dir, path = dir ++ String "/" q)
  /\ (match_pathname path q flags = SEARCH_MATCH_SUCCESS
      \/ match_pathname path q flags = SEARCH_MATCH_FAILURE).
Proof.
  assert (Hrel : (peek q =? "/")%char = false).
  { destruct q as [|c q]; [reflexivity|]. simpl in Hq.
    apply andb_prop in Hq as [Hq _]. apply andb_prop in Hq as [_ Hq].
    apply negb_true_iff in Hq. exact Hq. }
  unfold match_pathname.
  rewrite (alternatives_plain q (plain_name_plain q Hq)).
  destruct path as [|c path]; [discriminate Habs|]. simpl in Habs. subst c.
  assert (Hb : forall b, In b (boundaries (String "/" path)) ->
                         exists pre, String "/" path = pre ++ b
                                     /\ peek b = "/"%char).
  { intros b [<-|Hin]; [exists ""; split; reflexivity|].
    cbn [advance] in Hin. destruct (slashes_from_suffix _ _ Hin) as [pre [-> Hp]].
    exists (String "/" pre). split; [reflexivity|exact Hp]. }
  destruct (match_boundaries_name q flags (boundaries (String "/" path)) Hq Hrel)
    as [[R [b [Hin Hadv]]]|[R Hnone]].
  - intros b Hin. destruct (Hb b Hin) as [pre [Hpre Hp]].
    rewrite Hpre in Hpath. apply cstring_suffix in Hpath.
    destruct b as [|d b]; [reflexivity|]. simpl in Hpath.
    apply andb_prop in Hpath as [_ Hpath]. exact Hpath.
  - rewrite R. split; [|left; reflexivity]. split; [|reflexivity]. intros _.
    destruct (Hb b Hin) as [pre [Hpre Hp]]. exists pre.
    destruct b as [|d b]; [discriminate Hp|]. simpl in Hp, Hadv. subst d b.
    exact Hpre.
  - rewrite R. split; [|right; reflexivity]. split; [discriminate|].
    intros [dir Hdir]. exfalso.
    apply (Hnone (String "/" q)); [|reflexivity].
    destruct dir as [|d dir].
    + left. simpl in Hdir. exact Hdir.
    + right. simpl in Hdir. injection Hdir as Hd Hdir. subst d.
      cbn [advance]. rewrite Hdir. apply slashes_from_found.
      rewrite Hdir in Hpath. simpl in Hpath. rewrite cstring_append in Hpath.
      apply andb_prop in Hpath as [Hpath _]. exact Hpath.
Qed.

Lemma bare_name_matches_last_component_witness :
  match_pathname "/usr/lib/libc.so" "libc.so" 0 = SEARCH_MATCH_SUCCESS
  <-> exists dir, "/usr/lib/libc.so" = dir ++ String "/" "libc.so".
Proof.
  apply (bare_name_matches_last_component "/usr/lib/libc.so" "libc.so" 0);
    reflexivity.
Defined.

(** A question mark followed by a name matches the name itself and the
    name after one more character that is neither a slash nor the end;
    every other path is a failure. *)
Theorem question_mark_then_name (n : Z) (p q : string) (flags : Z)
  (Hn : n + 1 < MATCH_DEPTH) (Hq : plain_name q = true)
  (Hp : cstring p = true) :
  (__match_pathname n p (String "?" q) flags = SEARCH_MATCH_SUCCESS
   <-> p = q \/ exists c, is_filename c = true /\ p = String c q)
  /\ (__match_pathname n p (String "?" q) flags = SEARCH_MATCH_SUCCESS
      \/ __match_pathname n p (String "?" q) flags = SEARCH_MATCH_FAILURE).
Proof.
  assert (Hn0 : n < MATCH_DEPTH) by lia.
  unfold __match_pathname.
  destruct (n >=? MATCH_DEPTH) eqn:E; [apply Z.geb_le in E; lia|].
  cbn [match_loop]. change ("?" =? NUL)%char with false.
  change ("?" =? "*")%char with false. change ("?" =? "?")%char with true.
  cbv iota. rewrite call_is_match_pathname.
  assert (Hskip : match_loop n p q flags = __match_pathname n p q flags).
  { unfold __match_pathname. rewrite E. reflexivity. }
  rewrite Hskip.
  destruct (match_pathname_rec_name n p q flags Hn0 Hq Hp) as [[R0 E0]|[R0 N0]].
  - (* the name itself *)
    destruct (is_filename (peek p)) eqn:Ef.
    + destruct p as [|c p]; [discriminate Ef|]. cbn [peek advance].
      simpl in Hp. apply andb_prop in Hp as [_ Hp'].
      destruct (match_pathname_rec_name (n + 1) p q flags Hn Hq Hp')
        as [[R1 E1]|[R1 N1]]; rewrite R1;
        cbn [is_failure search_matched_eqb negb].
      * split; [|left; reflexivity]. split; [|reflexivity]. intros _.
        left. exact E0.
      * rewrite R0. split; [|left; reflexivity]. split; [|reflexivity].
        intros _. left. exact E0.
    + rewrite R0. split; [|left; reflexivity]. split; [|reflexivity].
      intros _. left. exact E0.
  - destruct (is_filename (peek p)) eqn:Ef.
    + destruct p as [|c p]; [discriminate Ef|]. cbn [peek advance] in *.
      simpl in Hp. apply andb_prop in Hp as [_ Hp'].
      destruct (match_pathname_rec_name (n + 1) p q flags Hn Hq Hp')
        as [[R1 E1]|[R1 N1]]; rewrite R1;
        cbn [is_failure search_matched_eqb negb].
      * split; [|left; reflexivity]. split; [|reflexivity]. intros _.
        right. exists c. split; [exact Ef|]. rewrite E1. reflexivity.
      * rewrite R0. split; [|right; reflexivity]. split; [discriminate|].
        intros [Heq|[c' [_ Heq]]]; [contradiction|].
        injection Heq as _ Heq. contradiction.
    + rewrite R0. split; [|right; reflexivity]. split; [discriminate|].
      intros [Heq|[c' [Hc' Heq]]]; [contradiction|].
      subst p. cbn [peek] in Ef. rewrite Hc' in Ef. discriminate Ef.
Qed.

Lemma question_mark_then_name_witness :
  __match_pathname 0 "a.c" "?.c" 0 = SEARCH_MATCH_SUCCESS
  <-> "a.c" = ".c" \/ exists c, is_filename c = true /\ "a.c" = String c ".c".
Proof.
  apply (question_mark_then_name 0 "a.c" ".c" 0);
    [unfold MATCH_DEPTH; lia|reflexivity|reflexivity].
Defined.








(** A star followed by a slash makes every path of one component a
    partial match, whatever follows the slash in the pattern: this is
    what sends the walker into every directory for such a pattern. *)
Theorem star_slash_is_partial (n : Z) (p rest : string) (flags : Z)
  (Hn : n + 1 < MATCH_DEPTH) (Hp : cstring p = true)
  (Hs : slash_free p = true) :
  __match_pathname n p (String "*" (String "/" rest)) flags
  = SEARCH_MATCH_PARTIAL.
Proof.
  unfold __match_pathname.
  destruct (n >=? MATCH_DEPTH) eqn:E; [apply Z.geb_le in E; lia|].
  rewrite match_loop_star.
  assert (Hat : forall q,
             __match_pathname (n + 1) q (String "/" rest) flags
             = if (peek q =? NUL)%char then SEARCH_MATCH_PARTIAL
               else if (peek q =? "/")%char
                    then match_loop (n + 1) (advance q) rest flags
                    else SEARCH_MATCH_FAILURE).
  { intro q. unfold __match_pathname.
    destruct (n + 1 >=? MATCH_DEPTH) eqn:E1; [apply Z.geb_le in E1; lia|].
    cbn [match_loop]. change ("/" =? NUL)%char with false.
    change ("/" =? "*")%char with false. change ("/" =? "?")%char with false.
    change ("/" =? "[")%char with false. change ("/" =? "|")%char with false.
    change ("/" =? "/")%char with true. cbn [andb orb].
    destruct (peek q =? NUL)%char; reflexivity. }
  induction p as [|d p IH]; rewrite star_loop_unfold, Hat.
  - reflexivity.
  - simpl in Hp, Hs. apply andb_prop in Hp as [Hd Hp].
    apply andb_prop in Hs as [Hsl Hs]. cbn [peek].
    apply negb_true_iff in Hd, Hsl. rewrite Hd, Hsl.
    cbn [is_failure search_matched_eqb negb].
    unfold is_filename. rewrite Hd, Hsl. cbn [negb andb].
    apply IH; assumption.
Qed.

Lemma star_slash_is_partial_witness :
  __match_pathname 0 "include" "*/stdio.h" 0 = SEARCH_MATCH_PARTIAL.
Proof.
  apply (star_slash_is_partial 0 "include" "stdio.h" 0);
    [unfold MATCH_DEPTH; lia|reflexivity|reflexivity].
Defined.

(** * The flags that the search does not consult *)

Lemma star_loop_ext (a a' : string -> search_matched) :
  (forall p, a p = a' p) -> forall p, star_loop a p = star_loop a' p.
Proof.
  intros H p. induction p as [|d p IH];
    rewrite (star_loop_unfold a), (star_loop_unfold a'), H; [reflexivity|].
  rewrite IH. reflexivity.
Qed.

Lemma match_loop_flags (pattern : string) :
  forall (n : Z) (p : string) (fl fl' : Z),
    match_loop n p pattern fl = match_loop n p pattern fl'.
Proof.
  induction pattern as [|c pattern IH]; intros n p fl fl'; [reflexivity|].
  cbn [match_loop].
  destruct (c =? NUL)%char; [reflexivity|].
  destruct (c =? "*")%char.
  { apply star_loop_ext. intro q.
    destruct (n + 1 >=? MATCH_DEPTH); [reflexivity|apply IH]. }
  rewrite (IH n p fl fl'), (IH (n + 1) (advance p) fl fl'),
    (IH n (advance p) fl fl').
  reflexivity.
Qed.

Lemma match_pathname_rec_flags (n : Z) (p pattern : string) (fl fl' : Z) :
  __match_pathname n p pattern fl = __match_pathname n p pattern fl'.
Proof.
  unfold __match_pathname. rewrite (match_loop_flags pattern n p fl fl').
  reflexivity.
Qed.

Lemma match_alternatives_flags (path : string) (patts : list string)
  (fl fl' : Z) :
  match_alternatives path patts fl = match_alternatives path patts fl'.
Proof.
  induction patts as [|patt patts IH]; [reflexivity|].
  cbn [match_alternatives].
  rewrite (match_pathname_rec_flags 0 path patt fl fl'),
    (match_pathname_rec_flags 0 (advance path) patt fl fl'), IH.
  reflexivity.
Qed.

Lemma match_pathname_flags (pathname pattern : string) (fl fl' : Z) :
  match_pathname pathname pattern fl = match_pathname pathname pattern fl'.
Proof.
  unfold match_pathname.
  replace (match_boundaries (boundaries pathname) (alternatives pattern) fl)
    with (match_boundaries (boundaries pathname) (alternatives pattern) fl');
    [reflexivity|].
  induction (boundaries pathname) as [|b bs IH]; [reflexivity|].
  cbn [match_boundaries].
  rewrite (match_alternatives_flags b (alternatives pattern) fl' fl), IH.
  reflexivity.
Qed.

Lemma same_but_flags_refl (ds : dir_search) (fl' : Z) :
  same_consulted_flags (flags ds) fl' -> same_but_flags ds (set_flags ds fl').
Proof. intro H. exists fl'. split; [reflexivity|exact H]. Qed.

(** Closes a goal that two outcomes written out are the same but for
    the flags [fl'], which agree by [Hag]. *)
Ltac same_flags fl' Hag :=
  split; [reflexivity|split; [reflexivity|]]; cbn [fst snd];
  exists fl'; split; [reflexivity|exact Hag].

(** Unpacks a pair of related outcomes into their components. *)
Ltac related H x y :=
  let a := fresh "a" in let d := fresh "d" in let u := fresh "u" in
  let a' := fresh "a'" in let d' := fresh "d'" in let u' := fresh "u'" in
  let Ha := fresh "Ha" in let Hu := fresh "Hu" in let Hd := fresh "Hd" in
  destruct x as [[a d] u]; destruct y as [[a' d'] u'];
  destruct H as [Ha [Hu Hd]];
  cbn [fst snd] in Ha, Hu, Hd; subst a' u'.

Section ConsultedFlags.

Variable K : kernel.

Lemma copy_search_result_same (ds ds' : dir_search) (w : world)
  (p : string) (stat : kstat) :
  same_but_flags ds ds' ->
  same_run (copy_search_result K ds w p stat)
           (copy_search_result K ds' w p stat).
Proof.
  intros [fl' [-> Hag]]. unfold copy_search_result, encode.
  cbn [flags len next set_flags].
  assert (Hag' := Hag). destruct Hag' as [Hs [Hm Hi]]. rewrite <- Hm.
  case_if.
  - destruct (copy_to_user K (umem w) (next ds) _) as [un m].
    case_if; same_flags fl' Hag.
  - same_flags fl' Hag.
Qed.

(** Steps through a call made on both sides, by the lemma for the
    callee; the states come out as [d] and [set_flags d fl1]. *)
Ltac scrutinee x :=
  match x with
  | match ?x' with _ => _ end => scrutinee x'
  | _ => x
  end.

Ltac step_call lemma fl1 Hag1 :=
  match goal with
  | |- same_run (match ?x with _ => _ end) (match ?y with _ => _ end) =>
      let x := scrutinee x in
      let y := scrutinee y in
      let H := fresh "H" in
      assert (H : same_run x y)
        by (apply lemma; eexists; split; [reflexivity|eassumption]);
      related H x y;
      match goal with
      | Hd : same_but_flags _ _ |- _ => destruct Hd as [fl1 [-> Hag1]]
      end
  end.

Lemma report_entry_same (f : file) (entry : string) (ds ds' : dir_search)
  (w : world) :
  same_but_flags ds ds' ->
  same_run (report_entry K f entry ds w) (report_entry K f entry ds' w).
Proof.
  intros [fl' [-> Hag]]. unfold report_entry.
  cbn [flags status path set_flags set_status].
  assert (Hag' := Hag). destruct Hag' as [Hs [Hm Hi]].
  rewrite <- Hm.
  case_if; [same_flags fl' Hag|].
  destruct (flag_set (flags ds) SEARCH_METADATA) eqn:Em;
    cbn [flags status path set_flags set_status];
    (case_if; [same_flags fl' Hag|]); rewrite <- Hi.
  - destruct (flag_set (flags ds) SEARCH_INCLUDEROOT);
      step_call copy_search_result_same fl1 Hag1;
      cbn [flags status results set_flags set_status set_results];
      rewrite <- (proj1 Hag1); repeat case_if; same_flags fl1 Hag1.
  - destruct (flag_set (flags ds) SEARCH_INCLUDEROOT);
      step_call copy_search_result_same fl1 Hag1;
      cbn [flags status results set_flags set_status set_results];
      rewrite <- (proj1 Hag1); repeat case_if; same_flags fl1 Hag1.
Qed.

Ltac fields :=
  cbn [flags status path base pattern results ds_isrecursive ds_ispattern
       next len buf set_flags set_status set_path set_base set_results
       set_pattern set_next set_len].

Lemma scan_entry_same
  (self : dir_search -> world -> Z * dir_search * world)
  (f : file) (dir : Z) (de : ascii * string) (ds ds' : dir_search)
  (w : world) :
  same_self self -> same_but_flags ds ds' ->
  same_run (scan_entry K self f dir de ds w)
           (scan_entry K self f dir de ds' w).
Proof.
  intros Hself [fl' [-> Hag]]. unfold scan_entry, descends.
  destruct de as [type entry]. fields.
  rewrite (match_pathname_flags _ _ fl' (flags ds)).
  destruct (match_pathname _ _ _) eqn:Eh; fields.
  1, 2, 4:
    case_if;
    [step_call Hself fl1 Hag1; fields; rewrite <- (proj1 Hag1);
     repeat case_if; same_flags fl1 Hag1
    |same_flags fl' Hag].
  step_call report_entry_same fl0 Hag0.
  destruct a; [|same_flags fl0 Hag0]. fields.
  case_if;
    [step_call Hself fl1 Hag1; fields; rewrite <- (proj1 Hag1);
     repeat case_if; same_flags fl1 Hag1
    |same_flags fl0 Hag0].
Qed.

Lemma scan_entries_same
  (self : dir_search -> world -> Z * dir_search * world)
  (f : file) (dir : Z) (entries : list (ascii * string)) :
  same_self self ->
  forall ds ds' w, same_but_flags ds ds' ->
    same_run (scan_entries K self f dir entries ds w)
             (scan_entries K self f dir entries ds' w).
Proof.
  intro Hself. induction entries as [|de entries IH]; intros ds ds' w Hds.
  - destruct Hds as [fl' [-> Hag]]. same_flags fl' Hag.
  - cbn [scan_entries].
    pose proof (scan_entry_same self f dir de ds ds' w Hself Hds) as H.
    related H (scan_entry K self f dir de ds w)
              (scan_entry K self f dir de ds' w).
    destruct a; [apply IH; exact Hd|].
    destruct Hd as [fl1 [-> Hag1]]. same_flags fl1 Hag1.
Qed.

Lemma readdir_loop_same
  (self : dir_search -> world -> Z * dir_search * world)
  (f : file) (calls : list (list (string * Z) * Z)) :
  same_self self ->
  forall ds ds' w, same_but_flags ds ds' ->
    same_listing (readdir_loop K self f calls ds w)
                 (readdir_loop K self f calls ds' w).
Proof.
  intro Hself. induction calls as [|[offered r] calls IH];
    intros ds ds' w [fl' [-> Hag]].
  - split; [reflexivity|]. exists fl'. split; [reflexivity|exact Hag].
  - cbn [readdir_loop]. fields.
    case_if; [split; [reflexivity|]; exists fl'; split;
              [reflexivity|exact Hag]|].
    destruct (fst (vfs_readdir offered ([], 0))) as [|de entries] eqn:El;
      [split; [reflexivity|]; exists fl'; split; [reflexivity|exact Hag]|].
    assert (H : same_run
                  (scan_entries K self f (strlen (path ds)) (de :: entries)
                     (set_status ds r) w)
                  (scan_entries K self f (strlen (path ds)) (de :: entries)
                     (set_status (set_flags ds fl') r) w))
      by (apply scan_entries_same; [exact Hself|];
          exists fl'; split; [reflexivity|exact Hag]).
    related H (scan_entries K self f (strlen (path ds)) (de :: entries)
                 (set_status ds r) w)
              (scan_entries K self f (strlen (path ds)) (de :: entries)
                 (set_status (set_flags ds fl') r) w).
    destruct a; [apply IH; exact Hd|].
    split; [reflexivity|exact Hd].
Qed.

Lemma search_opened_same
  (self : dir_search -> world -> Z * dir_search * world)
  (f : file) (ds ds' : dir_search) (w : world) :
  f_search f = None -> same_self self -> same_but_flags ds ds' ->
  same_run (search_opened K self f ds w) (search_opened K self f ds' w).
Proof.
  intros Hnone Hself [fl' [-> Hag]]. unfold search_opened.
  destruct (f_abspath f) as [s|e]; [|same_flags fl' Hag].
  rewrite Hnone. fields.
  match goal with
  | |- same_run (let '(_, _) := readdir_loop K self f _ ?d w in _)
                (let '(_, _) := readdir_loop K self f _ ?d' w in _) =>
      pose proof (readdir_loop_same self f (f_readdir f) Hself d d' w) as H;
      destruct (readdir_loop K self f (f_readdir f) d w) as [d1 w1];
      destruct (readdir_loop K self f (f_readdir f) d' w) as [d1' w1']
  end.
  destruct H as [Hw Hd].
  { case_if; exists fl'; (split; [reflexivity|exact Hag]). }
  cbn [fst snd] in Hw, Hd. subst w1'.
  split; [reflexivity|split; [reflexivity|exact Hd]].
Qed.

Lemma search_directory_at_same
  (self : dir_search -> world -> Z * dir_search * world)
  (ds ds' : dir_search) (w : world) :
  no_native_search K -> same_self self -> same_but_flags ds ds' ->
  same_run (search_directory_at K self ds w)
           (search_directory_at K self ds' w).
Proof.
  intros Hnone Hself [fl' [-> Hag]]. unfold search_directory_at. fields.
  destruct (filp_open K (path ds)) as [f|e] eqn:Eo.
  - assert (H : same_run
                  (search_opened K self f (set_status ds 0)
                     (record_event w (Opened (path ds) (List.length (trace w)))))
                  (search_opened K self f (set_status (set_flags ds fl') 0)
                     (record_event w (Opened (path ds) (List.length (trace w))))))
      by (apply search_opened_same;
          [exact (Hnone _ _ Eo)|exact Hself|];
          exists fl'; split; [reflexivity|exact Hag]).
    related H (search_opened K self f (set_status ds 0)
                 (record_event w (Opened (path ds) (List.length (trace w)))))
              (search_opened K self f (set_status (set_flags ds fl') 0)
                 (record_event w (Opened (path ds) (List.length (trace w))))).
    destruct Hd as [fl1 [-> Hag1]].
    destruct a; same_flags fl1 Hag1.
  - case_if; same_flags fl' Hag.
Qed.

Lemma search_directory_rem_same (Hnone : no_native_search K) (rem : nat) :
  same_self (search_directory_rem K rem).
Proof.
  induction rem as [|rem IH]; intros ds ds' w Hds.
  - destruct Hds as [fl' [-> Hag]]. same_flags fl' Hag.
  - apply search_directory_at_same; assumption.
Qed.

Lemma search_literal_same (ds ds' : dir_search) (w : world) :
  same_but_flags ds ds' ->
  same_run (search_literal K ds w) (search_literal K ds' w).
Proof.
  intros [fl' [-> Hag]]. unfold search_literal. fields.
  destruct (kern_path K (path ds)) as [st p0].
  case_if; [same_flags fl' Hag|].
  case_if; [same_flags fl' Hag|]. fields.
  case_if; [same_flags fl' Hag|].
  case_if; [same_flags fl' Hag|].
  rewrite <- (proj1 (proj2 Hag)).
  destruct (if flag_set (flags ds) SEARCH_METADATA then _ else _) as [st1 stat].
  case_if; [same_flags fl' Hag|].
  rewrite <- (proj2 (proj2 Hag)).
  destruct (flag_set (flags ds) SEARCH_INCLUDEROOT);
    step_call copy_search_result_same fl1 Hag1; fields;
    rewrite <- (proj1 Hag1); repeat case_if; same_flags fl1 Hag1.
Qed.

Lemma search_root_same (c : string) (ds ds' : dir_search) (w : world) :
  no_native_search K -> same_but_flags ds ds' ->
  same_run (search_root K c ds w) (search_root K c ds' w).
Proof.
  intros Hnone [fl' [-> Hag]]. unfold search_root, search_directory. fields.
  case_if.
  - step_call (search_directory_rem_same Hnone) fl1 Hag1. fields.
    rewrite <- (proj1 Hag1). repeat case_if; same_flags fl1 Hag1.
  - apply search_literal_same. exists fl'. split; [reflexivity|exact Hag].
Qed.

Lemma search_roots_same (Hnone : no_native_search K) (roots : list string) :
  forall ds ds' w, same_but_flags ds ds' ->
    same_run (search_roots K roots ds w) (search_roots K roots ds' w).
Proof.
  induction roots as [|c roots IH]; intros ds ds' w Hds.
  - destruct Hds as [fl' [-> Hag]]. same_flags fl' Hag.
  - cbn [search_roots].
    pose proof (search_root_same c ds ds' w Hnone Hds) as H.
    related H (search_root K c ds w) (search_root K c ds' w).
    destruct a; [apply IH; exact Hd| |];
      (split; [reflexivity|split; [reflexivity|exact Hd]]).
Qed.

(** The outcome of a search depends on the flags only through the bits
    SEARCH_STOPATFIRST, SEARCH_METADATA and SEARCH_INCLUDEROOT, as long
    as no directory has a native search (which is handed the flags):
    two calls whose flags agree on these three bits return the same
    value and leave the same user memory and the same trace. *)
Theorem other_flags_are_inert (w : world) (u_paths u_pattern : Z)
  (fl fl' : Z) (b ln : Z)
  (Hnone : no_native_search K) (Hag : same_consulted_flags fl fl') :
  sys_search K w u_paths u_pattern fl b ln
  = sys_search K w u_paths u_pattern fl' b ln.
Proof.
  unfold sys_search.
  case_if; [reflexivity|]. case_if; [reflexivity|].
  destruct (getname K u_paths) as [ds_paths|e]; [|reflexivity].
  destruct (getname K u_pattern) as [ds_pattern|e]; [|reflexivity].
  fields. case_if; [reflexivity|].
  match goal with
  | |- match search_roots K ?r ?d w with _ => _ end
       = match search_roots K ?r ?d' w with _ => _ end =>
      assert (H : same_run (search_roots K r d w) (search_roots K r d' w))
        by (apply (search_roots_same Hnone); exists fl';
            case_if; (split; [reflexivity|exact Hag]));
      destruct (search_roots K r d w) as [[a d1] w1];
      destruct (search_roots K r d' w) as [[a' d1'] w1']
  end.
  destruct H as [Ha [Hw Hd]]. cbn [fst snd] in Ha, Hw, Hd. subst a' w1'.
  destruct Hd as [fl1 [-> Hag1]]. fields. reflexivity.
Qed.

End ConsultedFlags.

Lemma other_flags_are_inert_witness :
  sys_search (sample_kernel "/r" "*" two_files []) blank 0 1 0 100 64
  = sys_search (sample_kernel "/r" "*" two_files []) blank 0 1
      (Z.lor SEARCH_PERIOD (Z.lor SEARCH_R_OK SEARCH_X_OK)) 100 64.
Proof.
  apply (other_flags_are_inert (sample_kernel "/r" "*" two_files []) blank
           0 1 0 (Z.lor SEARCH_PERIOD (Z.lor SEARCH_R_OK SEARCH_X_OK)) 100 64).
  - apply two_files_no_native.
  - repeat split.
Defined.

(** * The path is handed back as it was found *)

Lemma terminate_at_append (p t : string) :
  terminate_at (p ++ t) (strlen p) = p.
Proof.
  unfold terminate_at, strlen. rewrite Nat2Z.id.
  induction p as [|c p IH]; [destruct t; reflexivity|].
  cbn [append String.length substring]. rewrite IH. reflexivity.
Qed.

Lemma copy_search_result_steering (K : kernel) (ds : dir_search) (w : world)
  (p : string) (stat : kstat) (r : Z) (ds1 : dir_search) (w1 : world) :
  copy_search_result K ds w p stat = (r, ds1, w1) ->
  results ds1 = results ds /\ path ds1 = path ds /\ flags ds1 = flags ds.
Proof.
  intro E.
  destruct (copy_search_result_cases K ds w p stat r ds1 w1 E)
    as [[_ [_ [-> _]]]|[[_ [_ [-> _]]]|[_ [_ [-> _]]]]];
    repeat split.
Qed.

Lemma report_entry_path (K : kernel) (f : file) (entry : string)
  (ds : dir_search) (w : world) (c : ctl) (ds' : dir_search) (w' : world) :
  0 <= results ds ->
  report_entry K f entry ds w = (c, ds', w') -> path_kept ds c ds'.
Proof.
  intro Hres. unfold report_entry, path_kept.
  case_if.
  { intros [= <- <- <-]. split; [exact Hres|]. left.
    apply negb_true_iff, Z.eqb_neq in Heqb. exact Heqb. }
  destruct (if flag_set _ SEARCH_METADATA then _ else _) as [ds2 stat] eqn:E2.
  assert (H2 : results ds2 = results ds /\ path ds2 = path ds)
    by (revert E2; case_if; intros [= <- <-]; split; reflexivity).
  destruct H2 as [Hr2 Hp2].
  case_if.
  { intros [= <- <- <-]. split; [lia|]. left.
    apply negb_true_iff, Z.eqb_neq in Heqb0. exact Heqb0. }
  destruct (if flag_set _ SEARCH_INCLUDEROOT then _ else _)
    as [[r ds3] w3] eqn:E3.
  assert (H3 : results ds3 = results ds2 /\ path ds3 = path ds2
               /\ flags ds3 = flags ds2)
    by (revert E3; case_if; intro E3;
        apply copy_search_result_steering in E3; exact E3).
  destruct H3 as [Hr3 [Hp3 Hf3]].
  cbn [status set_status flags results set_results].
  case_if.
  { intros [= <- <- <-]. cbn [results status set_status]. split; [lia|].
    left. apply negb_true_iff, Z.eqb_neq in Heqb1. exact Heqb1. }
  case_if; intros [= <- <- <-];
    cbn [results path status set_status set_results]; (split; [lia|]).
  - right. unfold going_on. cbn [results flags set_results set_status].
    rewrite Heqb2, andb_true_r.
    replace (results ds3 + 1 >? 0) with true; [reflexivity|].
    symmetry. rewrite Z.gtb_ltb. apply Z.ltb_lt. lia.
  - congruence.
Qed.

Lemma scan_entry_path (K : kernel)
  (self : dir_search -> world -> Z * dir_search * world)
  (f : file) (de : ascii * string) (ds : dir_search) (w : world)
  (c : ctl) (ds' : dir_search) (w' : world) :
  restores_path self -> 0 <= results ds ->
  scan_entry K self f (strlen (path ds)) de ds w = (c, ds', w') ->
  path_kept ds c ds'.
Proof.
  intros Hself Hres. unfold scan_entry. destruct de as [type entry].
  set (ds1 := set_path ds (path ds ++ "/" ++ entry)).
  destruct (match match_pathname _ _ _ with
            | SEARCH_MATCH_SUCCESS => _
            | _ => _
            end) as [[c1 ds2] w2] eqn:E1.
  assert (H1 : path_kept ds1 c1 ds2).
  { revert E1. destruct (match_pathname _ _ _);
      try (intros [= <- <- <-]; split; [exact Hres|reflexivity]).
    apply report_entry_path. exact Hres. }
  destruct H1 as [Hr2 Hc1].
  destruct c1; [|intros [= <- <- <-]; split; [exact Hr2|exact Hc1]].
  change (path ds1) with (path ds ++ "/" ++ entry) in Hc1.
  case_if.
  - destruct (self ds2 w2) as [[r ds3] w3] eqn:E3.
    destruct (Hself _ _ _ _ _ Hr2 E3) as [Hr3 Hp3].
    cbn [status set_status results flags].
    case_if.
    { intros [= <- <- <-]. cbn [results status set_status].
      split; [exact Hr3|]. left.
      apply negb_true_iff, Z.eqb_neq in Heqb0. exact Heqb0. }
    apply negb_false_iff, Z.eqb_eq in Heqb0. subst r.
    case_if; intros [= <- <- <-];
      cbn [results path status set_status set_path]; (split; [exact Hr3|]).
    + right. unfold going_on. cbn [results flags set_status].
      rewrite Heqb0. reflexivity.
    + rewrite Hp3, Hc1; [apply terminate_at_append|reflexivity|].
      unfold going_on. rewrite Heqb0. reflexivity.
  - intros [= <- <- <-]. cbn [results path set_path].
    split; [exact Hr2|]. rewrite Hc1. apply terminate_at_append.
Qed.

Lemma scan_entries_path (K : kernel)
  (self : dir_search -> world -> Z * dir_search * world)
  (f : file) (entries : list (ascii * string)) :
  restores_path self ->
  forall ds w c ds' w',
    0 <= results ds ->
    scan_entries K self f (strlen (path ds)) entries ds w = (c, ds', w') ->
    path_kept ds c ds'.
Proof.
  intro Hself. induction entries as [|de entries IH];
    intros ds w c ds' w' Hres.
  - intros [= <- <- <-]. split; [exact Hres|reflexivity].
  - cbn [scan_entries].
    destruct (scan_entry K self f (strlen (path ds)) de ds w)
      as [[c1 ds1] w1] eqn:E1.
    destruct (scan_entry_path K _ _ _ _ _ _ _ _ Hself Hres E1) as [Hr1 Hc1].
    destruct c1; [|intros [= <- <- <-]; split; assumption].
    rewrite <- Hc1. intro E2.
    destruct (IH _ _ _ _ _ Hr1 E2) as [Hr2 Hc2].
    split; [exact Hr2|]. destruct c; [congruence|exact Hc2].
Qed.

Lemma readdir_loop_path (K : kernel)
  (self : dir_search -> world -> Z * dir_search * world)
  (f : file) (calls : list (list (string * Z) * Z)) :
  restores_path self ->
  forall ds w ds' w',
    0 <= results ds ->
    readdir_loop K self f calls ds w = (ds', w') ->
    0 <= results ds'
    /\ (status ds' = 0 -> going_on ds' = true -> path ds' = path ds).
Proof.
  intro Hself. induction calls as [|[offered r] calls IH];
    intros ds w ds' w' Hres.
  - intros [= <- <-]. split; [exact Hres|reflexivity].
  - cbn [readdir_loop]. cbn [status set_status].
    case_if.
    { intros [= <- <-]. split; [exact Hres|]. intros Hs _.
      cbn [status set_status] in Hs.
      apply negb_true_iff, Z.eqb_neq in Heqb. contradiction. }
    destruct (fst (vfs_readdir offered ([], 0))) as [|de entries];
      [intros [= <- <-]; split; [exact Hres|reflexivity]|].
    change (path (set_status ds r)) with (path ds).
    destruct (scan_entries K self f (strlen (path ds)) (de :: entries)
                (set_status ds r) w) as [[c1 ds1] w1] eqn:E1.
    destruct (scan_entries_path K self f (de :: entries) Hself
                (set_status ds r) w c1 ds1 w1 Hres E1) as [Hr1 Hc1].
    destruct c1.
    + intro E2. destruct (IH _ _ _ _ Hr1 E2) as [Hr2 Hp2].
      split; [exact Hr2|]. intros Hs Hg. rewrite (Hp2 Hs Hg). exact Hc1.
    + intros [= <- <-]. split; [exact Hr1|]. intros Hs Hg.
      destruct Hc1 as [Hc1|Hc1]; [contradiction|].
      rewrite Hc1 in Hg. discriminate Hg.
Qed.

Lemma search_directory_rem_path (K : kernel) (Hcan : canonical K)
  (Hnone : no_native_search K) (rem : nat) :
  restores_path (search_directory_rem K rem).
Proof.
  induction rem as [|rem IH]; intros ds w st ds' w' Hres.
  - intros [= <- <- <-]. split; [exact Hres|reflexivity].
  - cbn [search_directory_rem]. unfold search_directory_at.
    cbn [path set_status].
    destruct (filp_open K (path ds)) as [f|e] eqn:Eo.
    + unfold search_opened. rewrite (Hnone _ _ Eo).
      destruct (f_abspath f) as [s|e] eqn:Ea.
      * rewrite (Hcan _ _ _ Eo Ea).
        set (ds1 := if base _ =? 0 then _ else _).
        assert (H1 : results ds1 = results ds /\ path ds1 = path ds)
          by (unfold ds1; destruct (base _ =? 0); split; reflexivity).
        destruct H1 as [Hr1 Hp1].
        destruct (readdir_loop K _ f (f_readdir f) ds1 _) as [ds2 w2] eqn:E.
        apply (readdir_loop_path K _ f _ IH) in E; [|lia].
        destruct E as [Hr2 Hp2]. intros [= <- <- <-].
        split; [exact Hr2|]. intros Hs Hg. rewrite (Hp2 Hs Hg). exact Hp1.
      * intros [= <- <- <-]. cbn [results status set_status].
        split; [exact Hres|]. unfold PTR_ERR. intros Hs. discriminate Hs.
    + case_if; intros [= <- <- <-]; cbn [results path set_status];
        (split; [exact Hres|reflexivity]).
Qed.

(** Sibling isolation: on a file system where the canonical path of an
    opened directory is the path it was opened by, and without native
    search, a call of the walker that returns 0 while the search goes
    on (it has not been stopped at a first match) hands [path] back as
    it found it, however deep the call went; the entries that follow in
    the listing of the caller are then built on the path of the
    caller's directory.  The count of matches is never negative. *)
Theorem walker_restores_path (K : kernel) (ds : dir_search) (w : world)
  (n : Z)
  (Hcan : canonical K) (Hnone : no_native_search K)
  (Hres : 0 <= results ds)
  (Hok : fst (fst (search_directory K ds w n)) = 0)
  (Hgo : going_on (snd (fst (search_directory K ds w n))) = true) :
  path (snd (fst (search_directory K ds w n))) = path ds
  /\ 0 <= results (snd (fst (search_directory K ds w n))).
Proof.
  unfold search_directory in *.
  destruct (search_directory_rem K (Z.to_nat (TREE_DEPTH - n)) ds w)
    as [[st ds'] w'] eqn:E.
  cbn [fst snd] in *.
  destruct (search_directory_rem_path K Hcan Hnone _ _ _ _ _ _ Hres E)
    as [Hr Hp].
  split; [apply Hp; assumption|exact Hr].
Qed.

Lemma walker_restores_path_witness :
  path (snd (fst (search_directory
                    (sample_kernel "/r" "*.txt" nested_tree [])
                    (mk_dir_search 0 0 "*.txt" 0 1000 1000 100 1 1 0 "/r")
                    blank 0)))
  = path (mk_dir_search 0 0 "*.txt" 0 1000 1000 100 1 1 0 "/r")
  /\ 0 <= results (snd (fst (search_directory
                               (sample_kernel "/r" "*.txt" nested_tree [])
                               (mk_dir_search 0 0 "*.txt" 0 1000 1000 100
                                  1 1 0 "/r")
                               blank 0))).
Proof.
  apply (walker_restores_path (sample_kernel "/r" "*.txt" nested_tree [])
           (mk_dir_search 0 0 "*.txt" 0 1000 1000 100 1 1 0 "/r") blank 0).
  - intros p f s Ho Ha.
    unfold sample_kernel, filp_open, nested_tree in Ho. simpl in Ho.
    destruct (p =? "/r")%string eqn:E1;
      [injection Ho as <-; apply String.eqb_eq in E1; subst p;
       injection Ha as <-; reflexivity|].
    destruct (p =? "/r/sub")%string eqn:E2;
      [injection Ho as <-; apply String.eqb_eq in E2; subst p;
       injection Ha as <-; reflexivity|].
    discriminate Ho.
  - intros p f Ho.
    unfold sample_kernel, filp_open, nested_tree in Ho. simpl in Ho.
    destruct (p =? "/r")%string; [injection Ho as <-; reflexivity|].
    destruct (p =? "/r/sub")%string; [injection Ho as <-; reflexivity|].
    discriminate Ho.
  - simpl. lia.
  - vm_compute. reflexivity.
  - vm_compute. reflexivity.
Defined.

(** * A rule for the conditions that a walk keeps

    A condition on the state of the search and on the world that does
    not depend on the fields that steer the walk, that survives the
    events of the walk and that the encoder keeps, is kept by the walk
    and by the loop over the roots, whatever statuses the collaborators
    return.  Directories have no native search here. *)

Ltac steer H :=
  eapply H; [eassumption|repeat split; reflexivity].

Section WalkInvariant.

Variable K : kernel.
Variable I : dir_search -> world -> Prop.

Hypothesis Hnone : no_native_search K.

Hypothesis I_steer : forall ds ds' w,
  I ds w -> same_cursor ds ds' -> I ds' w.
Hypothesis I_event : forall ds w e,
  I ds w -> is_emitted e = false -> I ds (record_event w e).
Hypothesis I_emit : forall ds w p stat r ds1 w1,
  I ds w -> copy_search_result K ds w p stat = (r, ds1, w1) -> I ds1 w1.

Lemma keeps_report_entry (f : file) (entry : string) (ds : dir_search)
  (w : world) (c : ctl) (ds' : dir_search) (w' : world) :
  I ds w -> report_entry K f entry ds w = (c, ds', w') -> I ds' w'.
Proof.
  intro Hi. unfold report_entry.
  case_if; [intros [= <- <- <-]; steer I_steer|].
  destruct (if flag_set _ SEARCH_METADATA then _ else _) as [ds2 stat] eqn:E2.
  assert (Hi2 : I ds2 w)
    by (revert E2; case_if; intros [= <- <-]; steer I_steer).
  case_if; [intros [= <- <- <-]; exact Hi2|].
  destruct (if flag_set _ SEARCH_INCLUDEROOT then _ else _)
    as [[r ds3] w3] eqn:E3.
  assert (Hi3 : I ds3 w3)
    by (revert E3; case_if; intro E3; eapply I_emit; eassumption).
  repeat case_if; intros [= <- <- <-]; steer I_steer.
Qed.

Lemma keeps_scan_entry
  (self : dir_search -> world -> Z * dir_search * world)
  (f : file) (dir : Z) (de : ascii * string)
  (ds : dir_search) (w : world) (c : ctl) (ds' : dir_search) (w' : world) :
  keeps I self -> I ds w ->
  scan_entry K self f dir de ds w = (c, ds', w') -> I ds' w'.
Proof.
  intros Hself Hi. unfold scan_entry. destruct de as [type entry].
  set (ds1 := set_path ds (path ds ++ "/" ++ entry)).
  assert (Hi1 : I ds1 w) by steer I_steer.
  destruct (match match_pathname _ _ _ with
            | SEARCH_MATCH_SUCCESS => _
            | _ => _
            end) as [[c1 ds2] w2] eqn:E1.
  assert (Hi2 : I ds2 w2).
  { revert E1. destruct (match_pathname _ _ _);
      try (intros [= <- <- <-]; exact Hi1).
    apply keeps_report_entry. exact Hi1. }
  destruct c1; [|intros [= <- <- <-]; exact Hi2].
  case_if; [|intros [= <- <- <-]; steer I_steer].
  destruct (self ds2 w2) as [[r ds3] w3] eqn:E3.
  pose proof (Hself _ _ _ _ _ Hi2 E3) as Hi3.
  repeat case_if; intros [= <- <- <-]; steer I_steer.
Qed.

Lemma keeps_scan_entries
  (self : dir_search -> world -> Z * dir_search * world)
  (f : file) (dir : Z) (entries : list (ascii * string)) :
  keeps I self ->
  forall (ds : dir_search) (w : world) (c : ctl) (ds' : dir_search)
         (w' : world),
    I ds w -> scan_entries K self f dir entries ds w = (c, ds', w') ->
    I ds' w'.
Proof.
  intro Hself.
  induction entries as [|de entries IH]; intros ds w c ds' w' Hi.
  - intros [= <- <- <-]. exact Hi.
  - cbn [scan_entries].
    destruct (scan_entry K self f dir de ds w) as [[c1 ds1] w1] eqn:E1.
    pose proof (keeps_scan_entry _ _ _ _ _ _ _ _ _ Hself Hi E1) as Hi1.
    destruct c1; [apply IH; exact Hi1|intros [= <- <- <-]; exact Hi1].
Qed.

Lemma keeps_readdir_loop
  (self : dir_search -> world -> Z * dir_search * world)
  (f : file) (calls : list (list (string * Z) * Z)) :
  keeps I self ->
  forall (ds : dir_search) (w : world) (ds' : dir_search) (w' : world),
    I ds w -> readdir_loop K self f calls ds w = (ds', w') -> I ds' w'.
Proof.
  intro Hself.
  induction calls as [|[offered r] calls IH]; intros ds w ds' w' Hi.
  - intros [= <- <-]. steer I_steer.
  - cbn [readdir_loop].
    assert (Hi1 : I (set_status ds r) w) by steer I_steer.
    case_if; [intros [= <- <-]; exact Hi1|].
    destruct (fst (vfs_readdir offered ([], 0))) as [|de entries];
      [intros [= <- <-]; exact Hi1|].
    destruct (scan_entries K self f _ (de :: entries) (set_status ds r) w)
      as [[c1 ds1] w1] eqn:E1.
    pose proof (keeps_scan_entries _ _ _ _ Hself _ _ _ _ _ Hi1 E1) as Hi2.
    destruct c1; [apply IH; exact Hi2|intros [= <- <-]; exact Hi2].
Qed.

Lemma keeps_search_opened
  (self : dir_search -> world -> Z * dir_search * world)
  (f : file) (ds : dir_search) (w : world) (lbl : label)
  (ds' : dir_search) (w' : world) :
  keeps I self -> f_search f = None -> I ds w ->
  search_opened K self f ds w = (lbl, ds', w') -> I ds' w'.
Proof.
  intros Hself Hf Hi. unfold search_opened. rewrite Hf.
  destruct (f_abspath f) as [s|e]; [|intros [= <- <- <-]; steer I_steer].
  set (ds1 := if base (set_status (set_path ds s) 0) =? 0 then _ else _).
  assert (Hi1 : I ds1 w)
    by (unfold ds1; destruct (base _ =? 0); steer I_steer).
  destruct (readdir_loop K self f (f_readdir f) ds1 w) as [ds2 w2] eqn:E.
  intros [= <- <- <-]. eapply keeps_readdir_loop; eassumption.
Qed.

Lemma keeps_search_directory_at
  (self : dir_search -> world -> Z * dir_search * world) :
  keeps I self -> keeps I (search_directory_at K self).
Proof.
  intros Hself ds w st ds' w' Hi. unfold search_directory_at.
  assert (Hi0 : I (set_status ds 0) w) by steer I_steer.
  destruct (filp_open K (path (set_status ds 0))) as [f|e] eqn:Eo.
  - destruct (search_opened K self f _ _) as [[lbl ds1] w1] eqn:E.
    assert (Hi1 : I ds1 w1).
    { eapply keeps_search_opened;
        [exact Hself|exact (Hnone _ _ Eo)| |exact E].
      apply I_event; [exact Hi0|reflexivity]. }
    destruct lbl; intros [= <- <- <-]; [|exact Hi1].
    apply I_event; [exact Hi1|reflexivity].
  - case_if; intros [= <- <- <-];
      (eapply I_steer; [apply I_event; [exact Hi|reflexivity]
                       |repeat split; reflexivity]).
Qed.

Lemma keeps_search_directory_rem (rem : nat) :
  keeps I (search_directory_rem K rem).
Proof.
  induction rem as [|rem IH].
  - intros ds w st ds' w' Hi [= <- <- <-]. exact Hi.
  - apply keeps_search_directory_at. exact IH.
Qed.

Lemma keeps_search_literal (ds : dir_search) (w : world) (t : turn)
  (ds' : dir_search) (w' : world) :
  I ds w -> search_literal K ds w = (t, ds', w') -> I ds' w'.
Proof.
  intro Hi. unfold search_literal.
  destruct (kern_path K (path ds)) as [st p0].
  case_if; [intros [= <- <- <-]; exact Hi|].
  case_if; [intros [= <- <- <-]; exact Hi|].
  set (ds1 := set_path _ _).
  assert (Hi1 : I ds1 w) by steer I_steer.
  case_if; [intros [= <- <- <-]; exact Hi1|].
  case_if; [intros [= <- <- <-]; exact Hi1|].
  destruct (if flag_set _ SEARCH_METADATA then _ else _) as [st1 stat].
  case_if; [intros [= <- <- <-]; exact Hi1|].
  destruct (if flag_set _ SEARCH_INCLUDEROOT then _ else _)
    as [[r ds2] w2] eqn:E.
  assert (Hi2 : I ds2 w2)
    by (revert E; case_if; intro E; eapply I_emit; eassumption).
  repeat case_if; intros [= <- <- <-]; steer I_steer.
Qed.

Lemma keeps_search_root (c : string) (ds : dir_search) (w : world)
  (t : turn) (ds' : dir_search) (w' : world) :
  I ds w -> search_root K c ds w = (t, ds', w') -> I ds' w'.
Proof.
  intro Hi. unfold search_root.
  assert (Hi1 : I (set_path ds c) w) by steer I_steer.
  case_if; [|apply keeps_search_literal; exact Hi1].
  destruct (search_directory K _ w 0) as [[st ds1] w1] eqn:E.
  assert (Hi2 : I ds1 w1).
  { eapply (keeps_search_directory_rem _ _ _ _ _ _ _ E). }
  repeat case_if; intros [= <- <- <-]; exact Hi2.
  Unshelve.
  steer I_steer.
Qed.

Lemma keeps_search_roots (roots : list string) :
  forall (ds : dir_search) (w : world) (o : option Z) (ds' : dir_search)
         (w' : world),
    I ds w -> search_roots K roots ds w = (o, ds', w') -> I ds' w'.
Proof.
  induction roots as [|c roots IH]; intros ds w o ds' w' Hi.
  - intros [= <- <- <-]. exact Hi.
  - cbn [search_roots].
    destruct (search_root K c ds w) as [[t ds1] w1] eqn:E1.
    pose proof (keeps_search_root _ _ _ _ _ _ Hi E1) as Hi1.
    destruct t; [apply IH; exact Hi1| |]; intros [= <- <- <-]; exact Hi1.
Qed.

End WalkInvariant.

(** * The writes of a search stay inside the buffer of the caller *)

Lemma copy_to_user_outside (K : kernel) (l : list ascii) :
  forall (m : Z -> ascii) (a u : Z) (m' : Z -> ascii),
    copy_to_user K m a l = (u, m') ->
    forall x, x < a \/ a + Z.of_nat (List.length l) <= x -> m' x = m x.
Proof.
  induction l as [|c l IH]; intros m a u m' H x Hx; cbn [copy_to_user] in H.
  - injection H as <- <-. reflexivity.
  - simpl List.length in Hx. destruct (user_writable K a).
    + rewrite (IH _ _ _ _ H) by lia. unfold store.
      destruct (x =? a) eqn:E; [apply Z.eqb_eq in E; lia|reflexivity].
    + injection H as <- <-. reflexivity.
Qed.

Lemma strlen_nonneg (s : string) : 0 <= strlen s.
Proof. unfold strlen. lia. Qed.

Lemma inv_mem_steer (w0 : world) (b ln : Z) (ds ds' : dir_search) (w : world) :
  inv_mem w0 b ln ds w -> same_cursor ds ds' -> inv_mem w0 b ln ds' w.
Proof.
  intros [H1 [H2 [H3 H4]]] [_ [_ [Hn Hl]]]. unfold inv_mem.
  rewrite <- Hn, <- Hl. auto.
Qed.

Lemma inv_mem_event (w0 : world) (b ln : Z) (ds : dir_search) (w : world)
  (e : event) :
  inv_mem w0 b ln ds w -> is_emitted e = false ->
  inv_mem w0 b ln ds (record_event w e).
Proof. intros H _. exact H. Qed.

Lemma inv_mem_emit (K : kernel) (w0 : world) (b ln : Z) (ds : dir_search)
  (w : world) (p : string) (stat : kstat) (r : Z) (ds1 : dir_search)
  (w1 : world) :
  inv_mem w0 b ln ds w -> copy_search_result K ds w p stat = (r, ds1, w1) ->
  inv_mem w0 b ln ds1 w1.
Proof.
  intros [H1 [H2 [H3 H4]]] E.
  pose proof (strlen_nonneg (encode K (flags ds) p stat)) as Hlen.
  destruct (copy_search_result_cases K ds w p stat r ds1 w1 E)
    as [[_ [Hroom [-> [m [Hc ->]]]]]
       |[[_ [Hroom [-> [u [m [_ [Hc ->]]]]]]]
        |[_ [_ [-> ->]]]]].
  - unfold inv_mem. cbn [next len set_len set_next umem record_event set_umem].
    repeat split; try lia.
    intros x Hx. rewrite <- (H4 x Hx).
    apply (copy_to_user_outside K _ _ _ _ _ Hc).
    rewrite length_app, chars_length. simpl List.length.
    unfold strlen in *. lia.
  - unfold inv_mem. cbn [umem set_umem]. repeat split; try assumption.
    intros x Hx. rewrite <- (H4 x Hx).
    apply (copy_to_user_outside K _ _ _ _ _ Hc).
    rewrite length_app, chars_length. simpl List.length.
    unfold strlen in *. lia.
  - unfold inv_mem. auto.
Qed.

(** When no directory has a native search, a call writes user memory
    only inside the buffer it was given: every address below [buf] or
    at or above [buf + len] holds afterwards what it held before,
    whatever the collaborators answer and whether or not the call
    succeeds. *)
Theorem output_stays_in_buffer (K : kernel) (w0 : world)
  (u_paths u_pattern fl b ln : Z) (x : Z)
  (Hnone : no_native_search K) (Hx : x < b \/ b + ln <= x) :
  umem (snd (sys_search K w0 u_paths u_pattern fl b ln)) x = umem w0 x.
Proof.
  destruct (sys_search K w0 u_paths u_pattern fl b ln) as [r w'] eqn:E.
  cbn [snd].
  destruct (sys_search_cases K w0 u_paths u_pattern fl b ln r w' E)
    as [[_ ->]|[roots [ds0 [o [ds1 [w1 [_ [_ [_ [Hn [Hl [Er Ho]]]]]]]]]]]];
    [reflexivity|].
  assert (Hi0 : inv_mem w0 b ln ds0 w0).
  { unfold inv_mem. rewrite Hn, Hl. repeat split; try lia. }
  assert (Hi1 : inv_mem w0 b ln ds1 w1).
  { eapply (keeps_search_roots K (inv_mem w0 b ln) Hnone);
      [apply inv_mem_steer|apply inv_mem_event| |exact Hi0|exact Er].
    intros. eapply inv_mem_emit; eassumption. }
  destruct Hi1 as [H1 [H2 [H3 H4]]].
  destruct o as [st|]; [destruct Ho as [_ ->]; apply H4; exact Hx|].
  destruct (b =? next ds1) eqn:Eb; [destruct Ho as [_ ->]; apply H4; exact Hx|].
  apply Z.eqb_neq in Eb. destruct Ho as [_ ->]. cbn [umem set_umem].
  rewrite <- (H4 x Hx).
  destruct (copy_to_user K (umem w1) (next ds1 - 1) [NUL; NUL]) as [u m] eqn:Ec.
  cbn [snd]. apply (copy_to_user_outside K _ _ _ _ _ Ec).
  simpl List.length. lia.
Qed.

Lemma output_stays_in_buffer_witness :
  umem (snd (sys_search (sample_kernel "/r" "*" two_files []) blank
               0 1 0 100 64)) 99
  = umem blank 99.
Proof.
  apply (output_stays_in_buffer (sample_kernel "/r" "*" two_files []) blank
           0 1 0 100 64 99).
  - apply two_files_no_native.
  - left. lia.
Defined.

(** * The entries buffer of a directory listing *)

Lemma int_small (x : Z) : 0 <= x < 2 ^ 31 -> int x = x.
Proof.
  intro H. unfold int, to_signed.
  rewrite Z.mod_small by (change (2 ^ 32) with (2 * 2 ^ 31); lia).
  change (32 - 1) with 31.
  destruct (x <? 2 ^ 31) eqn:E; [reflexivity|apply Z.ltb_ge in E; lia].
Qed.

Lemma entries_size_app (l l' : list (ascii * string)) :
  entries_size (l ++ l') = entries_size l + entries_size l'.
Proof.
  induction l as [|[t n] l IH]; [reflexivity|].
  cbn [entries_size app]. rewrite IH. lia.
Qed.

Lemma vfs_readdir_fits (offered : list (string * Z)) :
  forall (entries : list (ascii * string)) (used : Z),
    used = entries_size entries -> 0 <= used -> used + 1 <= SEARCH_BUF ->
    let fill := vfs_readdir offered (entries, used) in
    snd fill = entries_size (fst fill)
    /\ 0 <= snd fill /\ snd fill + 1 <= SEARCH_BUF
    /\ exists k,
         fst fill = (entries ++ map stored_entry (firstn k offered))%list
         /\ match nth_error offered k with
            | Some (name, _) => SEARCH_BUF - snd fill < strlen name + 3
            | None => True
            end.
Proof.
  induction offered as [|[name d_type] offered IH];
    intros entries used Hsize Hpos Hfit.
  - cbn [vfs_readdir fst snd]. repeat split; try assumption.
    exists O. rewrite app_nil_r. split; [reflexivity|exact Logic.I].
  - cbn [vfs_readdir]. unfold search_filldir.
    rewrite int_small
      by (unfold SEARCH_BUF, PATH_MAX in *; simpl Z.shiftl in *; lia).
    destruct (SEARCH_BUF - used <? strlen name + 3) eqn:E.
    + change (- EINVAL <? 0) with true. cbn [fst snd].
      repeat split; try assumption.
      exists O. rewrite app_nil_r. split; [reflexivity|].
      cbn [nth_error]. apply Z.ltb_lt in E. exact E.
    + change (0 <? 0) with false. apply Z.ltb_ge in E.
      pose proof (strlen_nonneg name) as Hn.
      destruct (IH (entries ++ [(if d_type =? DT_DIR then "d"%char
                                 else "o"%char, name)])%list
                   (used + (strlen name + 2)))
        as [H1 [H2 [H3 [k [H4 H5]]]]];
        [rewrite entries_size_app; cbn [entries_size]; lia|lia|lia|].
      repeat split; try assumption.
      exists (S k). cbn [firstn map nth_error].
      rewrite H4, <- app_assoc. split; [reflexivity|exact H5].
Qed.

(** A call of [vfs_readdir] on an empty entries buffer never fills it
    beyond SEARCH_BUF less the byte of the terminator that ends the
    listing: the bytes used are those of the entries stored (type
    character, name and terminator each), the entries stored are the
    first of those on offer, in order and with the type character of
    their [d_type], and the first entry left out, if any, is one that
    would not have fitted with its terminators. *)
Theorem listing_fits_buffer (offered : list (string * Z)) :
  let fill := vfs_readdir offered ([], 0) in
  snd fill = entries_size (fst fill)
  /\ 0 <= snd fill /\ snd fill + 1 <= SEARCH_BUF
  /\ exists k,
       fst fill = map stored_entry (firstn k offered)
       /\ match nth_error offered k with
          | Some (name, _) => SEARCH_BUF - snd fill < strlen name + 3
          | None => True
          end.
Proof.
  apply (vfs_readdir_fits offered [] 0); [reflexivity|lia|].
  unfold SEARCH_BUF, PATH_MAX. simpl Z.shiftl. lia.
Qed.

(** * The branch for a pattern without wildcard *)

Lemma string_skip_append (c t : string) :
  string_skip (String.length c) (c ++ t) = t.
Proof. induction c as [|d c IH]; [destruct t; reflexivity|exact IH]. Qed.

Lemma offset_append (c t : string) : offset (c ++ t) (strlen c) = t.
Proof.
  unfold offset, strlen. rewrite Nat2Z.id. apply string_skip_append.
Qed.

Lemma copy_search_result_events (K : kernel) (ds : dir_search) (w : world)
  (p : string) (stat : kstat) (r : Z) (ds1 : dir_search) (w1 : world) :
  copy_search_result K ds w p stat = (r, ds1, w1) ->
  pattern ds1 = pattern ds /\ flags ds1 = flags ds
  /\ ds_ispattern ds1 = ds_ispattern ds
  /\ exists l, trace w1 = (trace w ++ l)%list
               /\ forallb is_output l = true
               /\ (l = [] \/ l = [Emitted (encode K (flags ds) p stat)]
                   \/ l = [Rejected (encode K (flags ds) p stat)]).
Proof.
  intro E.
  destruct (copy_search_result_cases K ds w p stat r ds1 w1 E)
    as [[_ [_ [-> [m [_ ->]]]]]
       |[[_ [_ [-> [u [m [_ [_ ->]]]]]]]
        |[_ [_ [-> ->]]]]];
    (split; [reflexivity|split; [reflexivity|split; [reflexivity|]]]).
  - eexists. split; [reflexivity|]. split; [reflexivity|]. right; left.
    reflexivity.
  - exists []. cbn [trace set_umem]. rewrite app_nil_r. auto.
  - eexists. split; [reflexivity|]. split; [reflexivity|]. right; right.
    reflexivity.
Qed.

Lemma search_literal_events (K : kernel) (ds : dir_search) (w : world)
  (t : turn) (ds' : dir_search) (w' : world) :
  search_literal K ds w = (t, ds', w') ->
  pattern ds' = pattern ds /\ flags ds' = flags ds
  /\ ds_ispattern ds' = ds_ispattern ds
  /\ exists l,
       trace w' = (trace w ++ l)%list
       /\ forallb is_output l = true
       /\ (List.length (emitted l) <= 1)%nat
       /\ forall rec, In rec (emitted l) ->
            exists stat,
              rec = encode K (flags ds)
                      (literal_report (flags ds) (path ds) (pattern ds)) stat.
Proof.
  assert (Hnil : forall d, pattern d = pattern ds -> flags d = flags ds ->
                   ds_ispattern d = ds_ispattern ds ->
                   pattern d = pattern ds /\ flags d = flags ds
                   /\ ds_ispattern d = ds_ispattern ds
                   /\ exists l,
                        trace w = (trace w ++ l)%list
                        /\ forallb is_output l = true
                        /\ (List.length (emitted l) <= 1)%nat
                        /\ forall rec, In rec (emitted l) ->
                             exists stat,
                               rec = encode K (flags ds)
                                       (literal_report (flags ds) (path ds)
                                          (pattern ds)) stat).
  { intros d H1 H2 H3. repeat split; try assumption.
    exists []. rewrite app_nil_r. repeat split; simpl; try lia. }
  unfold search_literal.
  destruct (kern_path K (path ds)) as [st p0].
  case_if; [intros [= <- <- <-]; apply Hnil; reflexivity|].
  case_if; [intros [= <- <- <-]; apply Hnil; reflexivity|].
  set (ds1 := set_path _ _).
  case_if; [intros [= <- <- <-]; apply Hnil; reflexivity|].
  case_if; [intros [= <- <- <-]; apply Hnil; reflexivity|].
  destruct (if flag_set _ SEARCH_METADATA then _ else _) as [st1 stat].
  case_if; [intros [= <- <- <-]; apply Hnil; reflexivity|].
  destruct (if flag_set _ SEARCH_INCLUDEROOT then _ else _)
    as [[r ds2] w2] eqn:E.
  assert (He : pattern ds2 = pattern ds /\ flags ds2 = flags ds
               /\ ds_ispattern ds2 = ds_ispattern ds
               /\ exists l, trace w2 = (trace w ++ l)%list
                    /\ forallb is_output l = true
                    /\ (l = [] \/ l = [Emitted (encode K (flags ds)
                                          (literal_report (flags ds) (path ds)
                                             (pattern ds)) stat)]
                        \/ l = [Rejected (encode K (flags ds)
                                  (literal_report (flags ds) (path ds)
                                     (pattern ds)) stat)])).
  { unfold literal_report. revert E. change (flags ds1) with (flags ds).
    destruct (flag_set (flags ds) SEARCH_INCLUDEROOT); intro E;
      apply copy_search_result_events in E;
      [|unfold ds1 in E; cbn [path base set_path set_base] in E;
        rewrite offset_append in E]; exact E. }
  destruct He as [H1 [H2 [H3 [l [Hl [Ho Hs]]]]]].
  assert (Hend : forall d, pattern d = pattern ds2 -> flags d = flags ds2 ->
                   ds_ispattern d = ds_ispattern ds2 ->
                   pattern d = pattern ds /\ flags d = flags ds
                   /\ ds_ispattern d = ds_ispattern ds
                   /\ exists l,
                        trace w2 = (trace w ++ l)%list
                        /\ forallb is_output l = true
                        /\ (List.length (emitted l) <= 1)%nat
                        /\ forall rec, In rec (emitted l) ->
                             exists stat,
                               rec = encode K (flags ds)
                                       (literal_report (flags ds) (path ds)
                                          (pattern ds)) stat).
  { intros d G1 G2 G3. repeat split; try congruence.
    exists l. split; [exact Hl|]. split; [exact Ho|].
    destruct Hs as [-> | [-> | ->]]; simpl; (split; [lia|]).
    - intros rec [].
    - intros rec [<- | []]. exists stat. reflexivity.
    - intros rec []. }
  repeat case_if; intros [= <- <- <-]; apply Hend; reflexivity.
Qed.




(** * Directories open at once *)

Lemma left_open_app (l1 l2 : list event) :
  forall opened,
    left_open (l1 ++ l2) opened = left_open l2 (left_open l1 opened).
Proof.
  induction l1 as [|e l1 IH]; intro opened; [reflexivity|].
  destruct e; cbn [left_open app]; apply IH.
Qed.

Lemma left_open_cons (e : event) (l : list event) (opened : list nat) :
  left_open (e :: l) opened = left_open l (left_open [e] opened).
Proof. exact (left_open_app [e] l opened). Qed.

Lemma peak_open_app (l1 l2 : list event) :
  forall opened,
    peak_open (l1 ++ l2) opened
    = Nat.max (peak_open l1 opened) (peak_open l2 (left_open l1 opened)).
Proof.
  induction l1 as [|e l1 IH]; intro opened.
  - cbn [app peak_open left_open].
    destruct l2 as [|e2 l2]; cbn [peak_open]; lia.
  - cbn [app peak_open]. rewrite IH.
    rewrite (left_open_cons e l1 opened). lia.
Qed.

Lemma peak_open_start (l : list event) (opened : list nat) :
  (List.length opened <= peak_open l opened)%nat.
Proof. destruct l; cbn [peak_open]; lia. Qed.

Lemma balanced_nil (n0 depth : nat) : balanced n0 depth [].
Proof. intros opened _. cbn [left_open peak_open]. split; [reflexivity|lia]. Qed.

Lemma balanced_app (n0 depth : nat) (l1 l2 : list event) :
  balanced n0 depth l1 -> balanced (n0 + List.length l1) depth l2 ->
  balanced n0 depth (l1 ++ l2).
Proof.
  intros H1 H2 opened Ho.
  destruct (H1 opened Ho) as [E1 P1].
  destruct (H2 opened) as [E2 P2]; [intros h Hh; specialize (Ho h Hh); lia|].
  rewrite left_open_app, peak_open_app, E1. split; [exact E2|lia].
Qed.

Lemma balanced_quiet_event (n0 depth : nat) (e : event) :
  match e with
  | Opened _ _ | Closed _ => False
  | _ => True
  end ->
  balanced n0 depth [e].
Proof.
  intros He opened _. destruct e; try contradiction;
    cbn [left_open peak_open]; split; try reflexivity; lia.
Qed.

Lemma balanced_deeper (n0 depth : nat) (l : list event) :
  balanced n0 depth l -> balanced n0 (S depth) l.
Proof.
  intros H opened Ho. destruct (H opened Ho) as [E P]. split; [exact E|lia].
Qed.

Lemma remove_fresh (h : nat) (opened : list nat) :
  ~ In h opened -> List.remove Nat.eq_dec h opened = opened.
Proof. apply notin_remove. Qed.

(** A directory opened, a balanced stretch inside it, and the
    directory closed *)
Lemma balanced_bracket (n0 depth : nat) (p : string) (l : list event) :
  balanced (S n0) depth l ->
  balanced n0 (S depth) (Opened p n0 :: l ++ [Closed n0]).
Proof.
  intros H opened Ho.
  assert (Hfresh : ~ In n0 opened)
    by (intro Hin; specialize (Ho n0 Hin); lia).
  destruct (H (n0 :: opened)) as [E P].
  { intros h [<-|Hh]; [lia|]. specialize (Ho h Hh). lia. }
  change (Opened p n0 :: l ++ [Closed n0])
    with ([Opened p n0] ++ l ++ [Closed n0])%list.
  rewrite !left_open_app, !peak_open_app.
  cbn [left_open peak_open]. rewrite E.
  cbn [left_open peak_open List.remove List.length] in *.
  destruct (Nat.eq_dec n0 n0) as [_|Hne]; [|contradiction].
  rewrite (remove_fresh n0 opened Hfresh).
  split; [reflexivity|]. cbn [List.length]. lia.
Qed.

Lemma inv_balanced_steer (w1 : world) (depth : nat) (ds ds' : dir_search)
  (w : world) :
  inv_balanced w1 depth ds w -> same_cursor ds ds' ->
  inv_balanced w1 depth ds' w.
Proof. intros H _. exact H. Qed.

Lemma inv_balanced_emit (K : kernel) (w1 : world) (depth : nat)
  (ds : dir_search) (w : world) (p : string) (stat : kstat) (r : Z)
  (ds' : dir_search) (w' : world) :
  inv_balanced w1 depth ds w ->
  copy_search_result K ds w p stat = (r, ds', w') ->
  inv_balanced w1 depth ds' w'.
Proof.
  intros [l [Hl Hb]] E.
  destruct (copy_search_result_events K ds w p stat r ds' w' E)
    as [_ [_ [_ [l2 [Hl2 [_ Hs]]]]]].
  exists (l ++ l2)%list. rewrite Hl2, Hl, app_assoc. split; [reflexivity|].
  apply balanced_app; [exact Hb|].
  destruct Hs as [-> | [-> | ->]];
    [apply balanced_nil|apply balanced_quiet_event; exact Logic.I
    |apply balanced_quiet_event; exact Logic.I].
Qed.

Lemma search_directory_rem_balanced (K : kernel) (Hnone : no_native_search K)
  (rem : nat) :
  forall ds w st ds' w',
    search_directory_rem K rem ds w = (st, ds', w') ->
    exists l, trace w' = (trace w ++ l)%list
              /\ balanced (List.length (trace w)) rem l.
Proof.
  induction rem as [|rem IH]; intros ds w st ds' w'.
  - intros [= <- <- <-]. exists []. rewrite app_nil_r.
    split; [reflexivity|apply balanced_nil].
  - cbn [search_directory_rem]. unfold search_directory_at.
    cbn [path set_status].
    destruct (filp_open K (path ds)) as [f|e] eqn:Eo.
    + set (w1 := record_event w (Opened (path ds) (List.length (trace w)))).
      destruct (search_opened K (search_directory_rem K rem) f
                  (set_status ds 0) w1) as [[lbl ds1] w2] eqn:E.
      assert (Hin : inv_balanced w1 rem ds1 w2).
      { apply (keeps_search_opened K (inv_balanced w1 rem)
                 (inv_balanced_steer w1 rem)
                 (fun ds w p stat r ds1 w1 =>
                    inv_balanced_emit K _ _ ds w p stat r ds1 w1)
                 (search_directory_rem K rem) f (set_status ds 0) w1
                 lbl ds1 w2).
        - intros d u st0 d' u' [l [Hl Hb]] Es.
          destruct (IH d u st0 d' u' Es) as [l2 [Hl2 Hb2]].
          exists (l ++ l2)%list. rewrite Hl2, Hl, app_assoc.
          split; [reflexivity|].
          apply balanced_app; [exact Hb|].
          rewrite <- length_app, <- Hl. exact Hb2.
        - exact (Hnone _ _ Eo).
        - exists []. rewrite app_nil_r.
          split; [reflexivity|apply balanced_nil].
        - exact E. }
      destruct Hin as [l [Hl Hb]].
      assert (Hlbl : lbl = L_exit).
      { destruct lbl; [reflexivity|].
        destruct (search_opened_out _ _ _ _ _ _ _ E) as [s [search [_ [Hs _]]]].
        rewrite (Hnone _ _ Eo) in Hs. discriminate Hs. }
      subst lbl. intros [= <- <- <-].
      exists (Opened (path ds) (List.length (trace w))
              :: l ++ [Closed (List.length (trace w))])%list.
      cbn [trace record_event]. rewrite Hl. unfold w1.
      cbn [trace record_event]. rewrite <- !app_assoc.
      split; [reflexivity|].
      apply balanced_bracket.
      unfold w1 in Hb. cbn [trace record_event] in Hb.
      rewrite length_app in Hb. cbn [List.length] in Hb.
      replace (S (List.length (trace w)))
        with (List.length (trace w) + 1)%nat by lia.
      exact Hb.
    + assert (Hb : balanced (List.length (trace w)) (S rem)
                     [OpenFailed (path ds) e])
        by (apply balanced_quiet_event; exact Logic.I).
      case_if; intros [= <- <- <-]; eexists; (split; [reflexivity|exact Hb]).
Qed.

Lemma balanced_outputs (n0 depth : nat) (l : list event) :
  forallb is_output l = true -> balanced n0 depth l.
Proof.
  revert n0. induction l as [|e l IH]; intros n0 H; [apply balanced_nil|].
  cbn [forallb] in H. apply andb_prop in H as [He Hl].
  change (e :: l) with ([e] ++ l)%list.
  apply balanced_app; [|apply IH; exact Hl].
  apply balanced_quiet_event. destruct e; try discriminate He; exact Logic.I.
Qed.

Lemma search_root_balanced (K : kernel) (Hnone : no_native_search K)
  (c : string) (ds : dir_search) (w : world) (t : turn) (ds' : dir_search)
  (w' : world) :
  search_root K c ds w = (t, ds', w') ->
  exists l, trace w' = (trace w ++ l)%list
            /\ balanced (List.length (trace w)) (Z.to_nat TREE_DEPTH) l.
Proof.
  unfold search_root. case_if.
  - unfold search_directory.
    destruct (search_directory_rem K _ _ w) as [[st ds1] w1] eqn:E.
    apply (search_directory_rem_balanced K Hnone) in E.
    rewrite Z.sub_0_r in E.
    repeat case_if; intros [= <- <- <-]; exact E.
  - intro E. destruct (search_literal_events K _ _ _ _ _ E)
      as [_ [_ [_ [l [Hl [Ho _]]]]]].
    exists l. split; [exact Hl|apply balanced_outputs; exact Ho].
Qed.

Lemma search_roots_balanced (K : kernel) (Hnone : no_native_search K)
  (roots : list string) :
  forall ds w o ds' w',
    search_roots K roots ds w = (o, ds', w') ->
    exists l, trace w' = (trace w ++ l)%list
              /\ balanced (List.length (trace w)) (Z.to_nat TREE_DEPTH) l.
Proof.
  induction roots as [|c roots IH]; intros ds w o ds' w'.
  - intros [= <- <- <-]. exists []. rewrite app_nil_r.
    split; [reflexivity|apply balanced_nil].
  - cbn [search_roots].
    destruct (search_root K c ds w) as [[t ds1] w1] eqn:E1.
    destruct (search_root_balanced K Hnone _ _ _ _ _ _ E1) as [l1 [Hl1 Hb1]].
    destruct t; [|intros [= <- <- <-]; exists l1; split; assumption
                 |intros [= <- <- <-]; exists l1; split; assumption].
    intro E2. destruct (IH _ _ _ _ _ E2) as [l2 [Hl2 Hb2]].
    exists (l1 ++ l2)%list. rewrite Hl2, Hl1, app_assoc.
    split; [reflexivity|]. apply balanced_app; [exact Hb1|].
    rewrite <- length_app, <- Hl1. exact Hb2.
Qed.

(** When no directory has a native search, a call closes every
    directory it opens, on whatever path it ends, and never has more
    than TREE_DEPTH directories open at once. *)
Theorem directories_open_at_once (K : kernel) (w0 : world)
  (u_paths u_pattern fl b ln : Z)
  (Hnone : no_native_search K) :
  exists l,
    trace (snd (sys_search K w0 u_paths u_pattern fl b ln))
    = (trace w0 ++ l)%list
    /\ left_open l [] = []
    /\ (peak_open l [] <= Z.to_nat TREE_DEPTH)%nat.
Proof.
  destruct (sys_search K w0 u_paths u_pattern fl b ln) as [r w'] eqn:E.
  cbn [snd].
  assert (Hb : exists l, trace w' = (trace w0 ++ l)%list
                 /\ balanced (List.length (trace w0))
                      (Z.to_nat TREE_DEPTH) l).
  { destruct (sys_search_cases K w0 u_paths u_pattern fl b ln r w' E)
      as [[_ ->]|[roots [ds0 [o [ds1 [w1 [_ [_ [_ [_ [_ [Er Ho]]]]]]]]]]]].
    - exists []. rewrite app_nil_r. split; [reflexivity|apply balanced_nil].
    - destruct (search_roots_balanced K Hnone _ _ _ _ _ _ Er) as [l [Hl Hb]].
      exists l. split; [|exact Hb].
      destruct o as [st|]; [destruct Ho as [_ ->]; exact Hl|].
      destruct (b =? next ds1); destruct Ho as [_ ->]; exact Hl. }
  destruct Hb as [l [Hl Hb]]. exists l. split; [exact Hl|].
  destruct (Hb []) as [H1 H2]; [intros h []|].
  split; [exact H1|exact H2].
Qed.

Lemma directories_open_at_once_witness :
  exists l,
    trace (snd (sys_search (sample_kernel "/r" "*.txt" nested_tree []) blank
                  0 1 0 100 64))
    = (trace blank ++ l)%list
    /\ left_open l [] = []
    /\ (peak_open l [] <= Z.to_nat TREE_DEPTH)%nat.
Proof.
  apply (directories_open_at_once (sample_kernel "/r" "*.txt" nested_tree [])
           blank 0 1 0 100 64).
  intros p f Ho.
  unfold sample_kernel, filp_open, nested_tree in Ho. simpl in Ho.
  destruct (p =? "/r")%string; [injection Ho as <-; reflexivity|].
  destruct (p =? "/r/sub")%string; [injection Ho as <-; reflexivity|].
  discriminate Ho.
Defined.

(** * The records of a tree search are those of entries that matched *)

Lemma same_request_refl (ds : dir_search) : same_request ds ds.
Proof. repeat split. Qed.
















(** * Seeking *)

Lemma to_signed_range (bits x : Z) :
  0 < bits -> - 2 ^ (bits - 1) <= to_signed bits x < 2 ^ (bits - 1).
Proof.
  intro Hb. unfold to_signed.
  assert (H2 : 2 ^ bits = 2 * 2 ^ (bits - 1)).
  { replace bits with (Z.succ (bits - 1)) at 1 by lia.
    rewrite Z.pow_succ_r by lia. reflexivity. }
  pose proof (Z.mod_pos_bound x (2 ^ bits)) as Hm.
  assert (0 < 2 ^ (bits - 1)) by (apply Z.pow_pos_nonneg; lia).
  destruct (x mod 2 ^ bits <? 2 ^ (bits - 1)) eqn:E;
    [apply Z.ltb_lt in E|apply Z.ltb_ge in E]; lia.
Qed.

Lemma to_signed_small (bits x : Z) :
  0 < bits -> - 2 ^ (bits - 1) <= x < 2 ^ (bits - 1) -> to_signed bits x = x.
Proof.
  intros Hb Hx. unfold to_signed.
  assert (H2 : 2 ^ bits = 2 * 2 ^ (bits - 1)).
  { replace bits with (Z.succ (bits - 1)) at 1 by lia.
    rewrite Z.pow_succ_r by lia. reflexivity. }
  destruct (Z_lt_le_dec x 0) as [Hneg|Hpos].
  - replace (x mod 2 ^ bits) with (x + 2 ^ bits)
      by (apply Z.mod_unique with (q := -1); lia).
    destruct (x + 2 ^ bits <? 2 ^ (bits - 1)) eqn:E;
      [apply Z.ltb_lt in E|apply Z.ltb_ge in E]; lia.
  - rewrite Z.mod_small by lia.
    destruct (x <? 2 ^ (bits - 1)) eqn:E;
      [apply Z.ltb_lt in E|apply Z.ltb_ge in E]; lia.
Qed.

Lemma loff_t_range (x : Z) : - 2 ^ 63 <= loff_t x <= LLONG_MAX.
Proof.
  pose proof (to_signed_range 64 x) as H. change (64 - 1) with 63 in H.
  unfold loff_t, LLONG_MAX. lia.
Qed.

Lemma loff_t_small (x : Z) : - 2 ^ 63 <= x <= LLONG_MAX -> loff_t x = x.
Proof.
  intro H. apply to_signed_small; [lia|]. change (64 - 1) with 63.
  unfold LLONG_MAX in H. lia.
Qed.

(** What [lseek_execute] returns and leaves *)
Lemma lseek_execute_cases (file : seek_file) (offset maxsize : Z) :
  (lseek_execute file offset maxsize = (- EINVAL, file)
   /\ (offset < 0 /\ unsigned_offsets file = false \/ maxsize < offset))
  \/ (fst (lseek_execute file offset maxsize) = offset
      /\ f_pos (snd (lseek_execute file offset maxsize)) = offset
      /\ (snd (lseek_execute file offset maxsize) = file
          \/ snd (lseek_execute file offset maxsize) = move_to file offset)
      /\ (0 <= offset \/ unsigned_offsets file = true)
      /\ offset <= maxsize).
Proof.
  unfold lseek_execute.
  destruct (offset <? 0) eqn:E1; destruct (unsigned_offsets file) eqn:Eu;
    cbn [negb andb];
    try (apply Z.ltb_lt in E1; left; split; [reflexivity|left; split;
         [exact E1|reflexivity]]);
    (destruct (offset >? maxsize) eqn:E2;
     [left; split; [reflexivity|right; lia]|]);
    right; (destruct (offset =? f_pos file) eqn:E3; cbn [negb fst snd];
            [apply Z.eqb_eq in E3|]);
    cbn [f_pos move_to]; repeat split; auto; try lia.
Qed.

(** [generic_file_llseek_size] on a file with signed offsets whose
    position lies between 0 and the limit: the call either fails with
    EINVAL or ENXIO and leaves the file as it was, or returns the new
    position; in both cases the position still lies between 0 and the
    limit, and the other fields are untouched but for [f_version],
    which is zeroed exactly when the position changes. *)
Theorem seek_keeps_position_in_bounds (file : seek_file)
  (offset origin maxsize : Z)
  (Hsigned : unsigned_offsets file = false)
  (Hpos : 0 <= f_pos file <= maxsize) :
  let r := fst (generic_file_llseek_size file offset origin maxsize) in
  let file' := snd (generic_file_llseek_size file offset origin maxsize) in
  0 <= f_pos file' <= maxsize
  /\ ((r = - EINVAL \/ r = - ENXIO) /\ file' = file
      \/ 0 <= r /\ r = f_pos file')
  /\ (f_pos file' = f_pos file -> file' = file)
  /\ (f_pos file' <> f_pos file -> file' = move_to file (f_pos file')).
Proof.
  assert (Hexec : forall off,
    let r := fst (lseek_execute file off maxsize) in
    let file' := snd (lseek_execute file off maxsize) in
    0 <= f_pos file' <= maxsize
    /\ ((r = - EINVAL \/ r = - ENXIO) /\ file' = file
        \/ 0 <= r /\ r = f_pos file')
    /\ (f_pos file' = f_pos file -> file' = file)
    /\ (f_pos file' <> f_pos file -> file' = move_to file (f_pos file'))).
  { intro off. cbv zeta.
    destruct (lseek_execute_cases file off maxsize)
      as [[-> _]|[Hr [Hp [Hf [Hs Hm]]]]].
    - cbn [fst snd]. repeat split; try lia; auto.
    - rewrite Hr, Hp. rewrite Hsigned in Hs.
      assert (0 <= off) by (destruct Hs as [Hs|Hs]; [exact Hs|discriminate Hs]).
      split; [lia|]. split; [right; split; [lia|reflexivity]|]. split.
      + intro Heq. destruct Hf as [Hf|Hf]; [exact Hf|].
        unfold lseek_execute in Hf |- *.
        rewrite Heq, Z.eqb_refl. cbn [negb].
        destruct ((f_pos file <? 0) && negb (unsigned_offsets file));
          [reflexivity|].
        destruct (f_pos file >? maxsize); reflexivity.
      + intro Hne. destruct Hf as [Hf|Hf]; [|exact Hf].
        exfalso. apply Hne. rewrite <- Hp, Hf. reflexivity. }
  assert (Hsame : 0 <= f_pos file <= maxsize
    /\ ((- ENXIO = - EINVAL \/ - ENXIO = - ENXIO) /\ file = file
        \/ 0 <= - ENXIO /\ - ENXIO = f_pos file)
    /\ (f_pos file = f_pos file -> file = file)
    /\ (f_pos file <> f_pos file -> file = move_to file (f_pos file))).
  { repeat split; try lia; auto. }
  cbv zeta. unfold generic_file_llseek_size.
  destruct (origin =? SEEK_END); [apply Hexec|].
  destruct (origin =? SEEK_CUR).
  { destruct (offset =? 0); [|apply Hexec]. cbn [fst snd].
    repeat split; try lia; auto. }
  destruct (origin =? SEEK_DATA).
  { destruct (offset >=? i_size file); [exact Hsame|apply Hexec]. }
  destruct (origin =? SEEK_HOLE).
  { destruct (offset >=? i_size file); [exact Hsame|apply Hexec]. }
  apply Hexec.
Qed.

Lemma seek_keeps_position_in_bounds_witness :
  let r := fst (generic_file_llseek_size sample_file (-30) SEEK_END 4096) in
  let file' := snd (generic_file_llseek_size sample_file (-30) SEEK_END 4096) in
  0 <= f_pos file' <= 4096
  /\ ((r = - EINVAL \/ r = - ENXIO) /\ file' = sample_file
      \/ 0 <= r /\ r = f_pos file')
  /\ (f_pos file' = f_pos sample_file -> file' = sample_file)
  /\ (f_pos file' <> f_pos sample_file ->
      file' = move_to sample_file (f_pos file')).
Proof.
  apply (seek_keeps_position_in_bounds sample_file (-30) SEEK_END 4096).
  - reflexivity.
  - simpl. lia.
Defined.

Lemma default_llseek_set_execute (file : seek_file) (offset : Z) :
  offset <= LLONG_MAX ->
  default_llseek_set file offset = lseek_execute file offset LLONG_MAX.
Proof.
  intro H. unfold default_llseek_set, lseek_execute.
  destruct (offset <? 0) eqn:E1; destruct (unsigned_offsets file);
    cbn [negb andb orb];
    rewrite Z.geb_leb;
    (destruct (0 <=? offset) eqn:E0;
     [apply Z.leb_le in E0|apply Z.leb_gt in E0]);
    try (apply Z.ltb_lt in E1); try (apply Z.ltb_ge in E1); try lia;
    cbn [orb];
    try (destruct (offset >? LLONG_MAX) eqn:E2; [lia|]); reflexivity.
Qed.

(** [default_llseek] is [generic_file_llseek_size] without a limit:
    for an offset and a file size that are values of [loff_t], it
    returns what the generic function returns for the largest limit,
    and leaves the file in the same state. *)
Theorem default_llseek_is_generic_unbounded (file : seek_file)
  (offset origin : Z)
  (Hoffset : - 2 ^ 63 <= offset <= LLONG_MAX)
  (Hsize : - 2 ^ 63 <= i_size file <= LLONG_MAX) :
  default_llseek file offset origin
  = generic_file_llseek_size file offset origin LLONG_MAX.
Proof.
  unfold default_llseek, generic_file_llseek_size.
  rewrite (Z.add_comm offset (f_pos file)).
  rewrite !default_llseek_set_execute;
    [reflexivity|lia|lia|apply loff_t_range|apply loff_t_range].
Qed.

Lemma default_llseek_is_generic_unbounded_witness :
  default_llseek sample_file 5 SEEK_CUR
  = generic_file_llseek_size sample_file 5 SEEK_CUR LLONG_MAX.
Proof.
  apply (default_llseek_is_generic_unbounded sample_file 5 SEEK_CUR).
  - unfold LLONG_MAX. lia.
  - unfold LLONG_MAX. simpl. lia.
Defined.

Lemma lseek_execute_tell (file : seek_file) (offset maxsize : Z) :
  0 <= fst (lseek_execute file offset maxsize) ->
  f_pos (snd (lseek_execute file offset maxsize))
  = fst (lseek_execute file offset maxsize).
Proof.
  destruct (lseek_execute_cases file offset maxsize)
    as [[-> _]|[Hr [Hp _]]].
  - cbn [fst snd]. unfold EINVAL. lia.
  - rewrite Hr, Hp. reflexivity.
Qed.

Lemma default_llseek_set_tell (file : seek_file) (offset : Z) :
  0 <= fst (default_llseek_set file offset) ->
  f_pos (snd (default_llseek_set file offset))
  = fst (default_llseek_set file offset).
Proof.
  unfold default_llseek_set.
  destruct ((offset >=? 0) || unsigned_offsets file).
  - destruct (offset =? f_pos file) eqn:E; cbn [negb fst snd];
      [apply Z.eqb_eq in E; symmetry; exact E|reflexivity].
  - cbn [fst snd]. unfold EINVAL. lia.
Qed.

(** After a seek that succeeded, by either implementation and for any
    origin, the position of the file is the value that the seek
    returned, so that the query [lseek(fd, 0, SEEK_CUR)] returns that
    value again and leaves the file as it is. *)
Theorem tell_after_seek (file : seek_file) (offset origin maxsize : Z) :
  (0 <= fst (generic_file_llseek_size file offset origin maxsize) ->
   let file' := snd (generic_file_llseek_size file offset origin maxsize) in
   forall maxsize',
     generic_file_llseek_size file' 0 SEEK_CUR maxsize'
     = (fst (generic_file_llseek_size file offset origin maxsize), file'))
  /\ (0 <= fst (default_llseek file offset origin) ->
      let file' := snd (default_llseek file offset origin) in
      default_llseek file' 0 SEEK_CUR
      = (fst (default_llseek file offset origin), file')).
Proof.
  split.
  - intros Hr file' maxsize'.
    assert (Hp : f_pos file'
                 = fst (generic_file_llseek_size file offset origin maxsize)).
    { subst file'. revert Hr. unfold generic_file_llseek_size.
      destruct (origin =? SEEK_END); [apply lseek_execute_tell|].
      destruct (origin =? SEEK_CUR).
      { destruct (offset =? 0); [reflexivity|apply lseek_execute_tell]. }
      destruct (origin =? SEEK_DATA).
      { destruct (offset >=? i_size file); [|apply lseek_execute_tell].
        cbn [fst]. unfold ENXIO. lia. }
      destruct (origin =? SEEK_HOLE).
      { destruct (offset >=? i_size file); [|apply lseek_execute_tell].
        cbn [fst]. unfold ENXIO. lia. }
      apply lseek_execute_tell. }
    unfold generic_file_llseek_size at 1.
    change (SEEK_CUR =? SEEK_END) with false.
    change (SEEK_CUR =? SEEK_CUR) with true.
    change (0 =? 0) with true. cbv iota. rewrite Hp. reflexivity.
  - intros Hr file'.
    assert (Hp : f_pos file' = fst (default_llseek file offset origin)).
    { subst file'. revert Hr. unfold default_llseek.
      destruct (origin =? SEEK_END); [apply default_llseek_set_tell|].
      destruct (origin =? SEEK_CUR).
      { destruct (offset =? 0); [reflexivity|apply default_llseek_set_tell]. }
      destruct (origin =? SEEK_DATA).
      { destruct (offset >=? i_size file); [|apply default_llseek_set_tell].
        cbn [fst]. unfold ENXIO. lia. }
      destruct (origin =? SEEK_HOLE).
      { destruct (offset >=? i_size file); [|apply default_llseek_set_tell].
        cbn [fst]. unfold ENXIO. lia. }
      apply default_llseek_set_tell. }
    unfold default_llseek at 1.
    change (SEEK_CUR =? SEEK_END) with false.
    change (SEEK_CUR =? SEEK_CUR) with true.
    change (0 =? 0) with true. cbv iota. rewrite Hp. reflexivity.
Qed.

Lemma tell_after_seek_witness :
  generic_file_llseek_size
    (snd (generic_file_llseek_size sample_file (-30) SEEK_END 4096))
    0 SEEK_CUR 4096
  = (fst (generic_file_llseek_size sample_file (-30) SEEK_END 4096),
     snd (generic_file_llseek_size sample_file (-30) SEEK_END 4096))
  /\ default_llseek (snd (default_llseek sample_file 5 SEEK_CUR)) 0 SEEK_CUR
     = (fst (default_llseek sample_file 5 SEEK_CUR),
        snd (default_llseek sample_file 5 SEEK_CUR)).
Proof.
  split.
  - apply (proj1 (tell_after_seek sample_file (-30) SEEK_END 4096)).
    vm_compute. discriminate.
  - apply (proj2 (tell_after_seek sample_file 5 SEEK_CUR 0)).
    vm_compute. discriminate.
Defined.

(** SEEK_DATA and SEEK_HOLE treat the whole file as data followed by a
    hole at its end: at or past the size both fail with ENXIO and leave
    the file as it was; below the size, on a file whose size is within
    the limit (itself a value of [loff_t]), SEEK_DATA moves to the offset itself and SEEK_HOLE to
    the size, which is where SEEK_END with offset 0 moves to. *)
Theorem data_then_hole_at_end (file : seek_file) (offset maxsize : Z) :
  (i_size file <= offset ->
   generic_file_llseek_size file offset SEEK_DATA maxsize = (- ENXIO, file)
   /\ generic_file_llseek_size file offset SEEK_HOLE maxsize = (- ENXIO, file))
  /\ (0 <= offset < i_size file -> i_size file <= maxsize <= LLONG_MAX ->
      fst (generic_file_llseek_size file offset SEEK_DATA maxsize) = offset
      /\ f_pos (snd (generic_file_llseek_size file offset SEEK_DATA maxsize))
         = offset
      /\ fst (generic_file_llseek_size file offset SEEK_HOLE maxsize)
         = i_size file
      /\ f_pos (snd (generic_file_llseek_size file offset SEEK_HOLE maxsize))
         = i_size file
      /\ generic_file_llseek_size file offset SEEK_HOLE maxsize
         = generic_file_llseek_size file 0 SEEK_END maxsize).
Proof.
  unfold generic_file_llseek_size.
  change (SEEK_DATA =? SEEK_END) with false.
  change (SEEK_DATA =? SEEK_CUR) with false.
  change (SEEK_DATA =? SEEK_DATA) with true.
  change (SEEK_HOLE =? SEEK_END) with false.
  change (SEEK_HOLE =? SEEK_CUR) with false.
  change (SEEK_HOLE =? SEEK_DATA) with false.
  change (SEEK_HOLE =? SEEK_HOLE) with true.
  change (SEEK_END =? SEEK_END) with true. cbv iota.
  split.
  - intro H. rewrite Z.geb_leb.
    destruct (i_size file <=? offset) eqn:E; [split; reflexivity|].
    apply Z.leb_gt in E. lia.
  - intros Ho Hm. rewrite Z.geb_leb.
    destruct (i_size file <=? offset) eqn:E; [apply Z.leb_le in E; lia|].
    rewrite Z.add_0_l, loff_t_small by lia.
    destruct (lseek_execute_cases file offset maxsize)
      as [[_ [[Hc _]|Hc]]|[Hr [Hp _]]]; try lia.
    destruct (lseek_execute_cases file (i_size file) maxsize)
      as [[_ [[Hc _]|Hc]]|[Hr' [Hp' _]]]; try lia.
    repeat split; assumption.
Qed.

Lemma data_then_hole_at_end_witness :
  (generic_file_llseek_size sample_file 100 SEEK_DATA 4096
   = (- ENXIO, sample_file)
   /\ generic_file_llseek_size sample_file 100 SEEK_HOLE 4096
      = (- ENXIO, sample_file))
  /\ fst (generic_file_llseek_size sample_file 40 SEEK_HOLE 4096)
     = i_size sample_file.
Proof.
  split.
  - apply (proj1 (data_then_hole_at_end sample_file 100 4096)).
    simpl. lia.
  - apply (proj2 (data_then_hole_at_end sample_file 40 4096)).
    + simpl. lia.
    + unfold LLONG_MAX. simpl. lia.
Defined.

(** * The checks made before a transfer *)

Lemma MAX_RW_COUNT_value : MAX_RW_COUNT = 2147479552.
Proof. reflexivity. Qed.

Lemma MAX_RW_COUNT_range : 0 < MAX_RW_COUNT <= INT_MAX.
Proof. rewrite MAX_RW_COUNT_value. unfold INT_MAX. lia. Qed.

Lemma ssize_t_nonneg (x : Z) :
  0 <= x < 2 ^ 64 -> 0 <= ssize_t x -> x <= LLONG_MAX /\ ssize_t x = x.
Proof.
  intros Hx. unfold ssize_t, to_signed, BITS_PER_LONG, LLONG_MAX.
  rewrite Z.mod_small by exact Hx. change (64 - 1) with 63.
  destruct (x <? 2 ^ 63) eqn:E;
    [apply Z.ltb_lt in E|apply Z.ltb_ge in E]; lia.
Qed.

Lemma loff_t_sum_nonneg (pos count : Z) :
  0 <= pos <= LLONG_MAX -> 0 <= count <= LLONG_MAX ->
  0 <= loff_t (pos + count) -> pos + count <= LLONG_MAX.
Proof.
  unfold loff_t, to_signed, LLONG_MAX. intros Hp Hc.
  rewrite Z.mod_small by lia. change (64 - 1) with 63.
  destruct (pos + count <? 2 ^ 63) eqn:E;
    [apply Z.ltb_lt in E|apply Z.ltb_ge in E]; lia.
Qed.

(** Either [rw_verify_area] returns an error, or it returns the count
    cut down and the area is a sound one. *)
Lemma rw_verify_area_cases (R : rw_kernel) (read_write : Z)
  (file : open_file) (pos count : Z) :
  0 <= count < 2 ^ 64 ->
  - 2 ^ 63 <= pos <= LLONG_MAX ->
  (forall mask, security_file_permission R file mask <= 0) ->
  rw_verify_area R read_write file pos count < 0
  \/ (rw_verify_area R read_write file pos count = Z.min count MAX_RW_COUNT
      /\ count <= LLONG_MAX
      /\ (unsigned_offsets (f_state file) = false ->
          0 <= pos /\ pos + count <= LLONG_MAX)
      /\ (pos < 0 -> pos + count < 0)).
Proof.
  intros Hcount Hpos Hsec.
  pose proof MAX_RW_COUNT_range as Hmax.
  unfold rw_verify_area.
  destruct (ssize_t count <? 0) eqn:Es; [left; unfold EINVAL; lia|].
  apply Z.ltb_ge in Es.
  destruct (ssize_t_nonneg count Hcount Es) as [Hc _].
  assert (Harea : area_overflows file pos count = None ->
                  (unsigned_offsets (f_state file) = false ->
                   0 <= pos /\ pos + count <= LLONG_MAX)
                  /\ (pos < 0 -> pos + count < 0)).
  { unfold area_overflows.
    destruct (pos <? 0) eqn:Ep; [apply Z.ltb_lt in Ep|apply Z.ltb_ge in Ep].
    - destruct (unsigned_offsets (f_state file)); cbn [negb];
        [|discriminate].
      unfold size_t, BITS_PER_LONG.
      rewrite Z.mod_small by (unfold LLONG_MAX in *; lia).
      destruct (count >=? - pos) eqn:E; [discriminate|].
      rewrite Z.geb_leb in E. apply Z.leb_gt in E.
      intros _. split; [discriminate|lia].
    - destruct (loff_t (pos + count) <? 0) eqn:E.
      + destruct (unsigned_offsets (f_state file)); cbn [negb];
          [|discriminate].
        intros _. split; [discriminate|lia].
      + apply Z.ltb_ge in E. intros _. split; [|lia].
        intros _. split; [exact Ep|].
        apply loff_t_sum_nonneg; lia. }
  destruct (area_overflows file pos count) as [r|] eqn:Ea.
  { left. revert Ea. unfold area_overflows.
    repeat case_if; intros [= <-]; unfold EINVAL, EOVERFLOW; lia. }
  destruct (Harea eq_refl) as [H1 H2].
  destruct ((if mandatory file then _ else 0) <? 0) eqn:El;
    [left; apply Z.ltb_lt in El; exact El|].
  match goal with
  | |- context [security_file_permission R file ?m] =>
      pose proof (Hsec m) as Hm;
      destruct (security_file_permission R file m =? 0) eqn:E0;
      [|left; apply Z.eqb_neq in E0; cbn [negb]; lia]
  end.
  cbn [negb]. right.
  destruct (count >? MAX_RW_COUNT) eqn:E.
  - rewrite Z.min_r by lia. repeat split; try lia; apply H1 || apply H2;
      assumption.
  - rewrite Z.min_l by lia. repeat split; try lia; apply H1 || apply H2;
      assumption.
Qed.

(** When [rw_verify_area] lets a transfer through, for a count that is
    a value of [size_t], a position that is a value of [loff_t] and a
    security hook that answers 0 or an error, the value it returns is
    the count cut down to MAX_RW_COUNT, which fits in an [int]; the
    count is not negative as an [ssize_t]; on a file with signed
    offsets the position is not negative and the end of the area
    [pos + count] is still a value of [loff_t]; and on any file an
    area that starts at a negative position ends before 0. *)
Theorem verified_area_is_sound (R : rw_kernel) (read_write : Z)
  (file : open_file) (pos count : Z)
  (Hcount : 0 <= count < 2 ^ 64)
  (Hpos : - 2 ^ 63 <= pos <= LLONG_MAX)
  (Hsec : forall mask, security_file_permission R file mask <= 0)
  (Hok : 0 <= rw_verify_area R read_write file pos count) :
  rw_verify_area R read_write file pos count = Z.min count MAX_RW_COUNT
  /\ rw_verify_area R read_write file pos count <= INT_MAX
  /\ count <= LLONG_MAX
  /\ (unsigned_offsets (f_state file) = false ->
      0 <= pos /\ pos + count <= LLONG_MAX)
  /\ (pos < 0 -> pos + count < 0).
Proof.
  pose proof MAX_RW_COUNT_range as Hmax.
  destruct (rw_verify_area_cases R read_write file pos count Hcount Hpos Hsec)
    as [Hneg|[Hr [Hc [Hs Hn]]]]; [lia|].
  split; [exact Hr|]. split; [rewrite Hr; lia|].
  split; [exact Hc|]. split; [exact Hs|exact Hn].
Qed.

Lemma verified_area_is_sound_witness :
  rw_verify_area permissive READ sample_open_file 10 (2 ^ 40)
  = Z.min (2 ^ 40) MAX_RW_COUNT
  /\ rw_verify_area permissive READ sample_open_file 10 (2 ^ 40) <= INT_MAX
  /\ 2 ^ 40 <= LLONG_MAX
  /\ (unsigned_offsets (f_state sample_open_file) = false ->
      0 <= 10 /\ 10 + 2 ^ 40 <= LLONG_MAX)
  /\ (10 < 0 -> 10 + 2 ^ 40 < 0).
Proof.
  apply (verified_area_is_sound permissive READ sample_open_file 10 (2 ^ 40)).
  - lia.
  - unfold LLONG_MAX. lia.
  - intro mask. simpl. lia.
  - vm_compute. discriminate.
Defined.

(** * Vectors of segments *)

Lemma check_segments_total (R : rw_kernel) (type : Z) (check_access : bool)
  (iov : list iovec) :
  iov_lengths_ok iov ->
  forall ret0, 0 <= ret0 <= MAX_RW_COUNT ->
    let r := fst (check_segments R type check_access iov ret0) in
    let iov' := snd (check_segments R type check_access iov ret0) in
    0 <= r ->
    r = Z.min MAX_RW_COUNT (ret0 + iov_total iov)
    /\ ret0 + iov_total iov' = r
    /\ iov_cut_down iov iov'
    /\ Forall (fun seg : iovec => snd seg <= LLONG_MAX) iov.
Proof.
  pose proof MAX_RW_COUNT_range as Hmax.
  induction iov as [|[buf iov_len] iov IH]; intros Hlens ret0 Hret0.
  - cbn [check_segments fst snd iov_total]. intros _.
    rewrite Z.add_0_r, Z.min_r by lia.
    repeat split; [constructor|constructor].
  - inversion Hlens as [|? ? Hlen Hlens']; subst. cbn [snd] in Hlen.
    cbv zeta. cbn [check_segments].
    destruct (ssize_t iov_len <? 0) eqn:Es;
      [cbn [fst]; unfold EINVAL; lia|].
    apply Z.ltb_ge in Es.
    destruct (ssize_t_nonneg iov_len Hlen Es) as [Hl Hs]. rewrite Hs.
    destruct (check_access && negb (rw_access_ok R (vrfy_dir type) buf iov_len));
      [cbn [fst]; unfold EFAULT; lia|].
    destruct (iov_len >? MAX_RW_COUNT - ret0) eqn:Ec.
    + specialize (IH Hlens' (ret0 + (MAX_RW_COUNT - ret0))).
      destruct (check_segments R type check_access iov
                  (ret0 + (MAX_RW_COUNT - ret0))) as [r rest].
      cbn [fst snd] in IH |- *. intro Hr.
      destruct IH as [H1 [H2 [H3 H4]]]; [lia|exact Hr|].
      assert (Hrest : 0 <= iov_total iov).
      { clear - Hlens'. induction Hlens' as [|[b l] iov Hl _ IH];
          cbn [iov_total]; [lia|]. cbn [snd] in Hl. lia. }
      cbn [iov_total]. repeat split.
      * rewrite H1. rewrite !Z.min_l by lia. reflexivity.
      * lia.
      * constructor; [cbn [fst snd]; split; [reflexivity|lia]|exact H3].
      * constructor; [exact Hl|exact H4].
    + specialize (IH Hlens' (ret0 + iov_len)).
      destruct (check_segments R type check_access iov (ret0 + iov_len))
        as [r rest].
      cbn [fst snd] in IH |- *. intro Hr.
      destruct IH as [H1 [H2 [H3 H4]]]; [lia|exact Hr|].
      cbn [iov_total]. repeat split.
      * rewrite H1. f_equal. lia.
      * lia.
      * constructor; [cbn [fst snd]; split; [reflexivity|lia]|exact H3].
      * constructor; [exact Hl|exact H4].
Qed.

(** When [rw_copy_check_uvector] accepts a vector of at least one
    segment, whose lengths as read from user memory are values of
    [size_t], the value it returns is the sum of these lengths cut down
    to MAX_RW_COUNT; the vector it hands back has the same bases, no
    length above the one read, and lengths that add up to the value
    returned; and every length read was non-negative as an [ssize_t]. *)
Theorem checked_vector_is_capped (R : rw_kernel) (kmalloc_iov : bool)
  (type : Z) (iov : list iovec) (nr_segs fast_segs : Z)
  (check_access : bool)
  (Hlens : iov_lengths_ok iov) (Hsegs : nr_segs <> 0)
  (Hok : 0 <= fst (rw_copy_check_uvector R kmalloc_iov type (Some iov)
                     nr_segs fast_segs check_access)) :
  exists iov',
    rw_copy_check_uvector R kmalloc_iov type (Some iov) nr_segs fast_segs
      check_access
    = (Z.min MAX_RW_COUNT (iov_total iov), Some iov')
    /\ iov_total iov' = Z.min MAX_RW_COUNT (iov_total iov)
    /\ iov_cut_down iov iov'
    /\ Forall (fun seg : iovec => snd seg <= LLONG_MAX) iov.
Proof.
  pose proof MAX_RW_COUNT_range as Hmax.
  revert Hok. unfold rw_copy_check_uvector.
  destruct (nr_segs =? 0) eqn:E0; [apply Z.eqb_eq in E0; contradiction|].
  destruct (nr_segs >? UIO_MAXIOV); [cbn [fst]; unfold EINVAL; lia|].
  destruct ((nr_segs >? fast_segs) && negb kmalloc_iov);
    [cbn [fst]; unfold ENOMEM; lia|].
  pose proof (check_segments_total R type check_access iov Hlens 0) as H.
  destruct (check_segments R type check_access iov 0) as [r iov'].
  cbn [fst snd] in H |- *. intro Hr.
  destruct H as [H1 [H2 [H3 H4]]]; [lia|exact Hr|].
  rewrite Z.add_0_l in H1, H2. exists iov'. rewrite H2, H1.
  repeat split; assumption.
Qed.

Lemma checked_vector_is_capped_witness :
  exists iov',
    rw_copy_check_uvector permissive true WRITE
      (Some [(1000, 2 ^ 31); (5000, 8)]) 2 UIO_FASTIOV true
    = (Z.min MAX_RW_COUNT (iov_total [(1000, 2 ^ 31); (5000, 8)]), Some iov')
    /\ iov_total iov'
       = Z.min MAX_RW_COUNT (iov_total [(1000, 2 ^ 31); (5000, 8)])
    /\ iov_cut_down [(1000, 2 ^ 31); (5000, 8)] iov'
    /\ Forall (fun seg : iovec => snd seg <= LLONG_MAX)
         [(1000, 2 ^ 31); (5000, 8)].
Proof.
  apply (checked_vector_is_capped permissive true WRITE
           [(1000, 2 ^ 31); (5000, 8)] 2 UIO_FASTIOV true).
  - repeat constructor; simpl; lia.
  - discriminate.
  - vm_compute. discriminate.
Defined.

Lemma iov_total_nonneg (iov : list iovec) :
  iov_lengths_nonneg iov -> 0 <= iov_total iov.
Proof.
  intro H. induction H as [|[b l] iov Hl _ IH]; cbn [iov_total]; [lia|].
  cbn [snd] in Hl. lia.
Qed.

Lemma size_t_small (x : Z) : 0 <= x < 2 ^ 64 -> size_t x = x.
Proof. intro H. unfold size_t, BITS_PER_LONG. apply Z.mod_small. exact H. Qed.

Lemma iov_shorten_from_total (iov : list iovec) :
  iov_lengths_nonneg iov ->
  forall to seg len,
    0 <= len <= to -> len + iov_total iov < 2 ^ 64 ->
    let r := fst (iov_shorten_from iov to seg len) in
    let iov' := snd (iov_shorten_from iov to seg len) in
    map fst iov' = map fst iov
    /\ (len + iov_total iov < to -> r = seg + Z.of_nat (List.length iov)
                                    /\ iov' = iov)
    /\ (to <= len + iov_total iov -> iov <> [] ->
        exists k,
          r = seg + Z.of_nat k /\ (1 <= k <= List.length iov)%nat
          /\ len + iov_total (firstn k iov') = to
          /\ firstn (k - 1) iov' = firstn (k - 1) iov
          /\ skipn k iov' = skipn k iov).
Proof.
  intro Hlens. induction Hlens as [|[base iov_len] iov Hl Hlens IH];
    intros to seg len Hlen Htot.
  - cbn [iov_shorten_from fst snd iov_total List.length].
    split; [reflexivity|]. split; [intros _; split; [lia|reflexivity]|].
    intros _ Hc. contradiction.
  - cbn [snd] in Hl. cbn [iov_total] in Htot.
    pose proof (iov_total_nonneg iov Hlens) as Hrest.
    cbv zeta. cbn [iov_shorten_from].
    rewrite (size_t_small (len + iov_len)) by lia.
    destruct (len + iov_len >=? to) eqn:E; rewrite Z.geb_leb in E;
      [apply Z.leb_le in E|apply Z.leb_gt in E].
    + cbn [fst snd map iov_total]. split; [reflexivity|].
      split; [lia|]. intros _ _. exists 1%nat.
      rewrite size_t_small by lia.
      cbn [firstn skipn iov_total Nat.sub List.length].
      repeat split; try lia.
    + specialize (IH to (seg + 1) (len + iov_len)).
      destruct (iov_shorten_from iov to (seg + 1) (len + iov_len))
        as [r rest].
      cbn [fst snd] in IH |- *.
      destruct IH as [H1 [H2 H3]]; [lia|lia|].
      cbn [map iov_total fst]. split; [rewrite H1; reflexivity|]. split.
      * intro Hlt. destruct H2 as [-> ->]; [lia|].
        cbn [List.length]. split; [lia|reflexivity].
      * intros Hge _.
        assert (Hne : iov <> []).
        { intros ->. cbn [iov_total] in Hge. lia. }
        destruct H3 as [k [-> [Hk [Hsum [Hpre Hpost]]]]]; [lia|exact Hne|].
        exists (S k). cbn [List.length firstn skipn iov_total].
        replace (S k - 1)%nat with (S (k - 1)) by lia.
        cbn [firstn]. rewrite Hpre, Hpost.
        repeat split; try lia.
Qed.

(** [iov_shorten] on a vector whose lengths are non-negative and add up
    to a value of [size_t]: the bases are kept; when the total is below
    [to] the vector is left as it is and all its segments are counted;
    otherwise the segments counted are those before and up to the one
    in which the byte number [to] falls, that segment is cut so that
    the segments counted add up to [to] exactly, and the segments
    before and after it are left as they were. *)
Theorem iov_shorten_cuts_at_total (iov : list iovec) (to : Z)
  (Hlens : iov_lengths_nonneg iov)
  (Hto : 0 <= to) (Htot : iov_total iov < 2 ^ 64) :
  let seg := fst (iov_shorten iov to) in
  let iov' := snd (iov_shorten iov to) in
  map fst iov' = map fst iov
  /\ (iov_total iov < to -> seg = Z.of_nat (List.length iov) /\ iov' = iov)
  /\ (to <= iov_total iov -> iov <> [] ->
      exists k,
        seg = Z.of_nat k /\ (1 <= k <= List.length iov)%nat
        /\ iov_total (firstn k iov') = to
        /\ firstn (k - 1) iov' = firstn (k - 1) iov
        /\ skipn k iov' = skipn k iov).
Proof.
  pose proof (iov_shorten_from_total iov Hlens to 0 0) as H.
  cbv zeta in H |- *. rewrite !Z.add_0_l in H.
  destruct H as [H1 [H2 H3]]; [lia|exact Htot|].
  split; [exact H1|]. split; [exact H2|].
  intros Hge Hne. destruct (H3 Hge Hne) as [k Hk]. exists k.
  rewrite Z.add_0_l in Hk. exact Hk.
Qed.

Lemma iov_shorten_cuts_at_total_witness :
  let seg := fst (iov_shorten [(1, 10); (2, 20); (3, 30)] 15) in
  let iov' := snd (iov_shorten [(1, 10); (2, 20); (3, 30)] 15) in
  map fst iov' = map fst [(1, 10); (2, 20); (3, 30)]
  /\ (iov_total [(1, 10); (2, 20); (3, 30)] < 15 ->
      seg = Z.of_nat (List.length [(1, 10); (2, 20); (3, 30)])
      /\ iov' = [(1, 10); (2, 20); (3, 30)])
  /\ (15 <= iov_total [(1, 10); (2, 20); (3, 30)] ->
      [(1, 10); (2, 20); (3, 30)] <> [] ->
      exists k,
        seg = Z.of_nat k
        /\ (1 <= k <= List.length [(1, 10); (2, 20); (3, 30)])%nat
        /\ iov_total (firstn k iov') = 15
        /\ firstn (k - 1) iov' = firstn (k - 1) [(1, 10); (2, 20); (3, 30)]
        /\ skipn k iov' = skipn k [(1, 10); (2, 20); (3, 30)]).
Proof.
  apply (iov_shorten_cuts_at_total [(1, 10); (2, 20); (3, 30)] 15).
  - repeat constructor; simpl; lia.
  - lia.
  - simpl. lia.
Defined.

Lemma ssize_t_small (x : Z) : 0 <= x <= LLONG_MAX -> ssize_t x = x.
Proof.
  intro H. unfold ssize_t, BITS_PER_LONG. apply to_signed_small; [lia|].
  change (64 - 1) with 63. unfold LLONG_MAX in H. lia.
Qed.

Lemma do_loop_counts {S : Type} (fn : S -> Z -> Z -> Z * S)
  (Hfn : forall s base len, fst (fn s base len) <= len)
  (iov : list iovec) :
  iov_lengths_nonneg iov ->
  forall (s : S) (n : Z),
    0 <= n -> n + iov_total iov <= LLONG_MAX ->
    let counted := do_loop_readv_writev (counting fn) iov (s, n) n in
    let plain := do_loop_readv_writev fn iov s n in
    fst counted = fst plain
    /\ fst (snd counted) = snd plain
    /\ n <= snd (snd counted) <= n + iov_total iov
    /\ (0 <= fst counted -> fst counted = snd (snd counted))
    /\ (fst counted < 0 -> snd (snd counted) = 0).
Proof.
  intro Hlens. induction Hlens as [|[base len] iov Hl Hlens IH];
    intros s n Hn Htot.
  - cbn [do_loop_readv_writev fst snd iov_total]. repeat split; lia.
  - cbn [snd] in Hl. cbn [iov_total] in Htot.
    pose proof (iov_total_nonneg iov Hlens) as Hrest.
    cbv zeta. cbn [do_loop_readv_writev iov_total].
    change (counting fn (s, n) base len)
      with (let '(nr, s') := fn s base len in
            (nr, (s', if nr >? 0 then n + nr else n))).
    pose proof (Hfn s base len) as Hnr.
    destruct (fn s base len) as [nr s1]. cbn [fst] in Hnr.
    destruct (nr <? 0) eqn:En; [apply Z.ltb_lt in En|apply Z.ltb_ge in En].
    + replace (nr >? 0) with false
        by (symmetry; rewrite Z.gtb_ltb; apply Z.ltb_ge; lia).
      cbn [fst snd].
      destruct (n =? 0) eqn:E0;
        [apply Z.eqb_eq in E0|apply Z.eqb_neq in E0]; repeat split; lia.
    + rewrite ssize_t_small by lia.
      assert (Hcount : (if nr >? 0 then n + nr else n) = n + nr).
      { destruct (nr >? 0) eqn:Eg; [reflexivity|].
        rewrite Z.gtb_ltb in Eg. apply Z.ltb_ge in Eg. lia. }
      rewrite Hcount.
      destruct (nr =? len) eqn:Ee; cbn [negb].
      * apply Z.eqb_eq in Ee. subst nr.
        specialize (IH s1 (n + len)). cbv zeta in IH.
        destruct IH as [H1 [H2 [H3 [H4 H5]]]]; [lia|lia|].
        repeat split; try assumption; lia.
      * cbn [fst snd]. repeat split; lia.
Qed.

(** [do_loop_readv_writev] with a driver that never transfers more
    than it is asked, on a vector whose lengths are non-negative and
    add up to a value of [ssize_t]: counting the bytes that the driver
    transfers changes neither the value nor the state; a value that is
    not negative is exactly the number of bytes transferred, which is
    at most the total of the vector; and a negative value, the error of
    the driver, is returned only when no byte has been transferred. *)
Theorem loop_returns_bytes_transferred {S : Type}
  (fn : S -> Z -> Z -> Z * S) (iov : list iovec) (s : S)
  (Hfn : forall s base len, fst (fn s base len) <= len)
  (Hlens : iov_lengths_nonneg iov)
  (Htot : iov_total iov <= LLONG_MAX) :
  let counted := do_loop_readv_writev (counting fn) iov (s, 0) 0 in
  let plain := do_loop_readv_writev fn iov s 0 in
  fst counted = fst plain
  /\ fst (snd counted) = snd plain
  /\ 0 <= snd (snd counted) <= iov_total iov
  /\ (0 <= fst counted -> fst counted = snd (snd counted))
  /\ (fst counted < 0 -> snd (snd counted) = 0).
Proof.
  pose proof (do_loop_counts fn Hfn iov Hlens s 0) as H.
  cbv zeta in H |- *. rewrite Z.add_0_l in H. apply H; lia.
Qed.

Lemma loop_returns_bytes_transferred_witness :
  let fn := fun (pos base len : Z) =>
              (Z.min len (if pos <? 25 then 25 - pos else - EFAULT),
               pos + Z.min len (25 - pos)) in
  let iov := [(1, 10); (2, 20); (3, 30)] in
  let counted := do_loop_readv_writev (counting fn) iov (0, 0) 0 in
  let plain := do_loop_readv_writev fn iov 0 0 in
  fst counted = fst plain
  /\ fst (snd counted) = snd plain
  /\ 0 <= snd (snd counted) <= iov_total iov
  /\ (0 <= fst counted -> fst counted = snd (snd counted))
  /\ (fst counted < 0 -> snd (snd counted) = 0).
Proof.
  apply (loop_returns_bytes_transferred
           (fun (pos base len : Z) =>
              (Z.min len (if pos <? 25 then 25 - pos else - EFAULT),
               pos + Z.min len (25 - pos)))
           [(1, 10); (2, 20); (3, 30)] 0).
  - intros s base len. cbn [fst]. lia.
  - repeat constructor; simpl; lia.
  - unfold LLONG_MAX. simpl. lia.
Defined.

Lemma do_loop_bounded {S : Type} (fn : S -> Z -> Z -> Z * S)
  (iov : list iovec) (s : S) :
  (forall s base len, fst (fn s base len) <= len) ->
  iov_lengths_nonneg iov -> iov_total iov <= LLONG_MAX ->
  fst (do_loop_readv_writev fn iov s 0) <= iov_total iov.
Proof.
  intros Hfn Hlens Htot.
  pose proof (do_loop_counts fn Hfn iov Hlens s 0) as H.
  cbv zeta in H. rewrite Z.add_0_l in H.
  destruct H as [H1 [_ [H3 [H4 _]]]]; [lia|exact Htot|].
  rewrite <- H1.
  destruct (Z_lt_le_dec (fst (do_loop_readv_writev (counting fn) iov (s, 0) 0))
              0) as [Hneg|Hpos]; [lia|].
  rewrite (H4 Hpos). lia.
Qed.

Lemma iov_cut_down_nonneg (iov iov' : list iovec) :
  iov_cut_down iov iov' -> iov_lengths_nonneg iov'.
Proof.
  intro H. induction H as [|seg seg' iov iov' [_ Hs] _ IH]; constructor;
    [lia|exact IH].
Qed.

(** * Positions passed as two words *)

Lemma to_signed_shift (bits x : Z) :
  0 < bits -> exists c, to_signed bits x = x + c * 2 ^ bits.
Proof.
  intro Hb. unfold to_signed.
  assert (Hp : 0 < 2 ^ bits) by (apply Z.pow_pos_nonneg; lia).
  pose proof (Z.div_mod x (2 ^ bits)) as Hd.
  destruct (x mod 2 ^ bits <? 2 ^ (bits - 1)).
  - exists (- (x / 2 ^ bits)). lia.
  - exists (- (x / 2 ^ bits) - 1). lia.
Qed.

Lemma to_signed_add_multiple (bits x c : Z) :
  0 < bits -> to_signed bits (x + c * 2 ^ bits) = to_signed bits x.
Proof.
  intro Hb. unfold to_signed.
  rewrite Z.mod_add by (apply Z.pow_nonzero; lia). reflexivity.
Qed.

Lemma lor_low_word (a low k : Z) :
  0 <= k -> 0 <= low < 2 ^ k -> Z.lor (a * 2 ^ k) low = a * 2 ^ k + low.
Proof.
  intros Hk Hlow.
  assert (Hland : Z.land (a * 2 ^ k) low = 0).
  { apply Z.bits_inj'. intros n Hn.
    rewrite Z.land_spec, Z.bits_0.
    destruct (Z_lt_le_dec n k) as [Hlt|Hge].
    - rewrite Z.mul_pow2_bits_low by lia. reflexivity.
    - replace low with (low mod 2 ^ k) by (apply Z.mod_small; exact Hlow).
      rewrite Z.mod_pow2_bits_high by lia. apply andb_false_r. }
  rewrite <- Z.lxor_lor by exact Hland.
  symmetry. apply Z.add_nocarry_lxor. exact Hland.
Qed.

Lemma pos_from_hilo_on_sum (half high low : Z) :
  0 <= half <= 32 -> 0 <= low < 2 ^ (half + half) ->
  pos_from_hilo_on (2 * half) high low
  = loff_t (high * 2 ^ (half + half) + low).
Proof.
  intros Hh Hlow. unfold pos_from_hilo_on.
  replace (2 * half / 2) with half
    by (symmetry; rewrite Z.mul_comm; apply Z.div_mul; lia).
  cbv zeta. unfold loff_t at 2 3 4.
  destruct (to_signed_shift 64 high) as [c1 ->]; [lia|].
  rewrite !Z.shiftl_mul_pow2 by lia.
  destruct (to_signed_shift 64 ((high + c1 * 2 ^ 64) * 2 ^ half))
    as [c2 ->]; [lia|].
  destruct (to_signed_shift 64
              (((high + c1 * 2 ^ 64) * 2 ^ half + c2 * 2 ^ 64) * 2 ^ half))
    as [c3 ->]; [lia|].
  assert (HT : 2 ^ (half + half) = 2 ^ half * 2 ^ half)
    by (apply Z.pow_add_r; lia).
  assert (HQ : 2 ^ 64 = 2 ^ (64 - (half + half)) * 2 ^ (half + half))
    by (rewrite <- Z.pow_add_r by lia; f_equal; lia).
  set (M := c1 * 2 ^ (half + half) + c2 * 2 ^ half + c3).
  replace (((high + c1 * 2 ^ 64) * 2 ^ half + c2 * 2 ^ 64) * 2 ^ half
           + c3 * 2 ^ 64)
    with ((high + M * 2 ^ (64 - (half + half))) * 2 ^ (half + half))
    by (unfold M; rewrite HQ, HT; ring).
  rewrite lor_low_word by lia.
  replace ((high + M * 2 ^ (64 - (half + half))) * 2 ^ (half + half) + low)
    with (high * 2 ^ (half + half) + low + M * 2 ^ 64)
    by (rewrite HQ; ring).
  apply to_signed_add_multiple. lia.
Qed.

(** [pos_from_hilo] puts the two words of a position together.  With a
    [long] of 64 bits the low word is the whole position and the high
    word is discarded; with a [long] of 32 bits, the two halves of a
    position, each taken as an unsigned word, give the position back. *)
Theorem pos_from_hilo_joins_words :
  (forall high low, 0 <= low < 2 ^ 64 -> pos_from_hilo high low = loff_t low)
  /\ (forall pos, - 2 ^ 63 <= pos <= LLONG_MAX ->
        pos_from_hilo_on 32 ((pos / 2 ^ 32) mod 2 ^ 32) (pos mod 2 ^ 32)
        = pos).
Proof.
  split.
  - intros high low Hlow. unfold pos_from_hilo, BITS_PER_LONG.
    change 64 with (2 * 32) at 1.
    rewrite pos_from_hilo_on_sum by (simpl; lia).
    change (32 + 32) with 64.
    rewrite Z.add_comm. apply (to_signed_add_multiple 64). lia.
  - intros pos Hpos. change 32 with (2 * 16) at 1.
    rewrite pos_from_hilo_on_sum;
      [|lia|change (16 + 16) with 32; apply Z.mod_pos_bound; lia].
    change (16 + 16) with 32.
    pose proof (Z.div_mod pos (2 ^ 32)) as H1.
    pose proof (Z.div_mod (pos / 2 ^ 32) (2 ^ 32)) as H2.
    replace ((pos / 2 ^ 32) mod 2 ^ 32 * 2 ^ 32 + pos mod 2 ^ 32)
      with (pos + (- (pos / 2 ^ 32 / 2 ^ 32)) * 2 ^ 64) by lia.
    unfold loff_t. rewrite to_signed_add_multiple by lia.
    apply loff_t_small. exact Hpos.
Qed.

Lemma pos_from_hilo_joins_words_witness :
  pos_from_hilo 7 4096 = loff_t 4096
  /\ pos_from_hilo_on 32 ((- 5 / 2 ^ 32) mod 2 ^ 32) (- 5 mod 2 ^ 32) = - 5.
Proof.
  split.
  - apply (proj1 pos_from_hilo_joins_words 7 4096). lia.
  - apply (proj2 pos_from_hilo_joins_words (- 5)). unfold LLONG_MAX. lia.
Defined.

(** * Reading and writing *)

Lemma flag_on_false (mode bit : Z) :
  negb (flag_on mode bit) = false -> flag_on mode bit = true.
Proof. apply negb_false_iff. Qed.

(** [vfs_read] and [vfs_write] never call an operation that the file
    does not have.  When the count is a value of [size_t], the position
    one of [loff_t], the security hook answers 0 or an error and the
    drivers of the file never report more than they were asked for, the
    value returned is at most the count and at most MAX_RW_COUNT, and
    the bytes read (written) accounted to the task grow by exactly the
    value returned when it is positive and not at all otherwise, the
    bytes of the other direction being left alone. *)
Theorem transfer_is_bounded_and_accounted (R : rw_kernel) (file : open_file)
  (buf count pos : Z) (t : task_io)
  (Hcount : 0 <= count < 2 ^ 64)
  (Hpos : - 2 ^ 63 <= pos <= LLONG_MAX)
  (Hsec : forall mask, security_file_permission R file mask <= 0)
  (Hdrv : drivers_bounded file) :
  (exists ret pos' t',
      vfs_read R file buf count pos t = Some (ret, pos', t')
      /\ ret <= Z.min count MAX_RW_COUNT
      /\ rchar t' = rchar t + Z.max 0 ret /\ wchar t' = wchar t)
  /\ (exists ret pos' t',
        vfs_write R file buf count pos t = Some (ret, pos', t')
        /\ ret <= Z.min count MAX_RW_COUNT
        /\ wchar t' = wchar t + Z.max 0 ret /\ rchar t' = rchar t).
Proof.
  pose proof MAX_RW_COUNT_range as Hmax.
  assert (Hneg : forall e, 0 < e ->
            - e <= Z.min count MAX_RW_COUNT
            /\ rchar t = rchar t + Z.max 0 (- e) /\ wchar t = wchar t)
    by (intros e He; lia).
  assert (HnegW : forall e, 0 < e ->
            - e <= Z.min count MAX_RW_COUNT
            /\ wchar t = wchar t + Z.max 0 (- e) /\ rchar t = rchar t)
    by (intros e He; lia).
  assert (Harea : forall rw,
            rw_verify_area R rw file pos count < 0
            \/ rw_verify_area R rw file pos count = Z.min count MAX_RW_COUNT).
  { intro rw.
    destruct (rw_verify_area_cases R rw file pos count Hcount Hpos Hsec)
      as [H|[H _]]; [left; exact H|right; exact H]. }
  split.
  - unfold vfs_read.
    case_if; [exists (- EBADF), pos, t; split; [reflexivity|];
              apply (Hneg EBADF); unfold EBADF; lia|].
    destruct (f_op file) as [ops|] eqn:Eops;
      [|exists (- EINVAL), pos, t; split; [reflexivity|];
        apply (Hneg EINVAL); unfold EINVAL; lia].
    destruct (Hdrv ops Eops) as [Hio Hiov].
    assert (Hgo :
      forall call : option (Z * Z),
        (exists ret p, call = Some (ret, p)
                       /\ ret <= rw_verify_area R READ file pos count) ->
        exists ret pos' t',
          (if negb (rw_access_ok R VERIFY_WRITE buf count)
           then Some (- EFAULT, pos, t)
           else
             if rw_verify_area R READ file pos count >=? 0
             then
               match call with
               | Some (ret, pos0) =>
                   Some (ret, pos0,
                         inc_syscr (if ret >? 0
                                    then add_rchar (fsnotify t Access) ret
                                    else t))
               | None => None
               end
             else Some (rw_verify_area R READ file pos count, pos, t))
          = Some (ret, pos', t')
          /\ ret <= Z.min count MAX_RW_COUNT
          /\ rchar t' = rchar t + Z.max 0 ret /\ wchar t' = wchar t).
    { intros call [ret [p [-> Hret]]].
      case_if; [exists (- EFAULT), pos, t; split; [reflexivity|];
                apply (Hneg EFAULT); unfold EFAULT; lia|].
      destruct (rw_verify_area R READ file pos count >=? 0) eqn:Ev;
        rewrite Z.geb_leb in Ev;
        [apply Z.leb_le in Ev|apply Z.leb_gt in Ev].
      - destruct (Harea READ) as [Ha|Ha]; [lia|].
        exists ret, p. eexists. split; [reflexivity|].
        split; [lia|].
        destruct (ret >? 0) eqn:Er; rewrite Z.gtb_ltb in Er;
          [apply Z.ltb_lt in Er|apply Z.ltb_ge in Er];
          cbn [rchar wchar inc_syscr add_rchar fsnotify]; lia.
      - exists (rw_verify_area R READ file pos count), pos, t.
        split; [reflexivity|]. lia. }
    unfold do_sync_read. rewrite Eops.
    destruct (read ops) as [fn|] eqn:Er.
    + assert (Hfn : driver_bounded fn) by (apply Hio; left; reflexivity).
      destruct (aio_read ops);
        (apply (Hgo (Some (fn (f_state file) buf
                             (rw_verify_area R READ file pos count) pos)));
         exists (fst (fn (f_state file) buf
                        (rw_verify_area R READ file pos count) pos)),
                (snd (fn (f_state file) buf
                        (rw_verify_area R READ file pos count) pos));
         split; [rewrite <- surjective_pairing; reflexivity|apply Hfn]).
    + destruct (aio_read ops) as [fnv|] eqn:Ea;
        [|exists (- EINVAL), pos, t; split; [reflexivity|];
          apply (Hneg EINVAL); unfold EINVAL; lia].
      assert (Hfnv : vector_driver_bounded fnv)
        by (apply Hiov; left; reflexivity).
      apply (Hgo (Some (fnv (f_state file)
                          [(buf, rw_verify_area R READ file pos count)]
                          (rw_verify_area R READ file pos count) pos))).
      eexists. eexists.
      split; [rewrite <- surjective_pairing; reflexivity|apply Hfnv].
  - unfold vfs_write.
    case_if; [exists (- EBADF), pos, t; split; [reflexivity|];
              apply (HnegW EBADF); unfold EBADF; lia|].
    destruct (f_op file) as [ops|] eqn:Eops;
      [|exists (- EINVAL), pos, t; split; [reflexivity|];
        apply (HnegW EINVAL); unfold EINVAL; lia].
    destruct (Hdrv ops Eops) as [Hio Hiov].
    assert (Hgo :
      forall call : option (Z * Z),
        (exists ret p, call = Some (ret, p)
                       /\ ret <= rw_verify_area R WRITE file pos count) ->
        exists ret pos' t',
          (if negb (rw_access_ok R VERIFY_READ buf count)
           then Some (- EFAULT, pos, t)
           else
             if rw_verify_area R WRITE file pos count >=? 0
             then
               match call with
               | Some (ret, pos0) =>
                   Some (ret, pos0,
                         inc_syscw (if ret >? 0
                                    then add_wchar (fsnotify t Modify) ret
                                    else t))
               | None => None
               end
             else Some (rw_verify_area R WRITE file pos count, pos, t))
          = Some (ret, pos', t')
          /\ ret <= Z.min count MAX_RW_COUNT
          /\ wchar t' = wchar t + Z.max 0 ret /\ rchar t' = rchar t).
    { intros call [ret [p [-> Hret]]].
      case_if; [exists (- EFAULT), pos, t; split; [reflexivity|];
                apply (HnegW EFAULT); unfold EFAULT; lia|].
      destruct (rw_verify_area R WRITE file pos count >=? 0) eqn:Ev;
        rewrite Z.geb_leb in Ev;
        [apply Z.leb_le in Ev|apply Z.leb_gt in Ev].
      - destruct (Harea WRITE) as [Ha|Ha]; [lia|].
        exists ret, p. eexists. split; [reflexivity|].
        split; [lia|].
        destruct (ret >? 0) eqn:Er; rewrite Z.gtb_ltb in Er;
          [apply Z.ltb_lt in Er|apply Z.ltb_ge in Er];
          cbn [rchar wchar inc_syscw add_wchar fsnotify]; lia.
      - exists (rw_verify_area R WRITE file pos count), pos, t.
        split; [reflexivity|]. lia. }
    unfold do_sync_write. rewrite Eops.
    destruct (write ops) as [fn|] eqn:Er.
    + assert (Hfn : driver_bounded fn) by (apply Hio; right; reflexivity).
      destruct (aio_write ops);
        (apply (Hgo (Some (fn (f_state file) buf
                             (rw_verify_area R WRITE file pos count) pos)));
         exists (fst (fn (f_state file) buf
                        (rw_verify_area R WRITE file pos count) pos)),
                (snd (fn (f_state file) buf
                        (rw_verify_area R WRITE file pos count) pos));
         split; [rewrite <- surjective_pairing; reflexivity|apply Hfn]).
    + destruct (aio_write ops) as [fnv|] eqn:Ea;
        [|exists (- EINVAL), pos, t; split; [reflexivity|];
          apply (HnegW EINVAL); unfold EINVAL; lia].
      assert (Hfnv : vector_driver_bounded fnv)
        by (apply Hiov; right; reflexivity).
      apply (Hgo (Some (fnv (f_state file)
                          [(buf, rw_verify_area R WRITE file pos count)]
                          (rw_verify_area R WRITE file pos count) pos))).
      eexists. eexists.
      split; [rewrite <- surjective_pairing; reflexivity|apply Hfnv].
Qed.

Lemma transfer_is_bounded_and_accounted_witness :
  (exists ret pos' t',
      vfs_read permissive sample_readable 1000 (2 ^ 40) 10 idle
      = Some (ret, pos', t')
      /\ ret <= Z.min (2 ^ 40) MAX_RW_COUNT
      /\ rchar t' = rchar idle + Z.max 0 ret /\ wchar t' = wchar idle)
  /\ (exists ret pos' t',
        vfs_write permissive sample_readable 1000 (2 ^ 40) 10 idle
        = Some (ret, pos', t')
        /\ ret <= Z.min (2 ^ 40) MAX_RW_COUNT
        /\ wchar t' = wchar idle + Z.max 0 ret /\ rchar t' = rchar idle).
Proof.
  apply (transfer_is_bounded_and_accounted permissive sample_readable
           1000 (2 ^ 40) 10 idle).
  - lia.
  - unfold LLONG_MAX. lia.
  - intro mask. simpl. lia.
  - intros ops [= <-]. split; intros fn [H|H]; simpl in H;
      try discriminate H.
    injection H as <-. intros f b c p. simpl. lia.
Defined.

Lemma do_readv_writev_bounded (R : rw_kernel) (kmalloc_iov : bool)
  (type : Z) (file : open_file) (ops : file_operations)
  (vec : option (list iovec)) (vlen pos : Z) (t : task_io) :
  f_op file = Some ops ->
  (if type =? READ then aio_read ops else aio_write ops) <> None
  \/ (if type =? READ then read ops else write ops) <> None ->
  (forall iov, vec = Some iov -> iov_lengths_ok iov) ->
  - 2 ^ 63 <= pos <= LLONG_MAX ->
  drivers_bounded file ->
  exists ret pos' t',
    do_readv_writev R kmalloc_iov type file vec vlen pos t
    = Some (ret, pos', t')
    /\ ret <= MAX_RW_COUNT
    /\ (forall iov, vec = Some iov -> ret <= iov_total iov).
Proof.
  intros Eops Hsome Hvec Hpos Hdrv.
  pose proof MAX_RW_COUNT_range as Hmax.
  destruct (Hdrv ops Eops) as [Hio Hiov].
  assert (Hnonneg : forall iov, vec = Some iov -> 0 <= iov_total iov).
  { intros iov Hv. apply iov_total_nonneg.
    specialize (Hvec iov Hv). unfold iov_lengths_ok in Hvec.
    unfold iov_lengths_nonneg.
    apply (Forall_impl _ (P := fun seg : iovec => 0 <= snd seg < 2 ^ 64));
      [intros seg Hs; lia|exact Hvec]. }
  unfold do_readv_writev. rewrite Eops.
  destruct (rw_copy_check_uvector R kmalloc_iov type vec vlen UIO_FASTIOV true)
    as [ret iovo] eqn:Ec.
  destruct (ret <=? 0) eqn:E0;
    [apply Z.leb_le in E0|apply Z.leb_gt in E0].
  { eexists. eexists. eexists. split; [reflexivity|]. split; [lia|].
    intros iov Hv. specialize (Hnonneg iov Hv). lia. }
  assert (Hchecked : exists iov iov',
             vec = Some iov /\ iovo = Some iov'
             /\ ret = Z.min MAX_RW_COUNT (iov_total iov)
             /\ iov_total iov' = ret /\ iov_cut_down iov iov').
  { destruct vec as [iov|].
    - revert Ec. unfold rw_copy_check_uvector.
      repeat case_if;
        try (intros [= <- _]; unfold EINVAL, ENOMEM in *; lia).
      pose proof (check_segments_total R type true iov (Hvec iov eq_refl) 0)
        as H.
      destruct (check_segments R type true iov 0) as [r iov'].
      cbn [fst snd] in H. intros [= -> <-].
      destruct H as [H1 [H2 [H3 _]]]; [lia|lia|].
      rewrite Z.add_0_l in H1, H2. exists iov, iov'.
      repeat split; assumption.
    - exfalso. revert Ec. unfold rw_copy_check_uvector.
      repeat case_if; intros [= <- _]; unfold EINVAL, ENOMEM, EFAULT in *;
        lia. }
  destruct Hchecked as [iov [iov' [-> [-> [Hret [Htot Hcut]]]]]].
  specialize (Hnonneg iov eq_refl).
  destruct (rw_verify_area R type file pos ret <? 0) eqn:Ev.
  { apply Z.ltb_lt in Ev. eexists. eexists. eexists.
    split; [reflexivity|]. split; [lia|]. intros iov0 [= <-]. lia. }
  destruct (if type =? READ then aio_read ops else aio_write ops)
    as [fnv|] eqn:Efnv.
  - assert (Hfnv : vector_driver_bounded fnv).
    { apply Hiov. destruct (type =? READ); [left|right]; exact Efnv. }
    unfold do_sync_readv_writev.
    pose proof (Hfnv (f_state file) iov' ret pos) as Hb.
    destruct (fnv (f_state file) iov' ret pos) as [r p]. cbn [fst] in Hb.
    eexists. eexists. eexists. split; [reflexivity|]. split; [lia|].
    intros iov0 [= <-]. lia.
  - destruct (if type =? READ then read ops else write ops) as [fn|] eqn:Efn;
      [|exfalso; destruct Hsome as [H|H]; apply H; reflexivity].
    assert (Hfn : driver_bounded fn).
    { apply Hio. destruct (type =? READ); [left|right]; exact Efn. }
    pose proof (do_loop_bounded
                  (fun pos base len => fn (f_state file) base len pos)
                  iov' pos) as Hb.
    destruct (do_loop_readv_writev _ iov' pos 0) as [r p]. cbn [fst] in Hb.
    assert (r <= iov_total iov').
    { apply Hb; [intros s base len; apply Hfn
                |apply (iov_cut_down_nonneg iov); exact Hcut
                |unfold LLONG_MAX, INT_MAX in *; lia]. }
    eexists. eexists. eexists. split; [reflexivity|]. split; [lia|].
    intros iov0 [= <-]. lia.
Qed.

(** [vfs_readv] and [vfs_writev] never call an operation that the file
    does not have.  When the lengths of the vector read from user
    memory are values of [size_t], the position is one of [loff_t] and
    the drivers of the file never report more than they were asked for,
    the value returned is at most MAX_RW_COUNT and at most the total
    length of the vector. *)
Theorem vector_transfer_is_bounded (R : rw_kernel) (kmalloc_iov : bool)
  (file : open_file) (vec : option (list iovec)) (vlen pos : Z)
  (t : task_io)
  (Hvec : forall iov, vec = Some iov -> iov_lengths_ok iov)
  (Hpos : - 2 ^ 63 <= pos <= LLONG_MAX)
  (Hdrv : drivers_bounded file) :
  (exists ret pos' t',
      vfs_readv R kmalloc_iov file vec vlen pos t = Some (ret, pos', t')
      /\ ret <= MAX_RW_COUNT
      /\ (forall iov, vec = Some iov -> ret <= iov_total iov))
  /\ (exists ret pos' t',
        vfs_writev R kmalloc_iov file vec vlen pos t = Some (ret, pos', t')
        /\ ret <= MAX_RW_COUNT
        /\ (forall iov, vec = Some iov -> ret <= iov_total iov)).
Proof.
  pose proof MAX_RW_COUNT_range as Hmax.
  assert (Hneg : forall e, 0 < e ->
            - e <= MAX_RW_COUNT
            /\ (forall iov, vec = Some iov -> - e <= iov_total iov)).
  { intros e He. split; [lia|]. intros iov Hv.
    assert (0 <= iov_total iov); [|lia].
    apply iov_total_nonneg. specialize (Hvec iov Hv).
    apply (Forall_impl _ (P := fun seg : iovec => 0 <= snd seg < 2 ^ 64));
      [intros seg Hs; lia|exact Hvec]. }
  split.
  - unfold vfs_readv.
    case_if; [exists (- EBADF), pos, t; split; [reflexivity|];
              apply Hneg; unfold EBADF; lia|].
    destruct (f_op file) as [ops|] eqn:Eops;
      [|exists (- EINVAL), pos, t; split; [reflexivity|];
        apply Hneg; unfold EINVAL; lia].
    destruct (aio_read ops) as [fnv|] eqn:Ea.
    + apply (do_readv_writev_bounded R kmalloc_iov READ file ops); auto.
      left. change (READ =? READ) with true. cbv iota. rewrite Ea.
      discriminate.
    + destruct (read ops) as [fn|] eqn:Er;
        [|exists (- EINVAL), pos, t; split; [reflexivity|];
          apply Hneg; unfold EINVAL; lia].
      apply (do_readv_writev_bounded R kmalloc_iov READ file ops); auto.
      right. change (READ =? READ) with true. cbv iota. rewrite Er.
      discriminate.
  - unfold vfs_writev.
    case_if; [exists (- EBADF), pos, t; split; [reflexivity|];
              apply Hneg; unfold EBADF; lia|].
    destruct (f_op file) as [ops|] eqn:Eops;
      [|exists (- EINVAL), pos, t; split; [reflexivity|];
        apply Hneg; unfold EINVAL; lia].
    destruct (aio_write ops) as [fnv|] eqn:Ea.
    + apply (do_readv_writev_bounded R kmalloc_iov WRITE file ops); auto.
      left. change (WRITE =? READ) with false. cbv iota. rewrite Ea.
      discriminate.
    + destruct (write ops) as [fn|] eqn:Er;
        [|exists (- EINVAL), pos, t; split; [reflexivity|];
          apply Hneg; unfold EINVAL; lia].
      apply (do_readv_writev_bounded R kmalloc_iov WRITE file ops); auto.
      right. change (WRITE =? READ) with false. cbv iota. rewrite Er.
      discriminate.
Qed.

Lemma vector_transfer_is_bounded_witness :
  (exists ret pos' t',
      vfs_readv permissive true sample_readable
        (Some [(1000, 2 ^ 31); (5000, 8)]) 2 10 idle = Some (ret, pos', t')
      /\ ret <= MAX_RW_COUNT
      /\ (forall iov, Some [(1000, 2 ^ 31); (5000, 8)] = Some iov ->
                      ret <= iov_total iov))
  /\ (exists ret pos' t',
        vfs_writev permissive true sample_readable
          (Some [(1000, 2 ^ 31); (5000, 8)]) 2 10 idle = Some (ret, pos', t')
        /\ ret <= MAX_RW_COUNT
        /\ (forall iov, Some [(1000, 2 ^ 31); (5000, 8)] = Some iov ->
                        ret <= iov_total iov)).
Proof.
  apply (vector_transfer_is_bounded permissive true sample_readable
           (Some [(1000, 2 ^ 31); (5000, 8)]) 2 10 idle).
  - intros iov [= <-]. repeat constructor; simpl; lia.
  - unfold LLONG_MAX. lia.
  - intros ops [= <-]. split; intros fn [H|H]; simpl in H;
      try discriminate H.
    injection H as <-. intros f b c p. simpl. lia.
Defined.

(** * Copying from a file to a file *)

(** [do_sendfile] asks [do_splice_direct] only for what fits: when the
    two files are open, the input file has signed offsets, the count is
    a value of [size_t], the positions are values of [loff_t], the
    security hook answers 0 or an error and the limit in force (the
    argument [max], or for 0 the smaller [s_maxbytes] of the two files)
    is a non-negative value of [loff_t], the call made, if any, is for
    a count that is not negative, not above the count asked for, not
    above MAX_RW_COUNT and that does not take the position past the
    limit.  Two splice functions that agree on such calls give the same
    outcome. *)
Theorem sendfile_asks_within_limit (R : rw_kernel)
  (splice splice' : splice_fn) (files : fdtable) (out_fd in_fd : Z)
  (ppos : option Z) (count max : Z) (t : task_io)
  (in_file out_file : open_file)
  (Hin : files in_fd = Some in_file) (Hout : files out_fd = Some out_file)
  (Hsigned : unsigned_offsets (f_state in_file) = false)
  (Hcount : 0 <= count < 2 ^ 64)
  (Hpos : - 2 ^ 63 <= position_at files in_fd ppos <= LLONG_MAX)
  (Hopos : - 2 ^ 63 <= f_pos (f_state out_file) <= LLONG_MAX)
  (Hsec : forall file mask, security_file_permission R file mask <= 0)
  (Hlimit : 0 <= (if max =? 0
                  then min_loff (s_maxbytes (f_state in_file))
                                (s_maxbytes (f_state out_file))
                  else max) <= LLONG_MAX)
  (Hagree : forall c,
      0 <= c <= MAX_RW_COUNT -> c <= count ->
      position_at files in_fd ppos + c
      <= (if max =? 0
          then min_loff (s_maxbytes (f_state in_file))
                        (s_maxbytes (f_state out_file))
          else max) ->
      splice files in_fd ppos out_fd c 0 = splice' files in_fd ppos out_fd c 0) :
  do_sendfile R splice files out_fd in_fd ppos count max t
  = do_sendfile R splice' files out_fd in_fd ppos count max t.
Proof.
  pose proof MAX_RW_COUNT_range as Hmax.
  unfold do_sendfile. rewrite Hin, Hout.
  case_if; [reflexivity|]. case_if; [reflexivity|].
  set (pos := position_at files in_fd ppos) in *.
  set (limit := if max =? 0 then _ else max) in *.
  destruct (rw_verify_area R READ in_file pos count <? 0) eqn:E1;
    [reflexivity|]. apply Z.ltb_ge in E1.
  destruct (rw_verify_area_cases R READ in_file pos count Hcount Hpos
              (Hsec in_file)) as [Hneg|[Hr1 [Hc [Hs _]]]]; [lia|].
  destruct (Hs Hsigned) as [Hp0 Hend].
  set (count1 := rw_verify_area R READ in_file pos count) in *.
  case_if; [reflexivity|].
  destruct (rw_verify_area R WRITE out_file (f_pos (f_state out_file)) count1
            <? 0) eqn:E2; [reflexivity|]. apply Z.ltb_ge in E2.
  destruct (rw_verify_area_cases R WRITE out_file (f_pos (f_state out_file))
              count1) as [Hneg|[Hr2 _]];
    [lia|exact Hopos|exact (Hsec out_file)|lia|].
  set (count2 := rw_verify_area R WRITE out_file (f_pos (f_state out_file))
                   count1) in *.
  assert (Hc2 : 0 <= count2 <= MAX_RW_COUNT /\ count2 <= count) by lia.
  rewrite (size_t_small (pos + count2)) by (unfold LLONG_MAX in *; lia).
  rewrite (size_t_small limit) by (unfold LLONG_MAX in *; lia).
  destruct (pos + count2 >? limit) eqn:Eo; rewrite Z.gtb_ltb in Eo;
    [apply Z.ltb_lt in Eo|apply Z.ltb_ge in Eo].
  - destruct (pos >=? limit) eqn:Ep; [reflexivity|].
    rewrite Z.geb_leb in Ep. apply Z.leb_gt in Ep.
    rewrite (size_t_small (limit - pos)) by (unfold LLONG_MAX in *; lia).
    rewrite (Hagree (limit - pos)) by lia. reflexivity.
  - rewrite (Hagree count2) by lia. reflexivity.
Qed.

Lemma sendfile_asks_within_limit_witness :
  do_sendfile permissive greedy_splice sample_files 4 3 None 5000 0 idle
  = do_sendfile permissive
      (fun files in_fd ppos out_fd count fl =>
         if count <=? 4086 then greedy_splice files in_fd ppos out_fd count fl
         else (- EINVAL, ppos, files))
      sample_files 4 3 None 5000 0 idle.
Proof.
  apply (sendfile_asks_within_limit permissive greedy_splice
           (fun files in_fd ppos out_fd count fl =>
              if count <=? 4086
              then greedy_splice files in_fd ppos out_fd count fl
              else (- EINVAL, ppos, files))
           sample_files 4 3 None 5000 0 idle
           sample_open_file sample_open_file).
  - reflexivity.
  - reflexivity.
  - reflexivity.
  - lia.
  - vm_compute. split; discriminate.
  - vm_compute. split; discriminate.
  - intros file mask. simpl. lia.
  - vm_compute. split; discriminate.
  - intros c Hc Hc' Hl.
    change (position_at sample_files 3 None) with 10 in Hl.
    change (if 0 =? 0
            then min_loff (s_maxbytes (f_state sample_open_file))
                          (s_maxbytes (f_state sample_open_file))
            else 0) with 4096 in Hl.
    destruct (c <=? 4086) eqn:E; [reflexivity|apply Z.leb_gt in E; lia].
Defined.
